(** * libgo-http: the HTTP header converter (package [conv])

    A shallow embedding of [conv/header.go] and of the parts of the Go
    standard library it calls, followed by the properties of the
    converter that its specification states and by further properties
    of the code.

    Conventions.
    - A Go [string] is a sequence of bytes: [gostring := list ascii].
    - A [rune] is a natural number ([N]); an [int] used as an index is a
      [nat] or a [Z].
    - A Go [error] value is [option error], [None] being [nil].
    - A function that can panic or loop returns in the [exec] monad.
    - What the code takes from outside the repository and the Go
      sources are parameters: the Unicode tables ([CaseTables]) and the
      channel capacities the machine accepts ([Runtime]). *)

From Stdlib Require Import Ascii String NArith ZArith Lia.
From stdpp Require Import gmap strings list relations sorting.

Local Open Scope N_scope.
Local Open Scope list_scope.

(** ** Go strings *)

Abbreviation gostring := (list ascii).

(** The bytes of a string literal. *)
Definition bytes (s : string) : gostring := list_ascii_of_string s.

(** The numeric value of a byte. *)
Definition byteval (c : ascii) : N := N_of_ascii c.

Definition LF : ascii := ascii_of_N 10.
Definition TAB : ascii := ascii_of_N 9.
Definition SP : ascii := ascii_of_N 32.
Definition QUOTE : ascii := ascii_of_N 34.

(** [s[a:b]] for in-range indices. *)
Definition slice (s : gostring) (a b : nat) : gostring := take (b - a) (drop a s).

(** Go's [<] on strings: bytewise lexicographic order. *)
Fixpoint string_ltb (a b : gostring) : bool :=
  match a, b with
  | _, [] => false
  | [], _ :: _ => true
  | x :: a', y :: b' =>
      if byteval x <? byteval y then true
      else if byteval y <? byteval x then false
      else string_ltb a' b'
  end.

(** ** Package [unicode/utf8] *)
Module utf8.

Definition RuneError : N := 0xFFFD.
Definition RuneSelf : N := 0x80.
Definition UTFMax : nat := 4.

(** The table [first]: what the first byte of a sequence announces.
    [AS] is ASCII, [XX] is an invalid first byte, [Lead sz lo hi] a
    sequence of [sz] bytes whose second byte lies in [lo..hi]. *)
Inductive firstInfo := AS | XX | Lead (sz : nat) (lo hi : N).

Definition first (b : N) : firstInfo :=
  if b <? 0x80 then AS
  else if b <? 0xC2 then XX
  else if b <? 0xE0 then Lead 2 0x80 0xBF
  else if b =? 0xE0 then Lead 3 0xA0 0xBF
  else if b <? 0xED then Lead 3 0x80 0xBF
  else if b =? 0xED then Lead 3 0x80 0x9F
  else if b <? 0xF0 then Lead 3 0x80 0xBF
  else if b =? 0xF0 then Lead 4 0x90 0xBF
  else if b <? 0xF4 then Lead 4 0x80 0xBF
  else if b =? 0xF4 then Lead 4 0x80 0x8F
  else XX.

Definition locb : N := 0x80.
Definition hicb : N := 0xBF.
Definition maskx : N := 0x3F.
Definition mask2 : N := 0x1F.
Definition mask3 : N := 0x0F.
Definition mask4 : N := 0x07.

(** [utf8.DecodeRuneInString]: the first rune of [s] and its width in
    bytes; [(RuneError, 1)] on an invalid or short sequence. *)
Definition DecodeRuneInString (s : gostring) : N * nat :=
  match s with
  | [] => (RuneError, 0%nat)
  | c0 :: t0 =>
      let s0 := byteval c0 in
      match first s0 with
      | AS => (s0, 1%nat)
      | XX => (RuneError, 1%nat)
      | Lead sz lo hi =>
          if (length s <? sz)%nat then (RuneError, 1%nat) else
          match t0 with
          | [] => (RuneError, 1%nat)
          | c1 :: t1 =>
              let s1 := byteval c1 in
              if (s1 <? lo) || (hi <? s1) then (RuneError, 1%nat)
              else if (sz <=? 2)%nat then
                (N.lor (N.shiftl (N.land s0 mask2) 6) (N.land s1 maskx), 2%nat)
              else
              match t1 with
              | [] => (RuneError, 1%nat)
              | c2 :: t2 =>
                  let s2 := byteval c2 in
                  if (s2 <? locb) || (hicb <? s2) then (RuneError, 1%nat)
                  else if (sz <=? 3)%nat then
                    (N.lor (N.lor (N.shiftl (N.land s0 mask3) 12)
                                  (N.shiftl (N.land s1 maskx) 6))
                           (N.land s2 maskx), 3%nat)
                  else
                  match t2 with
                  | [] => (RuneError, 1%nat)
                  | c3 :: _ =>
                      let s3 := byteval c3 in
                      if (s3 <? locb) || (hicb <? s3) then (RuneError, 1%nat)
                      else
                        (N.lor (N.lor (N.lor (N.shiftl (N.land s0 mask4) 18)
                                             (N.shiftl (N.land s1 maskx) 12))
                                      (N.shiftl (N.land s2 maskx) 6))
                               (N.land s3 maskx), 4%nat)
                  end
              end
          end
      end
  end.

(** [utf8.RuneStart]: the byte is not a continuation byte. *)
Definition RuneStart (b : ascii) : bool :=
  negb (N.land (byteval b) 0xC0 =? 0x80).

(** The backwards scan of [DecodeLastRuneInString]:
    [for start--; start >= lim; start-- { if RuneStart(s[start]) { break } }]
    entered after the first decrement, [start] being the index under
    test.  It is called with [UTFMax] turns, which is enough (lemma
    [scanStart_UTFMax]). *)
Fixpoint scanStart (fuel : nat) (s : gostring) (start lim : Z) : Z :=
  match fuel with
  | O => start
  | S fuel' =>
      if (start <? lim)%Z then start
      else match s !! Z.to_nat start with
           | Some b => if RuneStart b then start
                       else scanStart fuel' s (start - 1)%Z lim
           | None => start
           end
  end.

(** [utf8.DecodeLastRuneInString]. *)
Definition DecodeLastRuneInString (s : gostring) : N * nat :=
  let end_ := length s in
  match last s with
  | None => (RuneError, 0%nat)
  | Some c =>
      if byteval c <? RuneSelf then (byteval c, 1%nat)
      else
        let lim := Z.max 0 (Z.of_nat end_ - Z.of_nat UTFMax)%Z in
        let start := scanStart UTFMax s (Z.of_nat end_ - 2)%Z lim in
        let start := Z.to_nat (Z.max 0 start) in
        let '(r, size) := DecodeRuneInString (slice s start end_) in
        if (start + size =? end_)%nat then (r, size) else (RuneError, 1%nat)
  end.

(** [utf8.RuneCountInString]: the number of runes (characters) of [s],
    an invalid byte counting as one rune.  A rune takes at least one
    byte, so [length s] turns are enough (lemma [runeCountFrom_fuel]). *)
Fixpoint runeCountFrom (fuel : nat) (s : gostring) : nat :=
  match fuel with
  | O => 0%nat
  | S fuel' =>
      match s with
      | [] => 0%nat
      | _ => S (runeCountFrom fuel' (drop (snd (DecodeRuneInString s)) s))
      end
  end.

Definition RuneCountInString (s : gostring) : nat := runeCountFrom (length s) s.

End utf8.

(** ** Package [unicode] *)
Module unicode.

Definition MaxLatin1 : N := 0xFF.

(** The White_Space property above Latin-1. *)
Definition White_Space_excludingLatin (r : N) : bool :=
  (r =? 0x1680) || ((0x2000 <=? r) && (r <=? 0x200A)) ||
  (r =? 0x2028) || (r =? 0x2029) || (r =? 0x202F) || (r =? 0x205F) ||
  (r =? 0x3000).

(** [unicode.IsSpace]. *)
Definition IsSpace (r : N) : bool :=
  if r <=? MaxLatin1 then
    (r =? 9) || (r =? 10) || (r =? 11) || (r =? 12) || (r =? 13) ||
    (r =? 32) || (r =? 0x85) || (r =? 0xA0)
  else White_Space_excludingLatin r.

End unicode.

(** ** Case mappings that depend on the Unicode tables

    [strings.ToLower] and [cases.Title(language.Und)] treat a string of
    ASCII bytes by the rules written out below.  On any other string
    their result is read off the Unicode case and word-break tables,
    which are no part of this repository: those results are the two
    fields of [CaseTables], and every statement below holds whatever
    they are. *)
Class CaseTables := {
  (** [strings.Map(unicode.ToLower, s)] for [s] not pure ASCII. *)
  mapToLower : gostring → gostring;
  (** [cases.Title(language.Und).String(s)] for [s] not pure ASCII. *)
  titleUnd : gostring → gostring
}.

(** The tables that leave such strings as they are: enough to run the
    converter on ASCII input, where the tables are never consulted. *)
Definition noCaseTables : CaseTables :=
  {| mapToLower := λ s, s; titleUnd := λ s, s |}.

(** ** Package [strings] *)
Module strings.

(** The loop of [lastIndexFunc]:
    [for i := len(s); i > 0; { r, size := DecodeLastRuneInString(s[0:i]);
       i -= size; if f(r) == truth { return i } }; return -1].
    Every turn lowers [i] by at least one, so [fuel = i] turns suffice
    (lemma [lastIndexFrom_fuel]). *)
Fixpoint lastIndexFrom (fuel : nat) (s : gostring) (f : N → bool)
    (truth : bool) (i : nat) : Z :=
  match fuel with
  | O => (-1)%Z
  | S fuel' =>
      if (i =? 0)%nat then (-1)%Z
      else
        let '(r, size) := utf8.DecodeLastRuneInString (take i s) in
        let i' := (i - size)%nat in
        if Bool.eqb (f r) truth then Z.of_nat i'
        else lastIndexFrom fuel' s f truth i'
  end.

Definition lastIndexFunc (s : gostring) (f : N → bool) (truth : bool) : Z :=
  lastIndexFrom (length s) s f truth (length s).

(** [strings.TrimRightFunc]: [s] without its trailing runes that
    satisfy [f]. *)
Definition TrimRightFunc (s : gostring) (f : N → bool) : gostring :=
  let i := lastIndexFunc s f false in
  let i :=
    if (0 <=? i)%Z && (utf8.RuneSelf <=? default 0 (byteval <$> s !! Z.to_nat i))
    then (i + Z.of_nat (snd (utf8.DecodeRuneInString (drop (Z.to_nat i) s))))%Z
    else (i + 1)%Z in
  take (Z.to_nat i) s.

(** A [strings.Replacer] whose old and new strings are all one byte
    long (Go's [byteReplacer]): pairs [(old, new)], the first pair of a
    byte winning. *)
Definition Replacer := list (ascii * ascii).

Definition NewReplacer (oldnew : list (ascii * ascii)) : Replacer := oldnew.

Fixpoint replaceByte (r : Replacer) (b : ascii) : ascii :=
  match r with
  | [] => b
  | (old, new) :: r' => if Ascii.eqb b old then new else replaceByte r' b
  end.

Definition Replace (r : Replacer) (s : gostring) : gostring :=
  map (replaceByte r) s.

(** [strings.Split] by a separator of one byte: the pieces between the
    separators, one more than there are separators. *)
Fixpoint Split (s : gostring) (sep : ascii) : list gostring :=
  match s with
  | [] => [[]]
  | c :: s' =>
      if Ascii.eqb c sep then [] :: Split s' sep
      else match Split s' sep with
           | piece :: pieces => (c :: piece) :: pieces
           | [] => [[c]]
           end
  end.

(** [strings.Join]. *)
Fixpoint Join (elems : list gostring) (sep : gostring) : gostring :=
  match elems with
  | [] => []
  | [e] => e
  | e :: elems' => e ++ sep ++ Join elems' sep
  end.

Definition isASCII (s : gostring) : bool :=
  forallb (λ c, byteval c <? utf8.RuneSelf) s.

Definition isUpperASCII (c : ascii) : bool :=
  (65 <=? byteval c) && (byteval c <=? 90).

Definition isLowerASCII (c : ascii) : bool :=
  (97 <=? byteval c) && (byteval c <=? 122).

Definition lowerByte (c : ascii) : ascii :=
  if isUpperASCII c then ascii_of_N (byteval c + 32) else c.

Definition upperByte (c : ascii) : ascii :=
  if isLowerASCII c then ascii_of_N (byteval c - 32) else c.

(** [strings.ToLower]: Go lowers an ASCII string byte by byte and maps
    [unicode.ToLower] over the runes of any other. *)
Definition ToLower `{CaseTables} (s : gostring) : gostring :=
  if isASCII s then map lowerByte s else mapToLower s.

End strings.

(** ** Package [golang.org/x/text/cases] *)
Module cases.

(** The properties of an ASCII character that the title caser reads:
    cased (a letter), a mid-word character (apostrophe, full stop,
    colon), or a word break (neither a letter, a digit, the underscore
    nor a mid-word character). *)
Definition isCased (c : ascii) : bool :=
  strings.isUpperASCII c || strings.isLowerASCII c.

Definition isMid (c : ascii) : bool :=
  (byteval c =? 39) || (byteval c =? 46) || (byteval c =? 58).

Definition isDigit (c : ascii) : bool :=
  (48 <=? byteval c) && (byteval c <=? 57).

Definition isBreak (c : ascii) : bool :=
  negb (isCased c || isDigit c || (byteval c =? 95) || isMid c).

(** [titleCaser.Transform] on ASCII text.  [isMidWord] tells that a
    word has begun; [wasMid] that the previous character was a
    mid-word character.  A cased character is upper-cased at the start
    of a word and lower-cased inside one; every other character is
    copied, a break ending the word, as do two mid-word characters in
    a row. *)
Fixpoint titleFrom (isMidWord wasMid : bool) (s : gostring) : gostring :=
  match s with
  | [] => []
  | c :: s' =>
      let isMidWord := if wasMid && isMid c then false else isMidWord in
      if isCased c then
        if negb isMidWord then strings.upperByte c :: titleFrom true (isMid c) s'
        else strings.lowerByte c :: titleFrom isMidWord (isMid c) s'
      else
        c :: titleFrom (if isBreak c then false else isMidWord) (isMid c) s'
  end.

(** [cases.Title(language.Und).String]. *)
Definition Title_String `{CaseTables} (s : gostring) : gostring :=
  if strings.isASCII s then titleFrom false false s else titleUnd s.

End cases.

(** ** Package [regexp]

    The two patterns of the converter use literals, character classes,
    [x+] and [x+?] over a single character, named groups and the anchors
    [^] and [$] (without flags: beginning and end of the text).  [run]
    gives every way a pattern matches at a position, in the order in
    which a backtracking matcher tries them; Go's leftmost-first match
    is the first of them at the leftmost position that has one.

    The matcher steps over bytes where Go's steps over runes.  Both
    patterns bound their groups by ASCII characters, which in UTF-8 are
    never part of a longer sequence, and [.] accepts every rune but the
    line feed, so the groups found are the same. *)
Module regexp.

Inductive Regexp :=
| CharClass (p : ascii → bool)
| Concat (r1 r2 : Regexp)
| Plus (greedy : bool) (p : ascii → bool)
| Capture (index : nat) (name : gostring) (r : Regexp)
| BeginText
| EndText.

(** A literal character. *)
Definition lit (c : ascii) : ascii → bool := λ b, Ascii.eqb b c.

(** [.]: any character but the line feed. *)
Definition anyCharNotNL : ascii → bool := λ b, negb (Ascii.eqb b LF).

(** [\s]: the Perl class [[\t\n\f\r ]]. *)
Definition perlSpace : ascii → bool := λ b,
  let n := byteval b in
  (n =? 9) || (n =? 10) || (n =? 12) || (n =? 13) || (n =? 32).

(** [[0-9]]. *)
Definition digit : ascii → bool := λ b,
  (48 <=? byteval b) && (byteval b <=? 57).

(** A thread of the matcher: the position reached, the text left and
    the bounds of the groups closed so far. *)
Record thread := Thread {
  pos : nat;
  rest : gostring;
  caps : list (option (nat * nat))
}.

Definition advance (t : thread) (j : nat) : thread :=
  Thread (pos t + j) (drop j (rest t)) (caps t).

(** The number of leading characters of [s] in the class [p]. *)
Fixpoint prefixLen (p : ascii → bool) (s : gostring) : nat :=
  match s with
  | c :: s' => if p c then S (prefixLen p s') else 0%nat
  | [] => 0%nat
  end.

(** The lengths [x+] tries: greedy from the longest, lazy from the
    shortest. *)
Definition spans (greedy : bool) (n : nat) : list nat :=
  if greedy then rev (seq 1 n) else seq 1 n.

Fixpoint run (r : Regexp) (t : thread) : list thread :=
  match r with
  | CharClass p =>
      match rest t with
      | c :: _ => if p c then [advance t 1] else []
      | [] => []
      end
  | Concat r1 r2 => flat_map (run r2) (run r1 t)
  | Plus greedy p => map (advance t) (spans greedy (prefixLen p (rest t)))
  | Capture i _ r' =>
      map (λ t', Thread (pos t') (rest t') (<[i := Some (pos t, pos t')]> (caps t')))
          (run r' t)
  | BeginText => if (pos t =? 0)%nat then [t] else []
  | EndText => match rest t with [] => [t] | _ :: _ => [] end
  end.

Fixpoint NumSubexp (r : Regexp) : nat :=
  match r with
  | Concat r1 r2 => Nat.max (NumSubexp r1) (NumSubexp r2)
  | Capture i _ r' => Nat.max i (NumSubexp r')
  | _ => 0%nat
  end.

(** The index of the first group called [name]. *)
Fixpoint findSubexp (r : Regexp) (name : gostring) : option nat :=
  match r with
  | Concat r1 r2 =>
      match findSubexp r1 name with
      | Some i => Some i
      | None => findSubexp r2 name
      end
  | Capture i n r' => if decide (n = name) then Some i else findSubexp r' name
  | _ => None
  end.

(** [Regexp.SubexpIndex]: [-1] when no group has the name. *)
Definition SubexpIndex (r : Regexp) (name : gostring) : Z :=
  match findSubexp r name with
  | Some i => Z.of_nat i
  | None => (-1)%Z
  end.

(** The leftmost position from [pos] on at which [re] matches, with
    the first thread there. *)
Fixpoint search (re : Regexp) (ncap : nat) (pos : nat) (rest : gostring)
    : option (nat * thread) :=
  match run re (Thread pos rest (replicate ncap None)) with
  | t :: _ => Some (pos, t)
  | [] =>
      match rest with
      | [] => None
      | _ :: rest' => search re ncap (S pos) rest'
      end
  end.

Definition group (s : gostring) (c : option (nat * nat)) : gostring :=
  match c with
  | Some (a, b) => slice s a b
  | None => []
  end.

(** [Regexp.FindStringSubmatch]: the match and its groups, or the
    nil slice. *)
Definition FindStringSubmatch (re : Regexp) (s : gostring) : list gostring :=
  match search re (S (NumSubexp re)) 0 s with
  | None => []
  | Some (start, t) => slice s start (pos t) :: map (group s) (drop 1 (caps t))
  end.

End regexp.

(** ** Outcomes of running Go code

    [Done a]: the code returned [a]; [Panic]: a run-time panic or a
    fatal error of the runtime, the program stops with the message;
    [OutOfFuel]: the model of a loop was given too few turns. *)
Inductive exec (A : Type) : Type :=
| Done (a : A)
| Panic (msg : gostring)
| OutOfFuel.
Arguments Done {A} a.
Arguments Panic {A} msg.
Arguments OutOfFuel {A}.

#[global] Instance exec_ret : MRet exec := λ A a, Done a.
#[global] Instance exec_bind : MBind exec := λ A B f m,
  match m with
  | Done a => f a
  | Panic msg => Panic msg
  | OutOfFuel => OutOfFuel
  end.

(** [s[i]] on a slice: a panic when [i] is out of range. *)
Definition index {A} (s : list A) (i : Z) : exec A :=
  if (i <? 0)%Z then Panic (bytes "index out of range")
  else match s !! Z.to_nat i with
       | Some x => Done x
       | None => Panic (bytes "index out of range")
       end.

(** Go's [error]: the message given to [errors.New]. *)
Definition error := gostring.

Module errors.
Definition New (text : string) : error := bytes text.
End errors.

(** ** The Go runtime

    [make(chan []string, n)] returns a channel, or the program stops:
    with the panic [makechan: size out of range] when [n] is negative
    or the buffer of [n] elements is more than the runtime can address,
    with a fatal error when the machine has not the memory for it.
    Which capacities the machine accepts is no part of this repository:
    [makechan n] is [None] when the channel is made, and otherwise the
    message the program stops with. *)
Class Runtime := {
  makechan : Z → option gostring;
  makechan_negative :
    ∀ n : Z, (n < 0)%Z → makechan n = Some (bytes "makechan: size out of range")
}.

(** The runtime of a 64-bit platform with memory enough: [makechan]
    checks that the buffer, of 24 bytes for each [[]string], and the 96
    bytes of the channel itself stay below [maxAlloc], which is 2^48. *)
Definition runtime64 : Runtime.
Proof.
  refine {| makechan := λ n,
              if ((n <? 0) || (2 ^ 48 - 96 <? 24 * n))%Z
              then Some (bytes "makechan: size out of range") else None |}.
  intros n Hn. by destruct (Z.ltb_spec n 0); [|lia].
Defined.

(** ** Package [encoding/json], for the values the converter stores *)
Module json.

(** What the converter puts in its [map[string]interface{}]: a string
    or a slice of strings. *)
Inductive interface :=
| IString (s : gostring)
| IStrings (l : list gostring).

Definition hex (n : N) : ascii :=
  nth (N.to_nat n) (bytes "0123456789abcdef") SP.

(** [htmlSafeSet]: the ASCII characters written as they are. *)
Definition htmlSafe (b : N) : bool :=
  (0x20 <=? b) && (b <? 0x80) &&
  negb ((b =? 34) || (b =? 38) || (b =? 60) || (b =? 62) || (b =? 92)).

Definition escapeByte (c : ascii) : gostring :=
  let b := byteval c in
  if (b =? 92) || (b =? 34) then [ascii_of_N 92; c]
  else if b =? 10 then bytes "\n"
  else if b =? 13 then bytes "\r"
  else if b =? 9 then bytes "\t"
  else bytes "\u00" ++ [hex (N.shiftr b 4); hex (N.land b 0xF)].

(** The loop of [encodeState.string], with HTML escaping on as
    [Marshal] sets it: safe ASCII and valid UTF-8 are copied, the rest
    is escaped, an invalid byte becoming the escape of U+FFFD.  The
    bytes 8 and 12 are written [\u0008] and [\u000c], as the releases
    of Go before 1.22 do (later ones write [\b] and [\f]).  Every turn
    takes at least one byte, so [length s] turns are enough (lemma
    [encodeFrom_fuel]). *)
Fixpoint encodeFrom (fuel : nat) (s : gostring) : gostring :=
  match fuel with
  | O => []
  | S fuel' =>
      match s with
      | [] => []
      | c :: s' =>
          if byteval c <? utf8.RuneSelf then
            (if htmlSafe (byteval c) then [c] else escapeByte c)
              ++ encodeFrom fuel' s'
          else
            let '(r, size) := utf8.DecodeRuneInString s in
            if (r =? utf8.RuneError) && (size =? 1)%nat then
              bytes "\ufffd" ++ encodeFrom fuel' s'
            else if (r =? 0x2028) || (r =? 0x2029) then
              bytes "\u202" ++ [hex (N.land r 0xF)] ++ encodeFrom fuel' (drop size s)
            else take size s ++ encodeFrom fuel' (drop size s)
      end
  end.

Definition encodeString (s : gostring) : gostring :=
  [QUOTE] ++ encodeFrom (length s) s ++ [QUOTE].

Definition encodeValue (v : interface) : gostring :=
  match v with
  | IString s => encodeString s
  | IStrings l => bytes "[" ++ strings.Join (map encodeString l) (bytes ",") ++ bytes "]"
  end.

(** The keys of a map are written in increasing order. *)
Fixpoint insertSorted (kv : gostring * interface) (l : list (gostring * interface))
    : list (gostring * interface) :=
  match l with
  | [] => [kv]
  | kv' :: l' =>
      if string_ltb (fst kv') (fst kv) then kv' :: insertSorted kv l'
      else kv :: l
  end.

Definition sortedEntries (m : gmap gostring interface) : list (gostring * interface) :=
  foldr insertSorted [] (map_to_list m).

Definition encodeEntry (kv : gostring * interface) : gostring :=
  encodeString (fst kv) ++ bytes ":" ++ encodeValue (snd kv).

(** [json.Marshal] of the converter's map.  Strings and slices of
    strings always encode: the error is [nil]. *)
Definition Marshal (m : gmap gostring interface) : gostring * option error :=
  (bytes "{" ++ strings.Join (map encodeEntry (sortedEntries m)) (bytes ",") ++ bytes "}",
   None).

End json.

(** ** Package [bufio] *)
Module bufio.

(** A reader over a file: the bytes the file yields before its end. *)
Definition Reader := gostring.

Definition NewReader (file : gostring) : Reader := file.

Definition EOF : error := errors.New "EOF".

(** [Reader.ReadString]: the bytes up to and including the first
    [delim], and what is left to read; at the end of the file, the
    bytes read so far together with [EOF]. *)
Fixpoint ReadString (r : Reader) (delim : ascii) : gostring * option error * Reader :=
  match r with
  | [] => ([], Some EOF, [])
  | c :: r' =>
      if Ascii.eqb c delim then ([c], None, r')
      else let '(l, e, r'') := ReadString r' delim in (c :: l, e, r'')
  end.

End bufio.

(** ** Package [conv]: [header.go] *)

(** [type Format int]. *)
Definition Format := Z.
Definition JsonFormat : Format := 0%Z.

Definition Format_String (f : Format) : gostring :=
  if (f =? JsonFormat)%Z then bytes "json" else [].

(** [rawHeader] is the content of the file the converter reads,
    [numWorker] the capacity of its channels. *)
Record HttpHeaderConverter := {
  rawHeader : gostring;
  outputFormat : Format;
  numWorker : Z
}.

Definition SetRawHeader (conv : HttpHeaderConverter) (rawHeader : gostring) :=
  {| rawHeader := rawHeader; outputFormat := outputFormat conv; numWorker := numWorker conv |}.

Definition SetOutputFormat (conv : HttpHeaderConverter) (outputFormat : Format) :=
  {| rawHeader := rawHeader conv; outputFormat := outputFormat; numWorker := numWorker conv |}.

Definition SetNumWorker (conv : HttpHeaderConverter) (numWorker : Z) :=
  {| rawHeader := rawHeader conv; outputFormat := outputFormat conv; numWorker := numWorker |}.

(** [NewHttpHeaderConverter], given what [os.Stdin] yields and the value
    of [runtime.NumCPU()]. *)
Definition NewHttpHeaderConverter (stdin : gostring) (numCPU : Z) : HttpHeaderConverter :=
  let conv := {| rawHeader := []; outputFormat := 0%Z; numWorker := 0%Z |} in
  let conv := SetRawHeader conv stdin in
  let conv := SetOutputFormat conv JsonFormat in
  let maxCpu := numCPU in
  SetNumWorker conv maxCpu.

Definition keyReplacer : strings.Replacer :=
  strings.NewReplacer [("-"%char, " "%char); ("/"%char, " "%char)].

(** [createJsonKey]. *)
Definition createJsonKey `{CaseTables} (conv : HttpHeaderConverter) (key : gostring)
    : exec (gostring * option error) :=
  let t := strings.Replace keyReplacer key in
  let t := cases.Title_String t in
  let tl := strings.Split t " "%char in
  tl0 ← index tl 0;
  let tl := <[0%nat := strings.ToLower tl0]> tl in
  let t := strings.Join tl [] in
  Done (t, None).

(** [^(?P<key>.+?):\s+(?P<value>.+)$] *)
Definition pairPattern : regexp.Regexp :=
  regexp.Concat regexp.BeginText
  (regexp.Concat (regexp.Capture 1 (bytes "key") (regexp.Plus false regexp.anyCharNotNL))
  (regexp.Concat (regexp.CharClass (regexp.lit ":"%char))
  (regexp.Concat (regexp.Plus true regexp.perlSpace)
  (regexp.Concat (regexp.Capture 2 (bytes "value") (regexp.Plus true regexp.anyCharNotNL))
   regexp.EndText)))).
Definition pairKeyIndex : Z := regexp.SubexpIndex pairPattern (bytes "key").
Definition pairValueIndex : Z := regexp.SubexpIndex pairPattern (bytes "value").

(** A channel of [[]string], seen from its only receiver: what has been
    sent, in order. *)
Definition chan := list (list gostring).

Definition send (stream : chan) (item : list gostring) : chan := stream ++ [item].

(** [parsePair]: the channel after the call, and the error returned. *)
Definition parsePair `{CaseTables} (conv : HttpHeaderConverter) (line : gostring)
    (stream : chan) : exec (chan * option error) :=
  if (length line <? 1)%nat then Panic (bytes "slice bounds out of range")
  else if decide (slice line 0 1 = bytes " ") then
    Done (stream, Some (errors.New "not pair string"))
  else
    let g := regexp.FindStringSubmatch pairPattern line in
    if negb (length g =? 3)%nat then Done (stream, Some (errors.New "cannot parse"))
    else
      k ← index g pairKeyIndex;
      v ← index g pairValueIndex;
      '(k, e) ← (if (outputFormat conv =? JsonFormat)%Z then createJsonKey conv k
                  else Done (k, None));
      match e with
      | Some _ => Done (stream, Some (errors.New "cannot convert JSON key"))
      | None =>
          let kv := [k; v] in
          Done (send stream kv, None)
      end.

(** [(?P<code>[0-9]{3})\s(?P<message>.+)$] *)
Definition statusPattern : regexp.Regexp :=
  regexp.Concat
    (regexp.Capture 1 (bytes "code")
       (regexp.Concat (regexp.CharClass regexp.digit)
       (regexp.Concat (regexp.CharClass regexp.digit) (regexp.CharClass regexp.digit))))
  (regexp.Concat (regexp.CharClass regexp.perlSpace)
  (regexp.Concat (regexp.Capture 2 (bytes "message") (regexp.Plus true regexp.anyCharNotNL))
   regexp.EndText)).
Definition statusCodeIndex : Z := regexp.SubexpIndex statusPattern (bytes "code").
Definition statusMessageIndex : Z := regexp.SubexpIndex statusPattern (bytes "message").

(** [parseStatus] (the call of [log.Println] writes to the log only). *)
Definition parseStatus (conv : HttpHeaderConverter) (line : gostring) (stream : chan)
    : exec (chan * option error) :=
  let g := regexp.FindStringSubmatch statusPattern line in
  if negb (length g =? 3)%nat then Done (stream, Some (errors.New "cannot parse"))
  else
    v ← index g statusCodeIndex;
    let k := if (outputFormat conv =? JsonFormat)%Z then bytes "code" else bytes "Code" in
    let kv := [k; v] in
    Done (send stream kv, None).

(** The loop of the goroutine that [createSenders] starts, one turn per
    call of [ReadString]; [f] is its flag, the two channels are what it
    has sent so far. *)
Fixpoint sendLoop `{CaseTables} (fuel : nat) (conv : HttpHeaderConverter)
    (reader : bufio.Reader) (f : bool) (convertedStream notConvertedStream : chan)
    : exec (chan * chan) :=
  match fuel with
  | O => OutOfFuel
  | S fuel' =>
      let '(l, e, reader) := bufio.ReadString reader LF in
      match e with
      | Some _ => Done (convertedStream, notConvertedStream)
      | None =>
          let l := strings.TrimRightFunc l unicode.IsSpace in
          if (length l <? 4)%nat then
            sendLoop fuel' conv reader f convertedStream notConvertedStream
          else
            '(convertedStream, isStatus) ←
              ((if f then
                 '(stream, e) ← parseStatus conv l convertedStream;
                 Done (stream, match e with None => true | Some _ => false end)
               else Done (convertedStream, false)) : exec (chan * bool));
            if (isStatus : bool) then
              sendLoop fuel' conv reader false convertedStream notConvertedStream
            else
              '(convertedStream, e) ← parsePair conv l convertedStream;
              match e with
              | None => sendLoop fuel' conv reader false convertedStream notConvertedStream
              | Some _ =>
                  sendLoop fuel' conv reader false convertedStream
                           (send notConvertedStream [l])
              end
      end
  end.

(** [createSenders]: the two channels as their receivers see them until
    they are closed.  The two calls of [make] ask for the same capacity,
    [numWorker]: the program stops at the first when the runtime does
    not make a channel of that capacity.  The loop reads at least one
    byte per turn, so one turn more than there are bytes ends it. *)
Definition createSenders `{CaseTables} `{Runtime} (conv : HttpHeaderConverter)
    (reader : bufio.Reader) : exec (chan * chan * option error) :=
  match makechan (numWorker conv) with
  | Some msg => Panic msg
  | None =>
      '(convertedStream, notConvertedStream) ←
        sendLoop (S (length reader)) conv reader true [] [];
      Done (convertedStream, notConvertedStream, None)
  end.

(** The receiver of the converted stream: [converted[s[0]] = s[1]] for
    every [s] received. *)
Fixpoint receiveConverted (stream : chan) (converted : gmap gostring json.interface)
    : exec (gmap gostring json.interface) :=
  match stream with
  | [] => Done converted
  | s :: stream' =>
      k ← index s 0;
      v ← index s 1;
      receiveConverted stream' (<[k := json.IString v]> converted)
  end.

(** The receiver of the other stream:
    [notConveted = append(notConveted, s[0])]. *)
Fixpoint receiveNotConverted (stream : chan) (notConveted : list gostring)
    : exec (list gostring) :=
  match stream with
  | [] => Done notConveted
  | s :: stream' =>
      x ← index s 0;
      receiveNotConverted stream' (notConveted ++ [x])
  end.

(** [convert].  Each channel has one sender and one receiver, each
    receiver owns what it writes, and [wg.Wait()] returns when both have
    seen their channel closed: what [convert] returns is what the two
    receivers make of the two sequences (the part on the goroutines
    proves it of every interleaving of the three).  The duration it
    measures goes to the log and is left out. *)
Definition convert `{CaseTables} `{Runtime} (conv : HttpHeaderConverter)
    : exec (gmap gostring json.interface * list gostring * option error) :=
  let r := bufio.NewReader (rawHeader conv) in
  '(convetedStream, notConvertedStream, _) ← createSenders conv r;
  converted ← receiveConverted convetedStream ∅;
  notConveted ← receiveNotConverted notConvertedStream [];
  Done (converted, notConveted, None).

(** [Output], over the serializer it calls. *)
Definition OutputWith `{CaseTables} `{Runtime}
    (marshal : gmap gostring json.interface → gostring * option error)
    (conv : HttpHeaderConverter) : exec (gostring * option error) :=
  '(converted, notConverted, e) ← convert conv;
  match e with
  | Some e => Done ([], Some e)
  | None =>
      let converted :=
        if (0 <? length notConverted)%nat then
          let k := if (outputFormat conv =? JsonFormat)%Z then bytes "raw" else bytes "Raw" in
          <[k := json.IStrings notConverted]> converted
        else converted in
      let '(t, _) := marshal converted in
      let resp := t in
      Done (resp, None)
  end.

(** [Output]. *)
Definition Output `{CaseTables} `{Runtime} (conv : HttpHeaderConverter) : exec (gostring * option error) :=
  OutputWith json.Marshal conv.

(** [main]: the exit status and what is printed on the standard
    output, given what the standard input yields and the number of
    CPUs. *)
Definition main `{CaseTables} `{Runtime} (stdin : gostring) (numCPU : Z) : exec (Z * gostring) :=
  let c := NewHttpHeaderConverter stdin numCPU in
  '(r, e) ← Output c;
  match e with
  | Some _ => Done (1%Z, [])
  | None => Done (0%Z, r ++ [LF])
  end.

(** ** The converter as functions of its input *)

(** The key that [createJsonKey] computes. *)
Definition jsonKey `{CaseTables} (key : gostring) : gostring :=
  let tl := strings.Split (cases.Title_String (strings.Replace keyReplacer key)) " "%char in
  strings.Join (<[0%nat := strings.ToLower (default [] (head tl))]> tl) [].

(** The key of a pair record in the converter's output format. *)
Definition recordKey `{CaseTables} (conv : HttpHeaderConverter) (key : gostring) : gostring :=
  if (outputFormat conv =? JsonFormat)%Z then jsonKey key else key.

(** The record [parseStatus] sends for a line, if it sends one. *)
Definition statusRecord (conv : HttpHeaderConverter) (line : gostring) : option (list gostring) :=
  match regexp.FindStringSubmatch statusPattern line with
  | [_; code; _] =>
      Some [if (outputFormat conv =? JsonFormat)%Z then bytes "code" else bytes "Code"; code]
  | _ => None
  end.

(** The record [parsePair] sends for a line, if it sends one. *)
Definition pairRecord `{CaseTables} (conv : HttpHeaderConverter) (line : gostring)
    : option (list gostring) :=
  if decide (head line = Some " "%char) then None
  else match regexp.FindStringSubmatch pairPattern line with
       | [_; key; value] => Some [recordKey conv key; value]
       | _ => None
       end.

(** What one turn of the loop does with a retained line: the record it
    sends on the converted stream, or [None] when the line goes to the
    other stream.  [f] is the loop's flag. *)
Definition classOf `{CaseTables} (conv : HttpHeaderConverter) (f : bool) (line : gostring)
    : option (list gostring) :=
  match (if f then statusRecord conv line else None) with
  | Some r => Some r
  | None => pairRecord conv line
  end.

(** The two streams that a list of retained lines produces. *)
Fixpoint streams `{CaseTables} (conv : HttpHeaderConverter) (f : bool) (lines : list gostring)
    : chan * chan :=
  match lines with
  | [] => ([], [])
  | l :: lines' =>
      let '(cs, ncs) := streams conv false lines' in
      match classOf conv f l with
      | Some r => (r :: cs, ncs)
      | None => (cs, [l] :: ncs)
      end
  end.

(** The lines of the input that end in a line feed, without it, and the
    unterminated rest. *)
Fixpoint splitLines (s : gostring) : list gostring * gostring :=
  match s with
  | [] => ([], [])
  | c :: s' =>
      let '(ls, rest) := splitLines s' in
      if Ascii.eqb c LF then ([] :: ls, rest)
      else match ls with
           | l :: ls' => ((c :: l) :: ls', rest)
           | [] => ([], c :: rest)
           end
  end.

(** A line as the loop sees it after trimming. *)
Definition trimLine (l : gostring) : gostring :=
  strings.TrimRightFunc (l ++ [LF]) unicode.IsSpace.

(** The lines the loop retains: trimmed, and at least four bytes long. *)
Definition retainedLines (input : gostring) : list gostring :=
  filter (λ l, 4 ≤ length l)%nat (trimLine <$> (splitLines input).1).

(** The error [parsePair] returns for a line it does not send. *)
Definition pairError (line : gostring) : error :=
  if decide (head line = Some " "%char) then errors.New "not pair string"
  else errors.New "cannot parse".

(** What the receiver of the converted stream does with one item. *)
Definition insertRecord (m : gmap gostring json.interface) (s : list gostring)
    : gmap gostring json.interface :=
  match s with
  | k :: v :: _ => <[k := json.IString v]> m
  | _ => m
  end.

(** The records and the unconverted lines of a converter's input, and
    the two values [convert] builds from them. *)
Definition recordsOf `{CaseTables} (conv : HttpHeaderConverter) : chan :=
  (streams conv true (retainedLines (rawHeader conv))).1.

Definition rawLinesOf `{CaseTables} (conv : HttpHeaderConverter) : list gostring :=
  concat (streams conv true (retainedLines (rawHeader conv))).2.

Definition convertedOf `{CaseTables} (conv : HttpHeaderConverter)
    : gmap gostring json.interface :=
  foldl insertRecord ∅ (recordsOf conv).

(** The mapping [Output] hands to the serializer. *)
Definition finalMapping `{CaseTables} (conv : HttpHeaderConverter)
    : gmap gostring json.interface :=
  if (0 <? length (rawLinesOf conv))%nat then
    <[(if (outputFormat conv =? JsonFormat)%Z then bytes "raw" else bytes "Raw")
      := json.IStrings (rawLinesOf conv)]> (convertedOf conv)
  else convertedOf conv.

(** ** The goroutines of [convert]

    [createSenders] starts one goroutine that sends on two channels of
    capacity [numWorker] and closes them when it returns; [convert]
    starts one receiver per channel and waits for both.  A state of the
    three goroutines: what the sender has still to do, and for each
    channel its buffer, whether it is closed, what its receiver has
    built and whether the receiver has returned. *)

Inductive target := ToConverted | ToNotConverted.

Inductive action :=
| Send (t : target) (item : list gostring)
| Close (t : target).

#[global] Instance target_eq_dec : EqDecision target.
Proof. solve_decision. Defined.

(** The sender's actions for the sends [tr] of its loop: the deferred
    calls of [close] run last, in reverse order. *)
Definition program (tr : list (target * list gostring)) : list action :=
  map (λ e, Send e.1 e.2) tr ++ [Close ToNotConverted; Close ToConverted].

(** The items an action list sends on a channel. *)
Fixpoint sendsTo (t : target) (p : list action) : chan :=
  match p with
  | [] => []
  | Send t' x :: p' => if decide (t' = t) then x :: sendsTo t p' else sendsTo t p'
  | Close _ :: p' => sendsTo t p'
  end.

(** What the receiver of the other stream does with one item. *)
Definition appendRaw (l : list gostring) (s : list gostring) : list gostring :=
  match s with
  | x :: _ => l ++ [x]
  | [] => l
  end.

Record pipeline := Pipeline {
  sender : list action;
  bufC : chan; closedC : bool; accC : gmap gostring json.interface; doneC : bool;
  bufN : chan; closedN : bool; accN : list gostring; doneN : bool
}.

Definition start (tr : list (target * list gostring)) : pipeline :=
  Pipeline (program tr) [] false ∅ false [] false [] false.

(** [wg.Wait()] returns. *)
Definition finished (s : pipeline) : Prop := doneC s = true ∧ doneN s = true.

(** One step of one goroutine, the channels having capacity [cap]: a
    send into a buffer with room, a send handed to the receiver waiting
    on an empty buffer, a receive from the buffer, a close, and the end
    of a receiver on a closed and empty channel. *)
Inductive step (cap : nat) : pipeline → pipeline → Prop :=
| step_send_C x p bC aC dC bN cN aN dN :
    (length bC < cap)%nat →
    step cap (Pipeline (Send ToConverted x :: p) bC false aC dC bN cN aN dN)
             (Pipeline p (bC ++ [x]) false aC dC bN cN aN dN)
| step_hand_C x p aC bN cN aN dN :
    step cap (Pipeline (Send ToConverted x :: p) [] false aC false bN cN aN dN)
             (Pipeline p [] false (insertRecord aC x) false bN cN aN dN)
| step_recv_C x p bC cC aC bN cN aN dN :
    step cap (Pipeline p (x :: bC) cC aC false bN cN aN dN)
             (Pipeline p bC cC (insertRecord aC x) false bN cN aN dN)
| step_close_C p bC aC dC bN cN aN dN :
    step cap (Pipeline (Close ToConverted :: p) bC false aC dC bN cN aN dN)
             (Pipeline p bC true aC dC bN cN aN dN)
| step_done_C p aC bN cN aN dN :
    step cap (Pipeline p [] true aC false bN cN aN dN)
             (Pipeline p [] true aC true bN cN aN dN)
| step_send_N x p bC cC aC dC bN aN dN :
    (length bN < cap)%nat →
    step cap (Pipeline (Send ToNotConverted x :: p) bC cC aC dC bN false aN dN)
             (Pipeline p bC cC aC dC (bN ++ [x]) false aN dN)
| step_hand_N x p bC cC aC dC aN :
    step cap (Pipeline (Send ToNotConverted x :: p) bC cC aC dC [] false aN false)
             (Pipeline p bC cC aC dC [] false (appendRaw aN x) false)
| step_recv_N x p bC cC aC dC bN cN aN :
    step cap (Pipeline p bC cC aC dC (x :: bN) cN aN false)
             (Pipeline p bC cC aC dC bN cN (appendRaw aN x) false)
| step_close_N p bC cC aC dC bN aN dN :
    step cap (Pipeline (Close ToNotConverted :: p) bC cC aC dC bN false aN dN)
             (Pipeline p bC cC aC dC bN true aN dN)
| step_done_N p bC cC aC dC aN :
    step cap (Pipeline p bC cC aC dC [] true aN false)
             (Pipeline p bC cC aC dC [] true aN true).

(** No send on a channel and no second close of it after its close. *)
Definition closesLast (p : list action) : Prop :=
  ∀ pre t post, p = pre ++ Close t :: post → sendsTo t post = [] ∧ Close t ∉ post.

(** What holds in every state the goroutines reach. *)
Record invariant (tr : list (target * list gostring)) (s : pipeline) : Prop := {
  inv_C : foldl insertRecord (accC s) (bufC s ++ sendsTo ToConverted (sender s))
          = foldl insertRecord ∅ (sendsTo ToConverted (program tr));
  inv_N : foldl appendRaw (accN s) (bufN s ++ sendsTo ToNotConverted (sender s))
          = foldl appendRaw [] (sendsTo ToNotConverted (program tr));
  inv_last : closesLast (sender s);
  inv_closedC : closedC s = true →
                sendsTo ToConverted (sender s) = [] ∧ Close ToConverted ∉ sender s;
  inv_closedN : closedN s = true →
                sendsTo ToNotConverted (sender s) = [] ∧ Close ToNotConverted ∉ sender s;
  inv_openC : closedC s = false → Close ToConverted ∈ sender s;
  inv_openN : closedN s = false → Close ToNotConverted ∈ sender s;
  inv_doneC : doneC s = true → closedC s = true ∧ bufC s = [];
  inv_doneN : doneN s = true → closedN s = true ∧ bufN s = []
}.

(** The number of steps left at most. *)
Definition measure (s : pipeline) : nat :=
  2 * length (sender s) + length (bufC s) + length (bufN s)
  + (if doneC s then 0 else 1) + (if doneN s then 0 else 1).

(** The sends of the loop for a list of retained lines, in the order
    in which it makes them. *)
Fixpoint sendsOf `{CaseTables} (conv : HttpHeaderConverter) (f : bool)
    (lines : list gostring) : list (target * list gostring) :=
  match lines with
  | [] => []
  | l :: lines' =>
      match classOf conv f l with
      | Some r => (ToConverted, r)
      | None => (ToNotConverted, [l])
      end :: sendsOf conv false lines'
  end.

(** ** The vocabulary of the claims *)

(** The call returned an error. *)
Definition rejects (r : exec (chan * option error)) : bool :=
  match r with
  | Done (_, Some _) => true
  | _ => false
  end.

(** The retained lines that fail classification, in order: the first
    one if it fails as a status line and as a pair, each later one if it
    fails as a pair. *)
Definition failedLines `{CaseTables} (conv : HttpHeaderConverter) (lines : list gostring)
    : list gostring :=
  match lines with
  | [] => []
  | l :: lines' =>
      (if rejects (parseStatus conv l []) && rejects (parsePair conv l []) then [l] else [])
        ++ filter (λ l, rejects (parsePair conv l []) = true) lines'
  end.

(** [line] has, after [pre], three digits, one white space character
    and a non-empty rest. *)
Definition statusSplit (line pre code : gostring) (w : ascii) (msg : gostring) : Prop :=
  line = pre ++ code ++ w :: msg ∧ length code = 3%nat ∧
  Forall (λ c, regexp.digit c = true) code ∧ regexp.perlSpace w = true ∧ msg ≠ [].

(** One turn of the loop that tries the pair pattern only. *)
Definition pairStep `{CaseTables} (conv : HttpHeaderConverter) (st : chan * chan)
    (l : gostring) : chan * chan :=
  match parsePair conv l st.1 with
  | Done (stream, None) => (stream, st.2)
  | _ => (st.1, send st.2 [l])
  end.

(** The turn for the first retained line: the status pattern, then the
    pair pattern if it fails. *)
Definition firstStep `{CaseTables} (conv : HttpHeaderConverter) (l : gostring) : chan * chan :=
  match parseStatus conv l [] with
  | Done (stream, None) => (stream, [])
  | _ => pairStep conv ([], []) l
  end.

(** [line] is [key], a colon, the white space [ws] and [value], none of
    the three empty. *)
Definition pairSplit (line key ws value : gostring) : Prop :=
  line = key ++ ":"%char :: ws ++ value ∧ key ≠ [] ∧ ws ≠ [] ∧
  Forall (λ c, regexp.perlSpace c = true) ws ∧ value ≠ [].

(** A key of one word: ASCII, without hyphen, slash or space. *)
Definition singleWord (key : gostring) : Prop :=
  strings.isASCII key = true ∧ ("-"%char ∉ key) ∧ ("/"%char ∉ key) ∧ (" "%char ∉ key).

(** ** Auxiliary functions of the proofs about the patterns *)

(** The status pattern matches at the beginning of [r]. *)
Definition statusHere (r : gostring) : bool :=
  match r with
  | d1 :: d2 :: d3 :: w :: _ :: _ => regexp.digit d1 && regexp.digit d2 && regexp.digit d3 && regexp.perlSpace w
  | _ => false
  end.

(** The least number of characters to skip for the status pattern to
    match, if any. *)
Fixpoint firstStatus (r : gostring) : option nat :=
  if statusHere r then Some 0%nat
  else match r with
       | [] => None
       | _ :: r' => S <$> firstStatus r'
       end.

(** The threads of the pair pattern once the key has taken the first
    [j] characters of [s]. *)
Definition afterKey (s : gostring) (cs : list (option (nat * nat))) (j : nat) : list regexp.thread :=
  match drop j s with
  | c :: r =>
      if regexp.lit ":"%char c then
        flat_map (λ w, match drop w r with
                       | [] => []
                       | _ :: _ =>
                           [regexp.Thread (length s) []
                                   (<[2%nat := Some (j + 1 + w, length s)%nat]>
                                      (<[1%nat := Some (0, j)%nat]> cs))]
                       end)
                 (rev (seq 1 (regexp.prefixLen regexp.perlSpace r)))
      else []
  | [] => []
  end.

(** A colon at index [j] followed by white space. *)
Definition sepAt (s : gostring) (j : nat) : Prop :=
  s !! j = Some ":"%char ∧ (1 ≤ regexp.prefixLen regexp.perlSpace (drop (S j) s))%nat.

(** ** The vocabulary of the further properties *)

(** A character that separates the words of a header key. *)
Definition isKeySeparator (c : ascii) : bool :=
  Ascii.eqb c "-"%char || Ascii.eqb c "/"%char || Ascii.eqb c " "%char.

(** A word with its first letter in upper case and the others in lower
    case. *)
Definition capitalize (w : gostring) : gostring :=
  match w with
  | [] => []
  | c :: w' => strings.upperByte c :: map strings.lowerByte w'
  end.

(** A key: a first word, then separators each followed by a word. *)
Definition joinWords (w : gostring) (ws : list (ascii * gostring)) : gostring :=
  w ++ concat (map (λ sw, sw.1 :: sw.2) ws).

(** A word of ASCII letters. *)
Definition letters (w : gostring) : Prop := Forall (λ c, cases.isCased c = true) w.

(** An ASCII white space character, as [unicode.IsSpace] has them. *)
Definition isBlank (c : ascii) : bool :=
  (byteval c <? utf8.RuneSelf) && unicode.IsSpace (byteval c).

Definition CR : ascii := ascii_of_N 13.
Definition VT : ascii := ascii_of_N 11.

(** A byte that [json.Marshal] writes: no control character, and none
    of [<], [>] and [&]. *)
Definition isOutputByte (c : ascii) : bool :=
  (0x20 <=? byteval c) &&
  negb ((byteval c =? 38) || (byteval c =? 60) || (byteval c =? 62)).

(** ** Inputs of the examples *)

(** A line of text with its line feed. *)
Definition ln (s : string) : gostring := bytes s ++ [LF].

(** A text between double quotes. *)
Definition quoted (s : string) : gostring := [QUOTE] ++ bytes s ++ [QUOTE].

(** The input of the scenario of C1. *)
Definition scenarioInput : gostring :=
  ln "HTTP/1.1 200 OK" ++ ln "Content-Type: text/html" ++ ln "X-Cache: HIT".

(** [{"code":"200","contentType":"text/html","xCache":"HIT"}] *)
Definition scenarioOutput : gostring :=
  bytes "{" ++ quoted "code" ++ bytes ":" ++ quoted "200" ++ bytes "," ++
  quoted "contentType" ++ bytes ":" ++ quoted "text/html" ++ bytes "," ++
  quoted "xCache" ++ bytes ":" ++ quoted "HIT" ++ bytes "}".

(** Two values for one header. *)
Definition twiceInput : gostring :=
  ln "X-Cache: MISS" ++ ln "Server: nginx" ++ ln "X-Cache: HIT".

(** Two headers called [Raw] and a line that is no header. *)
Definition rawTwiceInput : gostring :=
  ln "Raw: a" ++ ln "Raw: b" ++ ln "bad line here".

(** The input of the counterexample of C5: one header called [Raw]. *)
Definition rawHeaderInput : gostring := ln "Raw: hello".

(** A header and a line that is no header. *)
Definition malformedInput : gostring :=
  ln "Server: nginx" ++ ln "not a real header line that is long enough".

(** A status line with a tab after the code. *)
Definition tabStatusLine : gostring := bytes "HTTP/1.1 200" ++ [TAB] ++ bytes "OK".

(** The two bytes of U+00E9, e with acute accent. *)
Definition eacute : gostring := [ascii_of_N 0xC3; ascii_of_N 0xA9].

(** ** Tactics *)

Ltac nbool :=
  repeat match goal with
  | H : (_ || _) = false |- _ => apply orb_false_elim in H as [? ?]
  | H : (_ && _) = true |- _ => apply andb_prop in H as [? ?]
  | H : (_ <? _)%N = true |- _ => apply N.ltb_lt in H
  | H : (_ <? _)%N = false |- _ => apply N.ltb_ge in H
  | H : (_ =? _)%N = true |- _ => apply N.eqb_eq in H
  | H : (_ =? _)%N = false |- _ => apply N.eqb_neq in H
  | H : (_ <=? _)%N = true |- _ => apply N.leb_le in H
  | H : (_ <=? _)%N = false |- _ => apply N.leb_gt in H
  | H : (_ <? _)%nat = true |- _ => apply Nat.ltb_lt in H
  | H : (_ <? _)%nat = false |- _ => apply Nat.ltb_ge in H
  | H : (_ <=? _)%nat = true |- _ => apply Nat.leb_le in H
  | H : (_ <=? _)%nat = false |- _ => apply Nat.leb_gt in H
  | H : (_ =? _)%nat = true |- _ => apply Nat.eqb_eq in H
  | H : (_ =? _)%nat = false |- _ => apply Nat.eqb_neq in H
  | H : (_ <? _)%Z = true |- _ => apply Z.ltb_lt in H
  | H : (_ <? _)%Z = false |- _ => apply Z.ltb_ge in H
  | H : (_ <=? _)%Z = true |- _ => apply Z.leb_le in H
  | H : (_ <=? _)%Z = false |- _ => apply Z.leb_gt in H
  end.

Ltac each_byte c := destruct c as [[] [] [] [] [] [] [] []]; vm_compute; try done.

(** * Properties *)

(** ** The loop as a function of the retained lines *)
Section backbone.
Context `{CaseTables} `{Runtime}.

Lemma index_lookup {A} (s : list A) (i : Z) (x : A) :
  (0 ≤ i)%Z → s !! Z.to_nat i = Some x → index s i = Done x.
Proof.
  intros Hi Hx. unfold index. rewrite Hx.
  destruct (i <? 0)%Z eqn:E; [apply Z.ltb_lt in E; lia | reflexivity].
Qed.

Lemma Split_cons s sep : ∃ p ps, strings.Split s sep = p :: ps.
Proof.
  induction s as [|c s IH]; simpl; [eauto|].
  destruct (Ascii.eqb c sep); [eauto|].
  destruct IH as (p & ps & ->). eauto.
Qed.

Lemma createJsonKey_jsonKey conv key :
  createJsonKey conv key = Done (jsonKey key, None).
Proof.
  unfold createJsonKey, jsonKey.
  destruct (Split_cons (cases.Title_String (strings.Replace keyReplacer key)) " "%char)
    as (p & ps & ->).
  reflexivity.
Qed.

Lemma statusCodeIndex_eq : statusCodeIndex = 1%Z.
Proof. reflexivity. Qed.
Lemma pairKeyIndex_eq : pairKeyIndex = 1%Z.
Proof. reflexivity. Qed.
Lemma pairValueIndex_eq : pairValueIndex = 2%Z.
Proof. reflexivity. Qed.

Lemma parseStatus_record conv line stream :
  parseStatus conv line stream =
    Done (match statusRecord conv line with
          | Some r => (send stream r, None)
          | None => (stream, Some (errors.New "cannot parse"))
          end).
Proof.
  unfold parseStatus, statusRecord. rewrite statusCodeIndex_eq.
  destruct (regexp.FindStringSubmatch statusPattern line) as [|g0 [|g1 [|g2 [|g3 g]]]];
    reflexivity.
Qed.

Lemma parsePair_record conv line stream :
  line ≠ [] →
  parsePair conv line stream =
    Done (match pairRecord conv line with
          | Some r => (send stream r, None)
          | None => (stream, Some (pairError line))
          end).
Proof.
  intros Hne. unfold parsePair, pairRecord, pairError.
  destruct line as [|c line]; [done|]. simpl length. 
  replace (S (length line) <? 1)%nat with false by (symmetry; apply Nat.ltb_ge; lia).
  assert (slice (c :: line) 0 1 = [c]) as -> by (unfold slice; destruct line; reflexivity).
  change (bytes " ") with [" "%char].
  destruct (decide ([c] = [" "%char])) as [Hc|Hc];
    destruct (decide (head (c :: line) = Some " "%char)) as [Hh|Hh];
    simpl in Hh; try congruence; try reflexivity.
  rewrite pairKeyIndex_eq, pairValueIndex_eq.
  destruct (regexp.FindStringSubmatch pairPattern (c :: line)) as [|g0 [|g1 [|g2 [|g3 g]]]];
    try reflexivity.
  cbn [length Nat.eqb negb].
  rewrite (index_lookup _ 1 g1), (index_lookup _ 2 g2) by done.
  unfold recordKey. cbn [mbind exec_bind].
  destruct (outputFormat conv =? JsonFormat)%Z; [|reflexivity].
  rewrite createJsonKey_jsonKey. reflexivity.
Qed.

Lemma ReadString_splitLines s :
  match splitLines s with
  | ([], rest) => bufio.ReadString s LF = (s, Some bufio.EOF, []) ∧ rest = s
  | (l :: ls, rest) =>
      ∃ r', bufio.ReadString s LF = (l ++ [LF], None, r') ∧
            splitLines r' = (ls, rest) ∧ (length r' < length s)%nat
  end.
Proof.
  induction s as [|c s IH]; simpl; [done|].
  destruct (splitLines s) as [ls rest] eqn:Es.
  destruct (Ascii.eqb c LF) eqn:Ec.
  - apply Ascii.eqb_eq in Ec as ->. exists s. simpl. auto with lia.
  - destruct ls as [|l ls].
    + destruct IH as [-> ->]. done.
    + destruct IH as (r' & -> & ? & ?). exists r'. simpl. auto with lia.
Qed.

Lemma retainedLines_cons s l ls rest :
  splitLines s = (l :: ls, rest) →
  ∀ r', splitLines r' = (ls, rest) →
  retainedLines s =
    if decide (4 ≤ length (trimLine l))%nat then trimLine l :: retainedLines r'
    else retainedLines r'.
Proof.
  intros Hs r' Hr. unfold retainedLines. rewrite Hs, Hr. simpl.
  rewrite filter_cons. reflexivity.
Qed.

Lemma sendLoop_streams fuel conv reader f cs ncs :
  (length reader < fuel)%nat →
  sendLoop fuel conv reader f cs ncs =
    Done (cs ++ (streams conv f (retainedLines reader)).1,
          ncs ++ (streams conv f (retainedLines reader)).2).
Proof.
  revert reader f cs ncs.
  induction fuel as [|fuel IH]; intros reader f cs ncs Hfuel; [lia|].
  cbn [sendLoop].
  pose proof (ReadString_splitLines reader) as Hrs.
  destruct (splitLines reader) as [[|l ls] rest] eqn:Es.
  - destruct Hrs as [-> _]. unfold retainedLines. rewrite Es. simpl.
    by rewrite !app_nil_r.
  - destruct Hrs as (r' & -> & Hr' & Hlen).
    rewrite (retainedLines_cons _ _ _ _ Es _ Hr').
    fold (trimLine l).
    destruct (decide (4 ≤ length (trimLine l))%nat) as [Hl|Hl].
    + replace (length (trimLine l) <? 4)%nat with false
        by (symmetry; apply Nat.ltb_ge; lia).
      assert (trimLine l ≠ []) as Hne by (intros E; rewrite E in Hl; simpl in Hl; lia).
      cbn [streams]. unfold classOf.
      destruct (streams conv false (retainedLines r')) as [a b] eqn:Est.
      destruct f.
      * rewrite parseStatus_record.
        destruct (statusRecord conv (trimLine l)) as [r|].
        -- cbn [mbind exec_bind]. rewrite IH by lia. rewrite Est. simpl.
           unfold send. by rewrite <- !app_assoc.
        -- cbn [mbind exec_bind]. rewrite parsePair_record by done.
           destruct (pairRecord conv (trimLine l)) as [r|];
             cbn [mbind exec_bind]; rewrite IH by lia; rewrite Est; simpl;
             unfold send; by rewrite <- !app_assoc.
      * cbn [mbind exec_bind]. rewrite parsePair_record by done.
        destruct (pairRecord conv (trimLine l)) as [r|];
          cbn [mbind exec_bind]; rewrite IH by lia; rewrite Est; simpl;
          unfold send; by rewrite <- !app_assoc.
    + replace (length (trimLine l) <? 4)%nat with true
        by (symmetry; apply Nat.ltb_lt; lia).
      apply IH. lia.
Qed.

Lemma createSenders_streams conv reader :
  makechan (numWorker conv) = None →
  createSenders conv reader =
    Done ((streams conv true (retainedLines reader)).1,
          (streams conv true (retainedLines reader)).2, None).
Proof.
  intros Hn. unfold createSenders. rewrite Hn.
  rewrite sendLoop_streams by lia. reflexivity.
Qed.

Lemma classOf_length conv f l r : classOf conv f l = Some r → length r = 2%nat.
Proof.
  unfold classOf, statusRecord, pairRecord. intros Hr.
  repeat case_match; simplify_eq; reflexivity.
Qed.

Lemma streams_shape conv f ls :
  Forall (λ s, length s = 2%nat) (streams conv f ls).1 ∧
  Forall (λ s, length s = 1%nat) (streams conv f ls).2.
Proof.
  revert f. induction ls as [|l ls IH]; intros f; simpl; [by split|].
  destruct (IH false) as [IH1 IH2].
  destruct (streams conv false ls) as [a b].
  destruct (classOf conv f l) as [r|] eqn:Er; simpl in *; split; auto.
  constructor; [by eapply classOf_length | done].
Qed.

Lemma receiveConverted_fold cs m :
  Forall (λ s, length s = 2%nat) cs →
  receiveConverted cs m = Done (foldl insertRecord m cs).
Proof.
  revert m. induction cs as [|s cs IH]; intros m Hcs; [done|].
  apply Forall_cons in Hcs as [Hs Hcs].
  destruct s as [|k [|v [|]]]; try discriminate Hs.
  cbn [receiveConverted].
  rewrite (index_lookup _ 0 k), (index_lookup _ 1 v) by done.
  cbn [mbind exec_bind]. by apply IH.
Qed.

Lemma receiveNotConverted_concat ncs l :
  Forall (λ s, length s = 1%nat) ncs →
  receiveNotConverted ncs l = Done (l ++ concat ncs).
Proof.
  revert l. induction ncs as [|s ncs IH]; intros l Hncs; simpl.
  - by rewrite app_nil_r.
  - apply Forall_cons in Hncs as [Hs Hncs].
    destruct s as [|x [|]]; try discriminate Hs.
    rewrite (index_lookup _ 0 x) by done. cbn [mbind exec_bind concat].
    rewrite IH by done. by rewrite <- app_assoc.
Qed.

Lemma convert_eq conv :
  makechan (numWorker conv) = None →
  convert conv = Done (convertedOf conv, rawLinesOf conv, None).
Proof.
  intros Hn. unfold convert, bufio.NewReader.
  rewrite createSenders_streams by done. cbn [mbind exec_bind].
  destruct (streams_shape conv true (retainedLines (rawHeader conv))) as [H1 H2].
  rewrite receiveConverted_fold by done. cbn [mbind exec_bind].
  rewrite receiveNotConverted_concat by done. reflexivity.
Qed.

Lemma OutputWith_eq marshal conv :
  makechan (numWorker conv) = None →
  OutputWith marshal conv = Done ((marshal (finalMapping conv)).1, None).
Proof.
  intros Hn. unfold OutputWith. rewrite convert_eq by done.
  cbn [mbind exec_bind]. unfold finalMapping.
  destruct (0 <? length (rawLinesOf conv))%nat;
    by destruct (marshal _).
Qed.
End backbone.

(** ** The goroutines end, and agree with [convert] *)
Section pipeline.
Context (cap : nat) (tr : list (target * list gostring)).

Lemma sendsTo_app t p q : sendsTo t (p ++ q) = sendsTo t p ++ sendsTo t q.
Proof.
  induction p as [|[t' x|t'] p IH]; simpl; [done| |done].
  destruct (decide (t' = t)); simpl; by rewrite IH.
Qed.

Lemma closesLast_tail a p : closesLast (a :: p) → closesLast p.
Proof. intros Hp pre t post ->. by apply (Hp (a :: pre) t post). Qed.

Lemma closesLast_program : closesLast (program tr).
Proof.
  unfold program. intros pre t post Heq.
  assert (∀ (l : list (target * list gostring)) pre,
            map (λ e, Send e.1 e.2) l ++ [Close ToNotConverted; Close ToConverted]
              = pre ++ Close t :: post →
            post = [Close ToConverted] ∧ t = ToNotConverted ∨ post = [] ∧ t = ToConverted)
    as Hshape.
  { clear. induction l as [|e l IH]; intros pre Heq; simpl in Heq.
    - destruct pre as [|a [|b [|c pre]]]; simplify_eq/=; auto.
    - destruct pre as [|a pre]; simplify_eq/=. by eapply IH. }
  destruct (Hshape _ _ Heq) as [[-> ->]|[-> ->]]; simpl.
  - split; [done|]. intros [?|?%elem_of_nil]%elem_of_cons; done.
  - split; [done|]. by intros ?%elem_of_nil.
Qed.

Lemma invariant_start : invariant tr (start tr).
Proof.
  split; simpl; try done.
  - apply closesLast_program.
  - intros _. unfold program. apply elem_of_app. right. by right; left.
  - intros _. unfold program. apply elem_of_app. right. by left.
Qed.

(** Every step keeps the invariant. *)
Lemma invariant_step s s' : invariant tr s → step cap s s' → invariant tr s'.
Proof.
  intros [HC HN Hlast HcC HcN HoC HoN HdC HdN] Hstep.
  inversion Hstep; subst; simpl in *; split; simpl;
    try (by eauto using closesLast_tail);
    rewrite ?app_nil_r, <- ?app_assoc in *; simpl in *; try done.
  all: try (intros Hc; specialize (HoC Hc) || specialize (HoN Hc);
            by apply elem_of_cons in HoC as [?|?] || apply elem_of_cons in HoN as [?|?]).
  all: try (intros _; by apply (Hlast [] _ p)).
  all: try (intros Hc; destruct (HcC Hc) as [? Hnot] || destruct (HcN Hc) as [? Hnot];
            split; [done|]; intros ?; apply Hnot; by right).
  all: try (intros Hd; by destruct (HdC Hd) || by destruct (HdN Hd)).
  all: intros Hc;
    first [ by (specialize (HoN Hc); apply elem_of_cons in HoN as [?|?]; simplify_eq)
          | by (specialize (HoC Hc); apply elem_of_cons in HoC as [?|?]; simplify_eq) ].
Qed.

Lemma invariant_reachable s : rtc (step cap) (start tr) s → invariant tr s.
Proof.
  intros Hrun.
  apply (rtc_ind_r (R := step cap) (invariant tr) (start tr)); [| |done].
  - apply invariant_start.
  - intros s1 s2 _ Hstep Hinv. by eapply invariant_step.
Qed.

(** When both receivers have returned they hold what the sends make. *)
Lemma invariant_finished s :
  invariant tr s → finished s →
  accC s = foldl insertRecord ∅ (sendsTo ToConverted (program tr)) ∧
  accN s = foldl appendRaw [] (sendsTo ToNotConverted (program tr)).
Proof.
  intros [HC HN _ HcC HcN _ _ HdC HdN] [HfC HfN].
  destruct (HdC HfC) as [HclC HbC]. destruct (HdN HfN) as [HclN HbN].
  destruct (HcC HclC) as [HsC _]. destruct (HcN HclN) as [HsN _].
  rewrite HbC, HsC in HC. rewrite HbN, HsN in HN. done.
Qed.

(** No deadlock: while a receiver has not returned, some goroutine
    can step, whatever the capacity. *)
Lemma step_progress s : invariant tr s → ¬ finished s → ∃ s', step cap s s'.
Proof.
  intros [_ _ _ HcC HcN HoC HoN HdC HdN] Hnot.
  destruct s as [p bC cC aC dC bN cN aN dN]; simpl in *.
  destruct p as [|[[] x|[]] p].
  - (* the sender has returned *)
    destruct cC; [|by destruct (not_elem_of_nil _ (HoC eq_refl))].
    destruct cN; [|by destruct (not_elem_of_nil _ (HoN eq_refl))].
    destruct dC.
    + destruct (HdC eq_refl) as [_ ->].
      destruct dN; [by destruct Hnot|].
      destruct bN; eexists; constructor.
    + destruct bC; eexists; constructor.
  - (* a send on the converted stream *)
    destruct cC; [by destruct (HcC eq_refl)|].
    destruct dC; [by destruct (HdC eq_refl)|].
    destruct bC; eexists; [apply step_hand_C | apply step_recv_C].
  - (* a send on the other stream *)
    destruct cN; [by destruct (HcN eq_refl)|].
    destruct dN; [by destruct (HdN eq_refl)|].
    destruct bN; eexists; [apply step_hand_N | apply step_recv_N].
  - (* close of the converted stream *)
    destruct cC; [|eexists; constructor].
    destruct (HcC eq_refl) as [_ Hno]. exfalso. apply Hno. by left.
  - (* close of the other stream *)
    destruct cN; [|eexists; constructor].
    destruct (HcN eq_refl) as [_ Hno]. exfalso. apply Hno. by left.
Qed.

(** Every step lowers the measure: no run is infinite. *)
Lemma step_measure s s' : step cap s s' → (measure s' < measure s)%nat.
Proof.
  intros Hstep. inversion Hstep; subst; unfold measure; simpl;
    rewrite ?length_app; simpl; repeat case_match; lia.
Qed.

(** From every reachable state a run reaches the end. *)
Lemma run_completes s :
  invariant tr s → ∃ s', rtc (step cap) s s' ∧ finished s'.
Proof.
  remember (measure s) as n eqn:Hn. revert s Hn.
  induction n as [n IH] using lt_wf_ind. intros s -> Hinv.
  destruct (decide (doneC s = true ∧ doneN s = true)) as [Hfin|Hnot].
  { exists s. by split. }
  destruct (step_progress s Hinv Hnot) as [s1 Hstep].
  destruct (IH (measure s1) (step_measure _ _ Hstep) s1 eq_refl
              (invariant_step _ _ Hinv Hstep)) as (s' & Hrun & Hfin).
  exists s'. split; [|done]. by eapply rtc_l.
Qed.
End pipeline.

Section schedule.
Context `{CaseTables} `{Runtime}.

Lemma sendsTo_program t tr :
  sendsTo t (program tr) = sendsTo t (map (λ e, Send e.1 e.2) tr).
Proof. unfold program. rewrite sendsTo_app. simpl. by rewrite app_nil_r. Qed.

Lemma sendsOf_streams conv f lines :
  sendsTo ToConverted (program (sendsOf conv f lines)) = (streams conv f lines).1 ∧
  sendsTo ToNotConverted (program (sendsOf conv f lines)) = (streams conv f lines).2.
Proof.
  rewrite !sendsTo_program. revert f.
  induction lines as [|l lines IH]; intros f; simpl; [done|].
  destruct (IH false) as [IH1 IH2].
  destruct (streams conv false lines) as [cs ncs]. simpl in *.
  destruct (classOf conv f l); simpl; by rewrite IH1, IH2.
Qed.

Lemma foldl_appendRaw ncs l :
  Forall (λ s, length s = 1%nat) ncs → foldl appendRaw l ncs = l ++ concat ncs.
Proof.
  intros Hncs. revert l. induction Hncs as [|s ncs Hs _ IH]; intros l; simpl.
  - by rewrite app_nil_r.
  - destruct s as [|x [|]]; try done. simpl. by rewrite IH, <- app_assoc.
Qed.
End schedule.

(** ** Decoding and trimming *)

Lemma first_AS b : utf8.first b = utf8.AS → b < 0x80.
Proof. unfold utf8.first. repeat case_match; nbool; intros; simplify_eq; lia. Qed.

Lemma first_ascii b : b < 0x80 → utf8.first b = utf8.AS.
Proof. intros. unfold utf8.first. case_match; nbool; [done|lia]. Qed.

Lemma first_XX b : utf8.first b = utf8.XX → 0x80 ≤ b.
Proof. unfold utf8.first. repeat case_match; nbool; intros; simplify_eq; lia. Qed.

Lemma first_Lead b sz lo hi :
  utf8.first b = utf8.Lead sz lo hi → 0x80 ≤ b ∧ 0x80 ≤ lo ∧ (2 ≤ sz ≤ 4)%nat.
Proof. unfold utf8.first. repeat case_match; nbool; intros; simplify_eq; lia. Qed.

(** The width of a decoded rune: at least one byte, no more than there
    are; a rune of several bytes has no ASCII byte. *)
Lemma DecodeRune_width s :
  s ≠ [] →
  (1 ≤ (utf8.DecodeRuneInString s).2 ≤ length s)%nat ∧
  ((2 ≤ (utf8.DecodeRuneInString s).2)%nat →
   Forall (λ c, 0x80 ≤ byteval c) (take (utf8.DecodeRuneInString s).2 s)).
Proof.
  intros Hs. destruct s as [|c0 s]; [done|]. clear Hs.
  unfold utf8.DecodeRuneInString.
  destruct (utf8.first (byteval c0)) as [| |sz lo hi] eqn:E0; simpl; try (split; lia).
  apply first_Lead in E0 as (H0 & Hlo & Hsz).
  unfold utf8.locb, utf8.hicb.
  destruct sz as [|sz]; [lia|].
  repeat (case_match; simpl; try (split; lia)); nbool; simpl in *;
    (split; [lia|intros _]); repeat constructor; lia.
Qed.

Lemma DecodeRune_ascii c s :
  byteval c < 0x80 → utf8.DecodeRuneInString (c :: s) = (byteval c, 1%nat).
Proof. intros Hc. unfold utf8.DecodeRuneInString. by rewrite first_ascii. Qed.

Lemma scanStart_le fuel s start lim : (utf8.scanStart fuel s start lim ≤ start)%Z.
Proof.
  revert start. induction fuel as [|fuel IH]; intros start; simpl; [lia|].
  repeat case_match; try lia. specialize (IH (start - 1)%Z). lia.
Qed.

(** The last rune of a string: its width, and its first byte, which is
    the rune itself when it is ASCII. *)
Lemma DecodeLastRune_spec s :
  s ≠ [] →
  (1 ≤ (utf8.DecodeLastRuneInString s).2 ≤ length s)%nat ∧
  ∃ c', s !! (length s - (utf8.DecodeLastRuneInString s).2)%nat = Some c' ∧
        (byteval c' < 0x80 →
         utf8.DecodeLastRuneInString s = (byteval c', 1%nat)).
Proof.
  intros Hs.
  assert (0 < length s)%nat as Hlen by (destruct s; [done | simpl; lia]).
  destruct (last s) as [c|] eqn:Hlast; [|by apply last_None in Hlast].
  assert (s !! (length s - 1)%nat = Some c) as Hc.
  { rewrite last_lookup in Hlast. by replace (length s - 1)%nat with (pred (length s)) by lia. }
  unfold utf8.DecodeLastRuneInString. rewrite Hlast.
  destruct (byteval c <? utf8.RuneSelf) eqn:Ec.
  { simpl. split; [lia|]. exists c. done. }
  unfold utf8.RuneSelf in Ec. nbool.
  set (start := Z.to_nat (Z.max 0 _)).
  assert (start < length s)%nat as Hstart.
  { subst start.
    pose proof (scanStart_le utf8.UTFMax s (Z.of_nat (length s) - 2)
                  (Z.max 0 (Z.of_nat (length s) - Z.of_nat utf8.UTFMax))). lia. }
  assert (slice s start (length s) = drop start s) as Hslice.
  { unfold slice. apply take_ge. rewrite length_drop. lia. }
  rewrite Hslice.
  destruct (drop start s) as [|c0 t] eqn:Ed.
  { apply (f_equal length) in Ed. rewrite length_drop in Ed. simpl in Ed. lia. }
  assert (s !! start = Some c0) as Hc0.
  { rewrite <- (Nat.add_0_r start), <- lookup_drop, Ed. done. }
  pose proof (DecodeRune_width (c0 :: t) ltac:(done)) as [Hw _].
  destruct (utf8.DecodeRuneInString (c0 :: t)) as [r size] eqn:Edec. simpl in Hw.
  destruct (start + size =? length s)%nat eqn:Eend; simpl; nbool.
  - split; [lia|]. exists c0. replace (length s - size)%nat with start by lia.
    split; [done|]. intros H0. rewrite DecodeRune_ascii in Edec by done.
    by simplify_eq.
  - split; [lia|]. exists c. split; [done|]. lia.
Qed.

(** What [lastIndexFunc] finds: no index, or the index of the first byte
    of a rune that [f] rejects. *)
Lemma lastIndexFrom_spec fuel s f i :
  (i ≤ length s)%nat →
  strings.lastIndexFrom fuel s f false i = (-1)%Z ∨
  ∃ idx c, strings.lastIndexFrom fuel s f false i = Z.of_nat idx ∧ (idx < i)%nat ∧
           s !! idx = Some c ∧ (byteval c < 0x80 → f (byteval c) = false).
Proof.
  revert i. induction fuel as [|fuel IH]; intros i Hi; simpl; [by left|].
  destruct (i =? 0)%nat eqn:Ei; [by left|]. nbool.
  assert (take i s ≠ []) as Hne.
  { intros E. apply (f_equal length) in E. rewrite length_take in E. simpl in E. lia. }
  destruct (DecodeLastRune_spec (take i s) Hne) as (Hw & c & Hc & Hascii).
  rewrite length_take, Nat.min_l in Hw, Hc by lia.
  destruct (utf8.DecodeLastRuneInString (take i s)) as [r size] eqn:Ed. simpl in *.
  rewrite lookup_take_lt in Hc by lia.
  destruct (Bool.eqb (f r) false) eqn:Ef.
  - right. exists (i - size)%nat, c. split_and!; [done|lia|done|].
    intros H0. specialize (Hascii H0). simplify_eq.
    by apply Bool.eqb_prop in Ef.
  - destruct (IH (i - size)%nat ltac:(lia)) as [->|(idx & c' & -> & ? & ? & ?)]; [by left|].
    right. exists idx, c'. split_and!; auto with lia.
Qed.

(** [TrimRightFunc] returns a prefix whose last byte, if it is ASCII, is
    rejected by [f]. *)
Lemma TrimRightFunc_spec s f :
  ∃ n, (n ≤ length s)%nat ∧ strings.TrimRightFunc s f = take n s ∧
       (n = 0%nat ∨ ∃ c, s !! (n - 1)%nat = Some c ∧
                         (byteval c < 0x80 → f (byteval c) = false)).
Proof.
  unfold strings.TrimRightFunc, strings.lastIndexFunc.
  destruct (lastIndexFrom_spec (length s) s f (length s) ltac:(lia))
    as [->|(idx & c & -> & Hidx & Hc & Hf)].
  { exists 0%nat. simpl. split_and!; [lia|done|by left]. }
  replace (0 <=? Z.of_nat idx)%Z with true by (symmetry; apply Z.leb_le; lia).
  rewrite Nat2Z.id, Hc. simpl.
  destruct (utf8.RuneSelf <=? byteval c) eqn:Ec; unfold utf8.RuneSelf in Ec; nbool.
  - destruct (drop idx s) as [|c0 t] eqn:Ed.
    { apply (f_equal length) in Ed. rewrite length_drop in Ed. simpl in Ed. lia. }
    assert (c0 = c) as ->.
    { rewrite <- (Nat.add_0_r idx), <- lookup_drop, Ed in Hc. by simplify_eq/=. }
    pose proof (DecodeRune_width (c :: t) ltac:(done)) as [Hw Hall].
    set (wid := (utf8.DecodeRuneInString (c :: t)).2) in *.
    assert (length (c :: t) = (length s - idx)%nat) as Hlen
      by (rewrite <- Ed, length_drop; done).
    exists (idx + wid)%nat. split_and!.
    + lia.
    + f_equal. lia.
    + right.
      destruct (decide (wid = 1%nat)) as [E1|E1].
      * exists c. rewrite E1. replace (idx + 1 - 1)%nat with idx by lia.
        split; [done|lia].
      * specialize (Hall ltac:(lia)).
        assert (is_Some ((c :: t) !! (wid - 1)%nat)) as [c' Hc'].
        { apply lookup_lt_is_Some. lia. }
        exists c'. split.
        -- replace (idx + wid - 1)%nat with (idx + (wid - 1))%nat by lia.
           by rewrite <- lookup_drop, Ed.
        -- rewrite Forall_lookup in Hall.
           specialize (Hall (wid - 1)%nat c').
           rewrite lookup_take_lt in Hall by lia. specialize (Hall Hc'). lia.
  - exists (idx + 1)%nat. split_and!.
    + lia.
    + f_equal. lia.
    + right. exists c. replace (idx + 1 - 1)%nat with idx by lia. done.
Qed.

Lemma perlSpace_IsSpace c :
  regexp.perlSpace c = true → byteval c < 0x80 ∧ unicode.IsSpace (byteval c) = true.
Proof.
  unfold regexp.perlSpace, unicode.IsSpace, unicode.MaxLatin1.
  intros Hc. repeat (apply orb_prop in Hc as [Hc|Hc]); nbool; rewrite Hc; done.
Qed.

(** A trimmed line is a prefix of the line, without the line feed. *)
Lemma trimLine_prefix l : ∃ n, (n ≤ length l)%nat ∧ trimLine l = take n l.
Proof.
  unfold trimLine.
  destruct (TrimRightFunc_spec (l ++ [LF]) unicode.IsSpace) as (n & Hn & -> & Hlast).
  rewrite length_app in Hn. simpl in Hn.
  destruct (decide (n = length l + 1)%nat) as [->|Hne].
  - destruct Hlast as [?|(c & Hc & Hf)]; [lia|].
    replace (length l + 1 - 1)%nat with (length l + 0)%nat in Hc by lia.
    rewrite lookup_app_r in Hc by lia.
    replace (length l + 0 - length l)%nat with 0%nat in Hc by lia.
    simpl in Hc. simplify_eq. by specialize (Hf ltac:(done)).
  - exists n. split; [lia|]. rewrite take_app_le by lia. done.
Qed.

(** The last byte of a trimmed line is no white space. *)
Lemma trimLine_last l c : last (trimLine l) = Some c → regexp.perlSpace c = false.
Proof.
  unfold trimLine.
  destruct (TrimRightFunc_spec (l ++ [LF]) unicode.IsSpace) as (n & Hn & -> & Hlast).
  intros Hl. destruct (decide (n = 0%nat)) as [->|Hn0]; [done|].
  rewrite last_lookup, length_take, Nat.min_l in Hl by lia.
  destruct Hlast as [->|(c' & Hc' & Hf)]; [done|].
  rewrite lookup_take_lt in Hl by lia.
  replace (pred n) with (n - 1)%nat in Hl by lia.
  rewrite Hc' in Hl. injection Hl as ->.
  destruct (regexp.perlSpace c) eqn:E; [|done].
  apply perlSpace_IsSpace in E as [E1 E2]. specialize (Hf E1). congruence.
Qed.

Lemma trimLine_no_LF l : LF ∉ l → LF ∉ trimLine l.
Proof.
  intros Hl. destruct (trimLine_prefix l) as (n & _ & ->).
  intros Hin. apply Hl. apply elem_of_take in Hin as (i & Hi & _).
  by eapply list_elem_of_lookup_2.
Qed.

(** ** The loops of the library have turns enough *)

(** The backwards scan stops within [UTFMax] turns: more turns change
    nothing. *)
Lemma scanStart_fuel fuel1 fuel2 s start lim :
  (start - lim < Z.of_nat fuel1)%Z → (start - lim < Z.of_nat fuel2)%Z →
  utf8.scanStart fuel1 s start lim = utf8.scanStart fuel2 s start lim.
Proof.
  revert fuel2 start. induction fuel1 as [|fuel1 IH]; intros fuel2 start H1 H2.
  - destruct fuel2 as [|fuel2]; [done|]. simpl.
    destruct (start <? lim)%Z eqn:E; [done|]. apply Z.ltb_ge in E. lia.
  - destruct fuel2 as [|fuel2]; simpl.
    + destruct (start <? lim)%Z eqn:E; [done|]. apply Z.ltb_ge in E. lia.
    + destruct (start <? lim)%Z eqn:E; [done|].
      destruct (s !! Z.to_nat start) as [b|]; [|done].
      destruct (utf8.RuneStart b); [done|]. apply IH; lia.
Qed.

Lemma scanStart_UTFMax fuel s :
  (utf8.UTFMax ≤ fuel)%nat →
  utf8.scanStart fuel s (Z.of_nat (length s) - 2)
     (Z.max 0 (Z.of_nat (length s) - Z.of_nat utf8.UTFMax)) =
  utf8.scanStart utf8.UTFMax s (Z.of_nat (length s) - 2)
     (Z.max 0 (Z.of_nat (length s) - Z.of_nat utf8.UTFMax)).
Proof. intros Hf. apply scanStart_fuel; unfold utf8.UTFMax in *; lia. Qed.

(** [lastIndexFunc] ends within [i] turns. *)
Lemma lastIndexFrom_fuel fuel1 fuel2 s f truth i :
  (i ≤ fuel1)%nat → (i ≤ fuel2)%nat → (i ≤ length s)%nat →
  strings.lastIndexFrom fuel1 s f truth i = strings.lastIndexFrom fuel2 s f truth i.
Proof.
  revert fuel2 i. induction fuel1 as [|fuel1 IH]; intros fuel2 i H1 H2 Hs.
  - assert (i = 0%nat) as -> by lia. by destruct fuel2.
  - destruct fuel2 as [|fuel2].
    { assert (i = 0%nat) as -> by lia. done. }
    simpl. destruct (i =? 0)%nat eqn:Ei; [done|]. apply Nat.eqb_neq in Ei.
    assert (take i s ≠ []) as Hne.
    { intros E. apply (f_equal length) in E. rewrite length_take in E. simpl in E. lia. }
    destruct (DecodeLastRune_spec (take i s) Hne) as (Hw & _).
    destruct (utf8.DecodeLastRuneInString (take i s)) as [r size]. simpl in Hw.
    destruct (Bool.eqb (f r) truth); [done|]. apply IH; lia.
Qed.

(** The encoder of strings ends within [length s] turns. *)
Lemma encodeFrom_fuel fuel1 fuel2 s :
  (length s ≤ fuel1)%nat → (length s ≤ fuel2)%nat →
  json.encodeFrom fuel1 s = json.encodeFrom fuel2 s.
Proof.
  revert fuel2 s. induction fuel1 as [|fuel1 IH]; intros fuel2 s H1 H2.
  - destruct s; [|simpl in H1; lia]. by destruct fuel2.
  - destruct fuel2 as [|fuel2].
    { destruct s; [done | simpl in H2; lia]. }
    destruct s as [|c s]; [done|]. cbn [json.encodeFrom].
    pose proof (DecodeRune_width (c :: s) ltac:(done)) as [Hw _].
    destruct (utf8.DecodeRuneInString (c :: s)) as [r size]. simpl in Hw, H1, H2.
    assert (∀ t, (length t ≤ length s)%nat →
                 json.encodeFrom fuel1 t = json.encodeFrom fuel2 t) as Hrec
      by (intros t Ht; apply IH; lia).
    assert (length (drop size (c :: s)) ≤ length s)%nat as Hd
      by (rewrite length_drop; simpl; lia).
    rewrite (Hrec s), (Hrec (drop size (c :: s))) by done. done.
Qed.

(** Counting runes ends within [length s] turns. *)
Lemma runeCountFrom_fuel fuel1 fuel2 s :
  (length s ≤ fuel1)%nat → (length s ≤ fuel2)%nat →
  utf8.runeCountFrom fuel1 s = utf8.runeCountFrom fuel2 s.
Proof.
  revert fuel2 s. induction fuel1 as [|fuel1 IH]; intros fuel2 s H1 H2.
  - destruct s; [|simpl in H1; lia]. by destruct fuel2.
  - destruct fuel2 as [|fuel2].
    { destruct s; [done | simpl in H2; lia]. }
    destruct s as [|c s]; [done|]. cbn [utf8.runeCountFrom].
    pose proof (DecodeRune_width (c :: s) ltac:(done)) as [Hw _].
    f_equal. apply IH; rewrite length_drop; simpl in *; lia.
Qed.

(** ** The two patterns *)

Lemma flat_map_nil {A B} (f : A → list B) (l : list A) :
  (∀ x, x ∈ l → f x = []) → flat_map f l = [].
Proof.
  induction l as [|a l IH]; intros Hf; simpl; [done|].
  rewrite Hf by left. apply IH. intros x Hx. apply Hf. by right.
Qed.

Lemma flat_map_nil_inv {A B} (f : A → list B) (l : list A) x :
  flat_map f l = [] → x ∈ l → f x = [].
Proof.
  induction l as [|a l IH]; simpl; intros Hnil Hx; [by apply elem_of_nil in Hx|].
  apply app_eq_nil in Hnil as [Ha Hl].
  apply elem_of_cons in Hx as [->|Hx]; auto.
Qed.

Lemma head_flat_map {A B} (f : A → list B) (l : list A) y :
  head (flat_map f l) = Some y →
  ∃ l1 x l2, l = l1 ++ x :: l2 ∧ (∀ x', x' ∈ l1 → f x' = []) ∧ head (f x) = Some y.
Proof.
  induction l as [|a l IH]; simpl; [done|].
  destruct (f a) as [|b bs] eqn:Ea; simpl.
  - intros Hy. destruct (IH Hy) as (l1 & x & l2 & -> & Hl1 & Hx).
    exists (a :: l1), x, l2. split_and!; [done| |done].
    intros x' [->|Hx']%elem_of_cons; auto.
  - intros [= ->]. exists [], a, l. split_and!; [done| |by rewrite Ea].
    intros x' Hx'. by apply elem_of_nil in Hx'.
Qed.

Lemma head_flat_map_first {A B} (f : A → list B) (l1 l2 : list A) x :
  (∀ x', x' ∈ l1 → f x' = []) →
  head (flat_map f (l1 ++ x :: l2)) = head (f x ++ flat_map f l2).
Proof.
  intros Hl1. rewrite flat_map_app. rewrite (flat_map_nil f l1) by done. done.
Qed.

Lemma flat_map_fmap {A B C} (f : B → list C) (g : A → B) (l : list A) :
  flat_map f (map g l) = flat_map (λ x, f (g x)) l.
Proof. induction l as [|a l IH]; simpl; [done|]. by rewrite IH. Qed.

Section prefixLen.
Import regexp.

Lemma prefixLen_le p s : (prefixLen p s ≤ length s)%nat.
Proof. induction s as [|c s IH]; simpl; [lia|]. destruct (p c); simpl; lia. Qed.

Lemma prefixLen_Forall p s : Forall (λ c, p c = true) (take (prefixLen p s) s).
Proof.
  induction s as [|c s IH]; simpl; [constructor|].
  destruct (p c) eqn:E; simpl; [by constructor | constructor].
Qed.

Lemma prefixLen_all p s : Forall (λ c, p c = true) s → prefixLen p s = length s.
Proof. induction 1 as [|c s Hc _ IH]; simpl; [done|]. by rewrite Hc, IH. Qed.

Lemma prefixLen_app_ge p a b :
  Forall (λ c, p c = true) a → (length a ≤ prefixLen p (a ++ b))%nat.
Proof. induction 1 as [|c s Hc _ IH]; simpl; [lia|]. rewrite Hc. lia. Qed.

Lemma prefixLen_stop p s c :
  s !! prefixLen p s = Some c → p c = false.
Proof.
  induction s as [|a s IH]; simpl; [done|].
  destruct (p a) eqn:E; simpl; [done|]. by intros [= ->].
Qed.

(** A run of the class cannot reach the end of a string whose last
    character is outside the class. *)
Lemma prefixLen_lt_last p s c :
  last s = Some c → p c = false → (prefixLen p s < length s)%nat.
Proof.
  intros Hl Hc. pose proof (prefixLen_le p s) as Hle.
  destruct (decide (prefixLen p s = length s)) as [E|]; [|lia].
  pose proof (prefixLen_Forall p s) as Hall. rewrite E, firstn_all in Hall.
  rewrite last_lookup in Hl. apply list_elem_of_lookup_2 in Hl.
  rewrite Forall_forall in Hall. specialize (Hall c Hl). congruence.
Qed.

Lemma anyCharNotNL_all s : LF ∉ s → Forall (λ c, anyCharNotNL c = true) s.
Proof.
  intros Hs. apply Forall_forall. intros c Hc. unfold anyCharNotNL.
  destruct (Ascii.eqb c LF) eqn:E; [|done].
  apply Ascii.eqb_eq in E as ->. done.
Qed.
End prefixLen.

Section patterns.
Import regexp.

(** A greedy [.+] before [$] takes the whole rest, which must not be
    empty. *)
Lemma run_value_end i name t :
  LF ∉ rest t →
  run (Concat (Capture i name (Plus true anyCharNotNL)) EndText) t =
    match rest t with
    | [] => []
    | _ :: _ =>
        [Thread (pos t + length (rest t)) []
                (<[i := Some (pos t, pos t + length (rest t))%nat]> (caps t))]
    end.
Proof.
  intros Hlf. cbn [run]. rewrite prefixLen_all by by apply anyCharNotNL_all.
  unfold spans. rewrite !flat_map_fmap.
  destruct (rest t) as [|c r] eqn:Er; [done|].
  cbn [length]. rewrite seq_S, rev_app_distr. cbn [rev app flat_map].
  rewrite flat_map_nil.
  - cbn [advance pos rest caps]. rewrite Er.
    rewrite drop_ge by (simpl; lia). cbn [length]. rewrite app_nil_r.
    do 3 f_equal.
  - intros j Hj. apply list_elem_of_In, in_rev, in_seq in Hj.
    cbn [advance pos rest caps]. rewrite Er.
    destruct (drop j (c :: r)) eqn:Ed; [|done].
    apply (f_equal length) in Ed. rewrite length_drop in Ed. simpl in Ed. lia.
Qed.

Lemma run_statusPattern p r cs :
  LF ∉ r →
  run statusPattern (Thread p r cs) =
    if statusHere r then
      [Thread (p + length r) []
              (<[2%nat := Some (p + 4, p + length r)%nat]>
                 (<[1%nat := Some (p, p + 3)%nat]> cs))]
    else [].
Proof.
  intros Hlf. unfold statusPattern.
  remember (Concat (Capture 2 _ _) EndText) as tail eqn:Htail.
  destruct r as [|d1 [|d2 [|d3 [|w [|m msg]]]]];
    cbn [run flat_map rest advance pos caps drop app map statusHere];
    repeat (case_match; cbn [run flat_map rest advance pos caps drop app map andb]);
    try done.
  all: subst tail; rewrite run_value_end;
    [|cbn [advance rest drop]; intros Hin; apply Hlf; by do 4 right].
  all: cbn [advance rest pos caps drop length app].
  1: done.
  replace (p + 1 + 1 + 1 + 1)%nat with (p + 4)%nat by lia.
  replace (p + 1 + 1 + 1)%nat with (p + 3)%nat by lia.
  replace (p + 4 + S (length msg))%nat with (p + S (S (S (S (S (length msg))))))%nat by lia.
  done.
Qed.
End patterns.

Section status.
Import regexp.

Lemma search_statusPattern p r :
  LF ∉ r →
  search statusPattern 3 p r =
    (λ k, ((p + k)%nat,
           Thread (p + length r) []
                  [None; Some (p + k, p + k + 3)%nat; Some (p + k + 4, p + length r)%nat]))
      <$> firstStatus r.
Proof.
  revert p. induction r as [|c r IH]; intros p Hlf.
  - cbn [search]. rewrite run_statusPattern by done. done.
  - cbn [search]. rewrite run_statusPattern by done.
    cbn [firstStatus].
    destruct (statusHere (c :: r)) eqn:E.
    + cbn. do 3 f_equal; [lia|]. repeat f_equal; lia.
    + rewrite IH by (intros Hin; apply Hlf; by right).
      destruct (firstStatus r) as [k|]; [|done].
      cbn. do 3 f_equal; [lia| |]; repeat f_equal; lia.
Qed.

Lemma FindStringSubmatch_statusPattern s :
  LF ∉ s →
  FindStringSubmatch statusPattern s =
    match firstStatus s with
    | Some k => [drop k s; take 3 (drop k s); drop (k + 4) s]
    | None => []
    end.
Proof.
  intros Hlf. unfold FindStringSubmatch.
  change (S (NumSubexp statusPattern)) with 3%nat.
  rewrite search_statusPattern by done.
  destruct (firstStatus s) as [k|]; [|done].
  cbn. unfold slice. f_equal; [|f_equal; [|f_equal]].
  - apply take_ge. rewrite length_drop. lia.
  - f_equal. lia.
  - apply take_ge. rewrite length_drop. lia.
Qed.

Lemma statusHere_iff r :
  statusHere r = true ↔
  ∃ code w msg, r = code ++ w :: msg ∧ length code = 3%nat ∧
                Forall (λ c, digit c = true) code ∧ perlSpace w = true ∧ msg ≠ [].
Proof.
  split.
  - destruct r as [|d1 [|d2 [|d3 [|w [|m msg]]]]]; try done. cbn [statusHere].
    intros H. do 3 (apply andb_prop in H as [H ?]).
    exists [d1; d2; d3], w, (m :: msg). split_and!; try done.
    by repeat constructor.
  - intros (code & w & msg & -> & Hlen & Hd & Hw & Hmsg).
    destruct code as [|d1 [|d2 [|d3 [|]]]]; try done.
    destruct msg as [|m msg]; [done|].
    apply Forall_cons in Hd as [H1 Hd]. apply Forall_cons in Hd as [H2 Hd].
    apply Forall_cons in Hd as [H3 _].
    cbn. by rewrite H1, H2, H3, Hw.
Qed.

Lemma firstStatus_Some r k :
  firstStatus r = Some k →
  statusHere (drop k r) = true ∧ ∀ k', (k' < k)%nat → statusHere (drop k' r) = false.
Proof.
  revert k. induction r as [|c r IH]; intros k; cbn [firstStatus].
  - destruct (statusHere []) eqn:E; [|done]. intros [= <-]. split; [done|lia].
  - destruct (statusHere (c :: r)) eqn:E.
    + intros [= <-]. split; [done|lia].
    + destruct (firstStatus r) as [k0|]; [|done]. intros [= <-].
      destruct (IH k0 eq_refl) as [H1 H2]. split; [done|].
      intros [|k'] Hk'; [done|]. apply H2. lia.
Qed.

Lemma firstStatus_None r k : firstStatus r = None → statusHere (drop k r) = false.
Proof.
  revert k. induction r as [|c r IH]; intros k; cbn [firstStatus].
  - by rewrite drop_nil.
  - destruct (statusHere (c :: r)) eqn:E; [done|].
    destruct (firstStatus r) as [k0|] eqn:E0; [done|]. intros _.
    destruct k as [|k]; [done|]. by apply IH.
Qed.
End status.

Section pair.
Import regexp.

Lemma run_pairPattern_pos t : pos t ≠ 0%nat → run pairPattern t = [].
Proof.
  intros Hp. unfold pairPattern. cbn [run].
  destruct (pos t =? 0)%nat eqn:E; [apply Nat.eqb_eq in E; lia | done].
Qed.

Lemma run_pairPattern s cs :
  LF ∉ s →
  run pairPattern (Thread 0 s cs) = flat_map (afterKey s cs) (seq 1 (length s)).
Proof.
  intros Hlf. unfold pairPattern.
  remember (Concat (Capture 2 _ _) EndText) as tail eqn:Htail.
  cbn [run pos rest Nat.eqb flat_map]. rewrite app_nil_r.
  rewrite prefixLen_all by by apply anyCharNotNL_all.
  unfold spans. rewrite !flat_map_fmap.
  apply flat_map_ext. intros j.
  cbn [advance pos rest caps]. unfold afterKey.
  destruct (drop j s) as [|c r] eqn:Ed; [done|].
  assert (length s = (j + S (length r))%nat) as Hlen.
  { apply (f_equal length) in Ed. rewrite length_drop in Ed. simpl in Ed.
    destruct (decide (j ≤ length s)%nat); lia. }
  destruct (lit ":"%char c); [|done].
  cbn [flat_map advance pos rest caps drop]. rewrite app_nil_r.
  rewrite !flat_map_fmap. apply flat_map_ext. intros w.
  subst tail. rewrite run_value_end.
  2:{ cbn [advance rest drop]. intros Hin. apply Hlf.
      apply (subseteq_drop j s). rewrite Ed. right.
      by apply (subseteq_drop w r). }
  cbn [advance rest pos caps drop Nat.add]. rewrite drop_0.
  destruct (drop w r) as [|c' r'] eqn:Ew; [done|].
  assert (length r = (w + S (length r'))%nat) as Hlen'.
  { apply (f_equal length) in Ew. rewrite length_drop in Ew. simpl in Ew.
    destruct (decide (w ≤ length r)%nat); lia. }
  rewrite Hlen, Hlen'.
  replace (j + 1 + w + length (c' :: r'))%nat with (j + S (w + S (length r')))%nat
    by (simpl; lia).
  done.
Qed.

Lemma search_pairPattern_pos p r : p ≠ 0%nat → search pairPattern 3 p r = None.
Proof.
  revert p. induction r as [|c r IH]; intros p Hp; cbn [search];
    rewrite run_pairPattern_pos by done; [done|]. apply IH. lia.
Qed.

Lemma seq_split a n l1 (x : nat) l2 :
  seq a n = l1 ++ x :: l2 → x = (a + length l1)%nat ∧ l1 = seq a (length l1).
Proof.
  revert a n. induction l1 as [|y l1 IH]; intros a n Hs.
  - destruct n; simplify_eq/=. split; [lia|done].
  - destruct n; simplify_eq/=. destruct (IH _ _ H0) as [-> <-].
    split; [lia|done].
Qed.

(** With the key [j] characters long, the rest matches exactly when a
    colon and white space follow, and the first thread gives all of
    the white space to the separator. *)
Lemma afterKey_spec s cs j :
  (∀ c, last s = Some c → perlSpace c = false) →
  let m := prefixLen perlSpace (drop (S j) s) in
  if decide (s !! j = Some ":"%char ∧ 1 ≤ m)%nat then
    (j + 1 + m < length s)%nat ∧
    head (afterKey s cs j) =
      Some (Thread (length s) []
              (<[2%nat := Some (j + 1 + m, length s)%nat]>
                 (<[1%nat := Some (0, j)%nat]> cs)))
  else afterKey s cs j = [].
Proof.
  intros Hlast m. unfold afterKey.
  destruct (drop j s) as [|c r] eqn:Ed.
  { rewrite decide_False; [done|]. intros [Hj _].
    apply lookup_lt_Some in Hj. apply (f_equal length) in Ed.
    rewrite length_drop in Ed. simpl in Ed. lia. }
  assert (s !! j = Some c) as Hc.
  { rewrite <- (Nat.add_0_r j), <- lookup_drop, Ed. done. }
  assert (drop (S j) s = r) as Hr.
  { replace (S j) with (j + 1)%nat by lia. rewrite <- drop_drop, Ed. done. }
  subst m. rewrite Hr. unfold lit.
  destruct (Ascii.eqb c ":"%char) eqn:Ec.
  2:{ rewrite decide_False; [done|]. intros [Hj _]. rewrite Hc in Hj.
      injection Hj as ->. by rewrite Ascii.eqb_refl in Ec. }
  apply Ascii.eqb_eq in Ec as ->.
  destruct (prefixLen perlSpace r) as [|m] eqn:Em.
  { rewrite decide_False by lia. done. }
  rewrite decide_True by (split; [done|lia]).
  assert (r ≠ []) as Hne by (intros ->; done).
  assert (S m < length r)%nat as Hlt.
  { rewrite <- Em. destruct (last r) as [c'|] eqn:El; [|by apply last_None in El].
    eapply prefixLen_lt_last; [done|]. apply Hlast.
    assert (s = take j s ++ ":"%char :: r) as Hs by (by rewrite <- Ed, take_drop).
    rewrite Hs, last_app_cons, last_cons, El. done. }
  assert (length s = (j + S (length r))%nat) as Hlen.
  { apply (f_equal length) in Ed. rewrite length_drop in Ed. simpl in Ed.
    destruct (decide (j ≤ length s)%nat); lia. }
  split; [lia|].
  rewrite seq_S, rev_app_distr. cbn [rev app flat_map].
  destruct (drop (1 + m) r) eqn:Ew.
  { apply (f_equal length) in Ew. rewrite length_drop in Ew. simpl in Ew. lia. }
  cbn [app head]. do 3 f_equal.
Qed.

Lemma search_unfold re n p r :
  search re n p r =
    match run re (Thread p r (replicate n None)) with
    | t :: _ => Some (p, t)
    | [] => match r with
            | [] => None
            | _ :: r' => search re n (S p) r'
            end
    end.
Proof. by destruct r. Qed.

(** The pair pattern on a line without line feed whose last character
    is no white space: the key ends at the first separator that leaves
    it non-empty, the separator takes all the white space, the value
    is the rest. *)
Lemma FindStringSubmatch_pairPattern s :
  LF ∉ s →
  (∀ c, last s = Some c → perlSpace c = false) →
  (FindStringSubmatch pairPattern s = [] ∧ ∀ j, (1 ≤ j)%nat → ¬ sepAt s j) ∨
  (∃ j, (1 ≤ j)%nat ∧ sepAt s j ∧ (∀ j', (1 ≤ j' < j)%nat → ¬ sepAt s j') ∧
        (j + 1 + prefixLen perlSpace (drop (S j) s) < length s)%nat ∧
        FindStringSubmatch pairPattern s =
          [s; take j s; drop (j + 1 + prefixLen perlSpace (drop (S j) s)) s]).
Proof.
  intros Hlf Hlast. unfold FindStringSubmatch.
  change (S (NumSubexp pairPattern)) with 3%nat.
  rewrite search_unfold, run_pairPattern by done.
  destruct (flat_map _ _) as [|t ts] eqn:Ef.
  - left. split.
    + destruct s as [|c s]; [done|]. by rewrite search_pairPattern_pos.
    + intros j Hj Hsep.
      assert (j < length s)%nat as Hjs by (destruct Hsep as [?%lookup_lt_Some _]; done).
      pose proof (flat_map_nil_inv _ _ j Ef) as Hnil.
      pose proof (afterKey_spec s (replicate 3 None) j Hlast) as Hspec.
      cbn zeta in Hspec. rewrite decide_True in Hspec by done.
      destruct Hspec as [_ Hhd]. rewrite Hnil in Hhd; [done|].
      apply list_elem_of_In, in_seq. lia.
  - right.
    assert (head (flat_map (afterKey s (replicate 3 None)) (seq 1 (length s))) = Some t)
      as Hhd by (by rewrite Ef).
    apply head_flat_map in Hhd as (l1 & j & l2 & Hseq & Hl1 & Hj).
    pose proof (seq_split _ _ _ _ _ Hseq) as [Hjeq Hl1eq].
    pose proof (afterKey_spec s (replicate 3 None) j Hlast) as Hspec.
    cbn zeta in Hspec.
    destruct (decide (s !! j = Some ":"%char ∧
                      (1 ≤ prefixLen perlSpace (drop (S j) s))%nat)) as [Hsep|Hsep].
    2:{ rewrite Hspec in Hj. done. }
    destruct Hspec as [Hlt Hhd]. rewrite Hhd in Hj. injection Hj as <-.
    exists j. split_and!; [lia|done| |done|].
    + intros j' Hj' Hsep'.
      pose proof (afterKey_spec s (replicate 3 None) j' Hlast) as Hspec'.
      cbn zeta in Hspec'. rewrite decide_True in Hspec' by done.
      destruct Hspec' as [_ Hhd']. rewrite Hl1 in Hhd'; [done|].
      rewrite Hl1eq. apply list_elem_of_In, in_seq. lia.
    + cbn. unfold slice. f_equal; [|f_equal; [|f_equal]].
      * rewrite drop_0. apply take_ge. lia.
      * rewrite drop_0. f_equal. lia.
      * apply take_ge. rewrite length_drop. lia.
Qed.
End pair.

(** ** Lines of the input *)

Lemma splitLines_no_LF s : LF ∉ s → splitLines s = ([], s).
Proof.
  induction s as [|c s IH]; intros Hs; simpl; [done|].
  rewrite IH by (intros ?; apply Hs; by right).
  destruct (Ascii.eqb c LF) eqn:E; [|done].
  apply Ascii.eqb_eq in E as ->. exfalso. apply Hs. by left.
Qed.

(** A line feed completes the unterminated rest. *)
Lemma splitLines_app_LF a s :
  splitLines (a ++ LF :: s) =
    ((splitLines a).1 ++ (splitLines a).2 :: (splitLines s).1, (splitLines s).2).
Proof.
  induction a as [|c a IH]; simpl.
  - by destruct (splitLines s).
  - rewrite IH. destruct (splitLines a) as [ls rest]. simpl.
    destruct (Ascii.eqb c LF); [done|]. by destruct ls.
Qed.

Lemma splitLines_lines_no_LF s l : l ∈ (splitLines s).1 → LF ∉ l.
Proof.
  revert l. induction s as [|c s IH]; intros l; simpl; [by intros ?%elem_of_nil|].
  destruct (splitLines s) as [ls rest]. simpl in IH.
  destruct (Ascii.eqb c LF) eqn:E; simpl.
  - intros [->|Hl]%elem_of_cons; [by intros ?%elem_of_nil | by apply IH].
  - destruct ls as [|l0 ls]; simpl; [by intros ?%elem_of_nil|].
    intros [->|Hl]%elem_of_cons.
    + intros [Hc|Hin]%elem_of_cons.
      * subst c. vm_compute in E. discriminate.
      * revert Hin. apply IH. by left.
    + apply IH. by right.
Qed.

(** The input before an unterminated last line has the same lines. *)
Lemma retainedLines_partial pre partial :
  pre = [] ∨ last pre = Some LF → LF ∉ partial →
  retainedLines (pre ++ partial) = retainedLines pre.
Proof.
  intros Hpre Hp. unfold retainedLines.
  destruct Hpre as [->|(pre0 & ->)%last_Some].
  - simpl. by rewrite splitLines_no_LF.
  - rewrite <- app_assoc. simpl. rewrite !splitLines_app_LF.
    rewrite (splitLines_no_LF partial) by done. done.
Qed.

(** A line that trims to fewer than four bytes is not retained. *)
Lemma retainedLines_short pre line post :
  pre = [] ∨ last pre = Some LF → LF ∉ line → (length (trimLine line) < 4)%nat →
  retainedLines (pre ++ line ++ [LF] ++ post) = retainedLines (pre ++ post).
Proof.
  intros Hpre Hl Hshort.
  assert (retainedLines (line ++ LF :: post) = retainedLines post) as Hline.
  { unfold retainedLines. rewrite splitLines_app_LF, splitLines_no_LF by done.
    simpl. rewrite filter_cons_False by lia. done. }
  destruct Hpre as [->|(pre0 & ->)%last_Some]; [done|].
  rewrite <- !app_assoc. simpl. unfold retainedLines in *.
  rewrite (splitLines_app_LF pre0 (line ++ LF :: post)), (splitLines_app_LF pre0 post).
  simpl. rewrite !fmap_app, !fmap_cons, !filter_app, !filter_cons.
  simpl in Hline. rewrite Hline. done.
Qed.

(** What a retained line is. *)
Lemma retainedLines_elem input l :
  l ∈ retainedLines input →
  (4 ≤ length l)%nat ∧ (LF ∉ l) ∧ (∀ c, last l = Some c → regexp.perlSpace c = false).
Proof.
  unfold retainedLines. intros [Hlen Hin]%list_elem_of_filter.
  apply list_elem_of_fmap in Hin as (l0 & -> & Hl0).
  split_and!; [done| |apply trimLine_last].
  apply trimLine_no_LF. by eapply splitLines_lines_no_LF.
Qed.

(** ** The converter depends on its input through the retained lines *)
Section lines.
Context `{CaseTables} `{Runtime}.

Lemma createSenders_lines c1 c2 :
  outputFormat c1 = outputFormat c2 → numWorker c1 = numWorker c2 →
  ∀ r1 r2, retainedLines r1 = retainedLines r2 →
  createSenders c1 r1 = createSenders c2 r2.
Proof.
  intros Hf Hn r1 r2 Hr. unfold createSenders. rewrite Hn.
  destruct (makechan (numWorker c2)); [done|].
  rewrite !sendLoop_streams by lia. rewrite Hr.
  assert (∀ f ls, streams c1 f ls = streams c2 f ls) as Hs.
  { intros f ls. revert f. induction ls as [|l ls IH]; intros f; simpl; [done|].
    rewrite IH. unfold classOf, statusRecord, pairRecord, recordKey. by rewrite Hf. }
  by rewrite Hs.
Qed.

Lemma convert_lines c1 c2 :
  outputFormat c1 = outputFormat c2 → numWorker c1 = numWorker c2 →
  retainedLines (rawHeader c1) = retainedLines (rawHeader c2) →
  convert c1 = convert c2.
Proof.
  intros Hf Hn Hr. unfold convert, bufio.NewReader.
  by rewrite (createSenders_lines c1 c2 Hf Hn _ _ Hr).
Qed.

Lemma OutputWith_lines marshal c1 c2 :
  outputFormat c1 = outputFormat c2 → numWorker c1 = numWorker c2 →
  retainedLines (rawHeader c1) = retainedLines (rawHeader c2) →
  OutputWith marshal c1 = OutputWith marshal c2.
Proof.
  intros Hf Hn Hr. unfold OutputWith.
  by rewrite (convert_lines c1 c2 Hf Hn Hr), Hf.
Qed.
End lines.

(** * The claims *)

(** C1. Reading the three lines [HTTP/1.1 200 OK],
    [Content-Type: text/html] and [X-Cache: HIT], each ended by a line
    feed, [Output] returns the string
    [{"code":"200","contentType":"text/html","xCache":"HIT"}] and a nil
    error, whatever the Unicode tables, for every number of CPUs for
    which the runtime makes the two channels. *)
Theorem Output_scenario `{CaseTables} `{Runtime} (numCPU : Z) :
  makechan numCPU = None →
  Output (NewHttpHeaderConverter scenarioInput numCPU) = Done (scenarioOutput, None).
Proof.
  intros Hn. unfold Output. rewrite OutputWith_eq by done.
  vm_compute. reflexivity.
Qed.

Lemma Output_scenario_witness :
  @Output noCaseTables runtime64 (NewHttpHeaderConverter scenarioInput 4) = Done (scenarioOutput, None).
Proof. apply (@Output_scenario noCaseTables runtime64 4). reflexivity. Defined.

(** C10. For every input, [Output] returns a nil error: [convert]
    returns a nil error, [createJsonKey] returns a nil error, whatever
    the serializer returns as its error is dropped, and [main] never
    takes its failure branch: it ends with status 0 after printing the
    result.  The converter is any one for whose channel capacity the
    runtime makes the channels, as for the number of CPUs that
    [NewHttpHeaderConverter] takes. *)
Theorem Output_error_nil `{CaseTables} `{Runtime} (conv : HttpHeaderConverter) :
  makechan (numWorker conv) = None →
  (∃ resp, Output conv = Done (resp, None)) ∧
  (∃ converted notConverted, convert conv = Done (converted, notConverted, None)) ∧
  (∀ key, ∃ k, createJsonKey conv key = Done (k, None)) ∧
  (∀ marshal, ∃ resp, OutputWith marshal conv = Done (resp, None)) ∧
  (∀ stdin numCPU, makechan numCPU = None → ∃ resp, main stdin numCPU = Done (0%Z, resp ++ [LF])).
Proof.
  intros Hn. split_and!.
  - eexists. unfold Output. by apply OutputWith_eq.
  - do 2 eexists. by apply convert_eq.
  - intros key. eexists. apply createJsonKey_jsonKey.
  - intros marshal. eexists. by apply OutputWith_eq.
  - intros stdin numCPU HnumCPU. eexists. unfold main, Output.
    rewrite OutputWith_eq by done. reflexivity.
Qed.

Lemma Output_error_nil_witness :
  (∃ resp, @Output noCaseTables runtime64 (NewHttpHeaderConverter scenarioInput 4) = Done (resp, None)) ∧
  (∃ resp, @main noCaseTables runtime64 scenarioInput 4 = Done (0%Z, resp ++ [LF])).
Proof.
  destruct (@Output_error_nil noCaseTables runtime64 (NewHttpHeaderConverter scenarioInput 4))
    as (H1 & _ & _ & _ & H5); [reflexivity|].
  split; [exact H1 | apply H5; reflexivity].
Defined.

(** C9. A last line without line feed is discarded: reading it,
    [ReadString] returns the end-of-file error with the line, the loop
    breaks, and [convert] and [Output] return what they return for the
    input without that line. *)
Theorem unterminated_line_discarded `{CaseTables} `{Runtime} (conv : HttpHeaderConverter)
    (pre partial : gostring) :
  pre = [] ∨ last pre = Some LF →
  LF ∉ partial →
  bufio.ReadString partial LF = (partial, Some bufio.EOF, []) ∧
  convert (SetRawHeader conv (pre ++ partial)) = convert (SetRawHeader conv pre) ∧
  Output (SetRawHeader conv (pre ++ partial)) = Output (SetRawHeader conv pre).
Proof.
  intros Hpre Hp. split_and!.
  - pose proof (ReadString_splitLines partial) as Hrs.
    rewrite splitLines_no_LF in Hrs by done. by destruct Hrs.
  - apply convert_lines; [done..|]. simpl. by apply retainedLines_partial.
  - apply OutputWith_lines; [done..|]. simpl. by apply retainedLines_partial.
Qed.

Lemma unterminated_line_discarded_witness :
  @Output noCaseTables runtime64
     (SetRawHeader (NewHttpHeaderConverter [] 4) (ln "Server: nginx" ++ bytes "X-Cache: HIT"))
  = @Output noCaseTables runtime64 (SetRawHeader (NewHttpHeaderConverter [] 4) (ln "Server: nginx")).
Proof.
  apply (@unterminated_line_discarded noCaseTables runtime64 (NewHttpHeaderConverter [] 4)
           (ln "Server: nginx") (bytes "X-Cache: HIT")).
  - right. reflexivity.
  - vm_compute. intros Hin. repeat (apply elem_of_cons in Hin as [Hin|Hin]; [discriminate|]).
    by apply elem_of_nil in Hin.
Defined.

(** C6, counterexample: the line of the two characters U+00E9 U+00E9 is
    four bytes long; it is retained and ends in the raw lines. *)
Lemma short_in_characters_retained :
  utf8.RuneCountInString (strings.TrimRightFunc (eacute ++ eacute ++ [LF]) unicode.IsSpace)
    = 2%nat ∧
  @convert noCaseTables runtime64 (NewHttpHeaderConverter (eacute ++ eacute ++ [LF]) 4)
    = Done (∅, [eacute ++ eacute], None).
Proof. split; vm_compute; reflexivity. Qed.

(** C6, amended. A line whose length in bytes after stripping trailing
    white space is less than four is dropped: [convert] and [Output]
    return what they return for the input without that line, so it adds
    nothing to the mapping nor to the raw lines. *)
Theorem short_line_dropped `{CaseTables} `{Runtime} (conv : HttpHeaderConverter)
    (pre line post : gostring) :
  pre = [] ∨ last pre = Some LF →
  LF ∉ line →
  (length (strings.TrimRightFunc (line ++ [LF]) unicode.IsSpace) < 4)%nat →
  convert (SetRawHeader conv (pre ++ line ++ [LF] ++ post))
    = convert (SetRawHeader conv (pre ++ post)) ∧
  Output (SetRawHeader conv (pre ++ line ++ [LF] ++ post))
    = Output (SetRawHeader conv (pre ++ post)).
Proof.
  intros Hpre Hl Hshort. split.
  - apply convert_lines; [done..|]. simpl. by apply retainedLines_short.
  - apply OutputWith_lines; [done..|]. simpl. by apply retainedLines_short.
Qed.

Lemma notin_dec (c : ascii) (s : gostring) : bool_decide (c ∉ s) = true → c ∉ s.
Proof. apply bool_decide_eq_true. Qed.

Lemma short_line_dropped_witness :
  @Output noCaseTables runtime64
     (SetRawHeader (NewHttpHeaderConverter [] 4)
        (ln "Server: nginx" ++ bytes "a:b  " ++ [LF] ++ ln "X-Cache: HIT"))
  = @Output noCaseTables runtime64
     (SetRawHeader (NewHttpHeaderConverter [] 4) (ln "Server: nginx" ++ ln "X-Cache: HIT")).
Proof.
  apply (@short_line_dropped noCaseTables runtime64 (NewHttpHeaderConverter [] 4)
           (ln "Server: nginx") (bytes "a:b  ") (ln "X-Cache: HIT")).
  - right. reflexivity.
  - apply notin_dec. vm_compute. reflexivity.
  - vm_compute. lia.
Defined.

(** ** The receiver's mapping *)

Lemma foldl_insertRecord_ne cs m k :
  (∀ r, r ∈ cs → head r ≠ Some k) →
  foldl insertRecord m cs !! k = m !! k.
Proof.
  revert m. induction cs as [|r cs IH]; intros m Hcs; simpl; [done|].
  rewrite IH by (intros r' Hr'; apply Hcs; by right).
  assert (head r ≠ Some k) as Hr by (apply Hcs; by left).
  destruct r as [|k' [|v r]]; simpl; try done.
  apply lookup_insert_ne. simpl in Hr. congruence.
Qed.

Lemma foldl_insertRecord_last cs1 k v cs2 m :
  (∀ r, r ∈ cs2 → head r ≠ Some k) →
  foldl insertRecord m (cs1 ++ [k; v] :: cs2) !! k = Some (json.IString v).
Proof.
  intros Hcs2. rewrite foldl_app. simpl.
  rewrite foldl_insertRecord_ne by done. apply lookup_insert_eq.
Qed.

(** Every entry of the mapping comes from a record. *)
Lemma foldl_insertRecord_entry cs m k x :
  Forall (λ s, length s = 2%nat) cs →
  foldl insertRecord m cs !! k = Some x →
  m !! k = Some x ∨ ∃ v, x = json.IString v ∧ [k; v] ∈ cs.
Proof.
  revert m. induction cs as [|r cs IH]; intros m Hlen; simpl; [auto|].
  apply Forall_cons in Hlen as [Hr Hlen].
  destruct r as [|k' [|v [|]]]; try done. simpl.
  intros Hx. destruct (IH _ Hlen Hx) as [Hm|(v' & -> & Hin)].
  - destruct (decide (k' = k)) as [->|Hne].
    + rewrite lookup_insert_eq in Hm. simplify_eq. right. exists v. split; [done|by left].
    + rewrite lookup_insert_ne in Hm by done. by left.
  - right. exists v'. split; [done|by right].
Qed.

Lemma filter_none {A} (P : A → Prop) `{∀ x, Decision (P x)} (l : list A) :
  (∀ x, x ∈ l → ¬ P x) → filter P l = [].
Proof.
  induction l as [|a l IH]; intros Hl; [done|].
  rewrite filter_cons_False by (apply Hl; by left).
  apply IH. intros x Hx. apply Hl. by right.
Qed.

Lemma filter_key_unique (l : list (gostring * json.interface)) k v :
  NoDup l.*1 → (k, v) ∈ l → filter (λ kv, kv.1 = k) l = [(k, v)].
Proof.
  induction l as [|[k' v'] l IH]; intros Hnd Hin; [by apply elem_of_nil in Hin|].
  simpl in Hnd. apply NoDup_cons in Hnd as [Hk' Hnd].
  apply elem_of_cons in Hin as [[= <- <-]|Hin].
  - rewrite filter_cons_True by done. f_equal.
    apply filter_none. intros [k2 v2] Hin2 Hk2. simpl in Hk2. subst k2.
    apply Hk'. apply list_elem_of_fmap. by exists (k, v2).
  - rewrite filter_cons_False; [by apply IH|].
    simpl. intros ->. apply Hk'. apply list_elem_of_fmap. by exists (k, v).
Qed.

(** C7, counterexample: the records of the lines [Raw: a] and [Raw: b]
    carry the key [raw], and a third line fails classification: the
    final mapping, which [Output] serializes, holds under [raw] the
    array of the failed lines and not the value [b] of the later
    record. *)
Lemma raw_record_overwritten :
  @createSenders noCaseTables runtime64 (NewHttpHeaderConverter rawTwiceInput 4)
     (bufio.NewReader rawTwiceInput)
    = Done ([[bytes "raw"; bytes "a"]; [bytes "raw"; bytes "b"]],
            [[bytes "bad line here"]], None) ∧
  @finalMapping noCaseTables (NewHttpHeaderConverter rawTwiceInput 4) !! bytes "raw"
    = Some (json.IStrings [bytes "bad line here"]) ∧
  @finalMapping noCaseTables (NewHttpHeaderConverter rawTwiceInput 4) !! bytes "raw"
    ≠ Some (json.IString (bytes "b")) ∧
  @Output noCaseTables runtime64 (NewHttpHeaderConverter rawTwiceInput 4)
    = Done (bytes "{" ++ quoted "raw" ++ bytes ":[" ++ quoted "bad line here" ++ bytes "]}",
            None).
Proof. split_and!; [vm_compute; reflexivity..|vm_compute; discriminate|vm_compute; reflexivity]. Qed.

(** C7, amended. If two records of the converted stream carry the same
    key, the mapping [convert] builds has one entry for that key, and
    its value is the value of the record that comes last in the stream.
    The final mapping, which [Output] serializes, has the same single
    entry, except when the key is [raw] ([Raw] for another format) and
    at least one retained line failed classification: its entry for
    that key is then the array of those lines. *)
Theorem last_write_wins `{CaseTables} `{Runtime} (conv : HttpHeaderConverter) :
  makechan (numWorker conv) = None →
  ∃ cs ncs converted notConverted,
    createSenders conv (bufio.NewReader (rawHeader conv)) = Done (cs, ncs, None) ∧
    convert conv = Done (converted, notConverted, None) ∧
    (∀ marshal, OutputWith marshal conv = Done ((marshal (finalMapping conv)).1, None)) ∧
    ∀ (i j : nat) (k v1 v2 : gostring),
      (i < j)%nat → cs !! i = Some [k; v1] → cs !! j = Some [k; v2] →
      (∀ (j' : nat) v', (j < j')%nat → cs !! j' ≠ Some [k; v']) →
      (converted !! k = Some (json.IString v2) ∧
       filter (λ kv, kv.1 = k) (map_to_list converted) = [(k, json.IString v2)]) ∧
      (notConverted = [] ∨
       k ≠ (if (outputFormat conv =? JsonFormat)%Z then bytes "raw" else bytes "Raw") →
       finalMapping conv !! k = Some (json.IString v2) ∧
       filter (λ kv, kv.1 = k) (map_to_list (finalMapping conv)) = [(k, json.IString v2)]) ∧
      (notConverted ≠ [] →
       k = (if (outputFormat conv =? JsonFormat)%Z then bytes "raw" else bytes "Raw") →
       finalMapping conv !! k = Some (json.IStrings notConverted) ∧
       filter (λ kv, kv.1 = k) (map_to_list (finalMapping conv))
         = [(k, json.IStrings notConverted)]).
Proof.
  intros Hn. do 4 eexists. split_and!.
  - by apply createSenders_streams.
  - by apply convert_eq.
  - intros marshal. by apply OutputWith_eq.
  - intros i j k v1 v2 Hij Hi Hj Hlast.
    destruct (streams_shape conv true (retainedLines (rawHeader conv))) as [Hshape _].
    unfold bufio.NewReader in *.
    set (cs := (streams conv true (retainedLines (rawHeader conv))).1) in *.
    assert (convertedOf conv !! k = Some (json.IString v2)) as Hk.
    { unfold convertedOf, recordsOf. fold cs.
      rewrite <- (take_drop_middle cs j [k; v2]) by done.
      apply foldl_insertRecord_last.
      intros r Hr Hhd. apply list_elem_of_lookup in Hr as [d Hd].
      rewrite lookup_drop in Hd.
      assert (length r = 2%nat) as Hlen.
      { rewrite Forall_lookup in Hshape. by eapply Hshape. }
      destruct r as [|k' [|v' [|]]]; try done. simpl in Hhd. injection Hhd as ->.
      by eapply (Hlast (S j + d)%nat v'); [lia|]. }
    assert (∀ (m : gmap gostring json.interface) x,
              m !! k = Some x → filter (λ kv, kv.1 = k) (map_to_list m) = [(k, x)]) as Hone.
    { intros m x Hm. apply filter_key_unique; [apply NoDup_fst_map_to_list|].
      by apply elem_of_map_to_list. }
    split_and!.
    + done.
    + by apply Hone.
    + intros Hother.
      assert (finalMapping conv !! k = Some (json.IString v2)) as Hf; [|by split; [|apply Hone]].
      unfold finalMapping.
      destruct (0 <? length (rawLinesOf conv))%nat eqn:Hlen; [|done].
      destruct Hother as [Hnil|Hne]; [by rewrite Hnil in Hlen|].
      by rewrite lookup_insert_ne.
    + intros Hsome ->.
      assert (finalMapping conv
                !! (if (outputFormat conv =? JsonFormat)%Z then bytes "raw" else bytes "Raw")
              = Some (json.IStrings (rawLinesOf conv))) as Hf; [|by split; [|apply Hone]].
      unfold finalMapping.
      destruct (0 <? length (rawLinesOf conv))%nat eqn:Hlen; [by apply lookup_insert_eq|].
      by destruct (rawLinesOf conv).
Qed.

Lemma last_write_wins_witness :
  ∃ converted notConverted,
    @convert noCaseTables runtime64 (NewHttpHeaderConverter twiceInput 4)
       = Done (converted, notConverted, None) ∧
    converted !! bytes "xCache" = Some (json.IString (bytes "HIT")) ∧
    @finalMapping noCaseTables (NewHttpHeaderConverter twiceInput 4) !! bytes "xCache"
      = Some (json.IString (bytes "HIT")).
Proof.
  destruct (@last_write_wins noCaseTables runtime64 (NewHttpHeaderConverter twiceInput 4))
    as (cs & ncs & converted & notConverted & Hcs & Hconv & _ & Hlast); [reflexivity|].
  vm_compute in Hcs. injection Hcs as <- <-.
  exists converted, notConverted. split; [exact Hconv|].
  destruct (Hlast 0%nat 2%nat (bytes "xCache") (bytes "MISS") (bytes "HIT"))
    as ([Hc _] & Hf & _); [lia | reflexivity | reflexivity | |].
  - intros j' v' Hj'. destruct j' as [|[|[|j']]]; try lia. discriminate.
  - split; [exact Hc|]. apply Hf. right. discriminate.
Defined.

(** The scenario of the two values: the later one is kept. *)
Example last_write_wins_example :
  ∃ converted,
    @convert noCaseTables runtime64 (NewHttpHeaderConverter twiceInput 4) = Done (converted, [], None) ∧
    converted !! bytes "xCache" = Some (json.IString (bytes "HIT")) ∧
    size converted = 2%nat.
Proof. eexists. split_and!; vm_compute; reflexivity. Qed.

(** ** Raw lines and keys of the final mapping *)
Section raw.
Context `{CaseTables} `{Runtime}.

Lemma rejects_parseStatus conv l stream :
  rejects (parseStatus conv l stream) =
    match statusRecord conv l with Some _ => false | None => true end.
Proof. rewrite parseStatus_record. by destruct (statusRecord conv l). Qed.

Lemma rejects_parsePair conv l stream :
  l ≠ [] →
  rejects (parsePair conv l stream) =
    match pairRecord conv l with Some _ => false | None => true end.
Proof. intros Hl. rewrite parsePair_record by done. by destruct (pairRecord conv l). Qed.

Lemma streams_raw_pairs conv ls :
  Forall (λ l, l ≠ []) ls →
  concat (streams conv false ls).2 = filter (λ l, rejects (parsePair conv l []) = true) ls.
Proof.
  induction 1 as [|l ls Hl _ IH]; [done|]. cbn [streams].
  destruct (streams conv false ls) as [cs ncs]. simpl in IH.
  unfold classOf. rewrite filter_cons, (rejects_parsePair _ _ _ Hl).
  destruct (pairRecord conv l); simpl; by rewrite IH.
Qed.

Lemma streams_raw conv ls :
  Forall (λ l, l ≠ []) ls →
  concat (streams conv true ls).2 = failedLines conv ls.
Proof.
  intros Hls. destruct ls as [|l ls]; [done|].
  apply Forall_cons in Hls as [Hl Hls]. cbn [streams failedLines].
  pose proof (streams_raw_pairs conv ls Hls) as Hrest.
  destruct (streams conv false ls) as [cs ncs]. simpl in Hrest.
  unfold classOf. rewrite rejects_parseStatus, (rejects_parsePair _ _ _ Hl).
  destruct (statusRecord conv l); simpl; [done|].
  destruct (pairRecord conv l); simpl; by rewrite Hrest.
Qed.

Lemma retainedLines_nonempty input : Forall (λ l, l ≠ []) (retainedLines input).
Proof.
  apply Forall_forall. intros l [Hlen _]%retainedLines_elem ->. simpl in Hlen. lia.
Qed.

(** Where a record of the converted stream comes from. *)
Lemma streams_record conv f ls r :
  r ∈ (streams conv f ls).1 →
  (∃ l, l ∈ ls ∧ statusRecord conv l = Some r) ∨
  (∃ l, l ∈ ls ∧ pairRecord conv l = Some r).
Proof.
  revert f. induction ls as [|l ls IH]; intros f; cbn [streams].
  { by intros ?%elem_of_nil. }
  specialize (IH false). destruct (streams conv false ls) as [cs ncs]. simpl in IH.
  assert (r ∈ cs →
          (∃ l0, l0 ∈ l :: ls ∧ statusRecord conv l0 = Some r) ∨
          (∃ l0, l0 ∈ l :: ls ∧ pairRecord conv l0 = Some r)) as Hrest.
  { intros Hr. destruct (IH Hr) as [(l0 & ? & ?)|(l0 & ? & ?)];
      [left|right]; exists l0; split; auto; by right. }
  unfold classOf.
  destruct (if f then statusRecord conv l else None) as [r0|] eqn:Es.
  - simpl. intros [->|Hr]%elem_of_cons; [|by apply Hrest].
    destruct f; [|done]. left. exists l. split; [by left|done].
  - destruct (pairRecord conv l) as [r0|] eqn:Ep; simpl; [|by apply Hrest].
    intros [->|Hr]%elem_of_cons; [|by apply Hrest].
    right. exists l. split; [by left|done].
Qed.
End raw.

(** C5, counterexample: the input [Raw: hello] has no line that fails
    classification, and the final mapping has the key [raw] all the
    same, with the header's value: [Output] returns [{"raw":"hello"}]. *)
Lemma raw_key_without_failed_line :
  @failedLines noCaseTables (NewHttpHeaderConverter rawHeaderInput 4)
     (retainedLines rawHeaderInput) = [] ∧
  @finalMapping noCaseTables (NewHttpHeaderConverter rawHeaderInput 4) !! bytes "raw"
    = Some (json.IString (bytes "hello")) ∧
  @Output noCaseTables runtime64 (NewHttpHeaderConverter rawHeaderInput 4)
    = Done (bytes "{" ++ quoted "raw" ++ bytes ":" ++ quoted "hello" ++ bytes "}", None).
Proof. split_and!; vm_compute; reflexivity. Qed.

(** C5, amended. [notConverted] is the list of the retained lines that
    failed classification, in input order.  If it is not empty, the
    final mapping has the key [raw] with that list as its value; if it
    is empty, the final mapping is the mapping of the records, in which
    [raw] is a key only when a header's key normalizes to [raw].  Every
    entry of the mapping of the records is the key and value of a
    record, and every key of the final mapping is [code], [raw] or the
    normalized key of a pair found in a retained line. *)
Theorem raw_key_and_keys `{CaseTables} `{Runtime} (conv : HttpHeaderConverter) :
  outputFormat conv = JsonFormat →
  makechan (numWorker conv) = None →
  ∃ cs ncs converted notConverted,
    createSenders conv (bufio.NewReader (rawHeader conv)) = Done (cs, ncs, None) ∧
    convert conv = Done (converted, notConverted, None) ∧
    (∀ marshal, OutputWith marshal conv = Done ((marshal (finalMapping conv)).1, None)) ∧
    notConverted = failedLines conv (retainedLines (rawHeader conv)) ∧
    (notConverted ≠ [] →
     finalMapping conv !! bytes "raw" = Some (json.IStrings notConverted)) ∧
    (notConverted = [] → finalMapping conv = converted) ∧
    (∀ k x, converted !! k = Some x → ∃ v, x = json.IString v ∧ [k; v] ∈ cs) ∧
    (∀ k, is_Some (finalMapping conv !! k) →
          k = bytes "code" ∨ k = bytes "raw" ∨
          ∃ line g0 key value,
            line ∈ retainedLines (rawHeader conv) ∧
            regexp.FindStringSubmatch pairPattern line = [g0; key; value] ∧
            createJsonKey conv key = Done (k, None)).
Proof.
  intros Hfmt Hn. do 4 eexists.
  destruct (streams_shape conv true (retainedLines (rawHeader conv))) as [Hshape _].
  assert (∀ k x, convertedOf conv !! k = Some x →
                 ∃ v, x = json.IString v ∧ [k; v] ∈ recordsOf conv) as Hentry.
  { intros k x Hx. unfold convertedOf in Hx.
    apply foldl_insertRecord_entry in Hx as [Hx|Hx]; [|done|done].
    by rewrite lookup_empty in Hx. }
  split_and!.
  - by apply createSenders_streams.
  - by apply convert_eq.
  - intros marshal. by apply OutputWith_eq.
  - unfold rawLinesOf. apply streams_raw, retainedLines_nonempty.
  - intros Hne. unfold finalMapping. rewrite Hfmt.
    destruct (rawLinesOf conv) as [|l ls]; [done|]. simpl. apply lookup_insert_eq.
  - intros Hnil. unfold finalMapping. by rewrite Hnil.
  - exact Hentry.
  - intros k [x Hx]. unfold finalMapping in Hx. rewrite Hfmt in Hx.
    assert (convertedOf conv !! k = Some x → k = bytes "code" ∨ k = bytes "raw" ∨
            ∃ line g0 key value,
              line ∈ retainedLines (rawHeader conv) ∧
              regexp.FindStringSubmatch pairPattern line = [g0; key; value] ∧
              createJsonKey conv key = Done (k, None)) as Hconv.
    { intros Hk. destruct (Hentry _ _ Hk) as (v & -> & Hin).
      apply streams_record in Hin as [(l & Hl & Hs)|(l & Hl & Hp)].
      - left. unfold statusRecord in Hs. rewrite Hfmt in Hs.
        repeat case_match; by simplify_eq.
      - right. right. unfold pairRecord, recordKey in Hp. rewrite Hfmt in Hp.
        destruct (decide (head l = Some " "%char)); [done|].
        destruct (regexp.FindStringSubmatch pairPattern l)
          as [|g0 [|key [|value [|]]]] eqn:Eg; try done.
        simpl in Hp. simplify_eq. exists l, g0, key, v.
        split_and!; [done|done|apply createJsonKey_jsonKey]. }
    destruct (0 <? length (rawLinesOf conv))%nat; [|by apply Hconv].
    destruct (decide (k = bytes "raw")) as [->|Hne]; [by auto|].
    simpl in Hx. rewrite lookup_insert_ne in Hx by done. by apply Hconv.
Qed.

Lemma raw_key_and_keys_witness :
  ∃ converted notConverted,
    @convert noCaseTables runtime64 (NewHttpHeaderConverter malformedInput 4)
      = Done (converted, notConverted, None) ∧
    notConverted = [bytes "not a real header line that is long enough"] ∧
    @finalMapping noCaseTables (NewHttpHeaderConverter malformedInput 4) !! bytes "raw"
      = Some (json.IStrings notConverted).
Proof.
  destruct (@raw_key_and_keys noCaseTables runtime64 (NewHttpHeaderConverter malformedInput 4))
    as (cs & ncs & converted & notConverted & _ & Hconv & _ & Hraw & Hkey & _);
    [reflexivity | reflexivity |].
  exists converted, notConverted.
  assert (notConverted = [bytes "not a real header line that is long enough"]) as Hnc.
  { rewrite Hraw. vm_compute. reflexivity. }
  split_and!; [exact Hconv | exact Hnc |].
  apply Hkey. rewrite Hnc. discriminate.
Defined.

(** ** The status line *)
Section status_line.
Context `{CaseTables} `{Runtime}.

Lemma foldl_pairStep conv ls st :
  Forall (λ l, l ≠ []) ls →
  foldl (pairStep conv) st ls =
    (st.1 ++ (streams conv false ls).1, st.2 ++ (streams conv false ls).2).
Proof.
  intros Hls. revert st. induction Hls as [|l ls Hl _ IH]; intros [cs ncs]; simpl.
  { by rewrite !app_nil_r. }
  rewrite IH. unfold pairStep, classOf. rewrite parsePair_record by done.
  destruct (streams conv false ls) as [a b].
  destruct (pairRecord conv l); simpl; unfold send; by rewrite <- !app_assoc.
Qed.

Lemma streams_steps conv ls :
  Forall (λ l, l ≠ []) ls →
  streams conv true ls =
    match ls with
    | [] => ([], [])
    | l :: ls' => foldl (pairStep conv) (firstStep conv l) ls'
    end.
Proof.
  intros Hls. destruct ls as [|l ls]; [done|].
  apply Forall_cons in Hls as [Hl Hls].
  rewrite foldl_pairStep by done. cbn [streams].
  destruct (streams conv false ls) as [a b].
  unfold firstStep, pairStep, classOf.
  rewrite parseStatus_record, parsePair_record by done.
  destruct (statusRecord conv l); simpl; [done|].
  destruct (pairRecord conv l); done.
Qed.

(** The status pattern on a line without line feed: it finds nothing
    when the line has no three digits, white space and rest, and
    otherwise finds the leftmost ones. *)
Lemma statusPattern_line l :
  LF ∉ l →
  (regexp.FindStringSubmatch statusPattern l = [] ∧
   ∀ pre code w msg, ¬ statusSplit l pre code w msg) ∨
  (∃ pre code w msg,
     statusSplit l pre code w msg ∧
     (∀ pre' code' w' msg', statusSplit l pre' code' w' msg' →
                             (length pre ≤ length pre')%nat) ∧
     regexp.FindStringSubmatch statusPattern l = [code ++ w :: msg; code; msg]).
Proof.
  intros Hlf. rewrite FindStringSubmatch_statusPattern by done.
  destruct (firstStatus l) as [k|] eqn:Ek.
  - right. apply firstStatus_Some in Ek as [Hk Hlt].
    apply statusHere_iff in Hk as (code & w & msg & Hd & Hlen & Hdig & Hw & Hmsg).
    assert (k < length l)%nat as Hkl.
    { apply (f_equal length) in Hd. rewrite length_drop, length_app in Hd.
      simpl in Hd. lia. }
    exists (take k l), code, w, msg. split_and!.
    + split_and!; try done. by rewrite <- Hd, take_drop.
    + intros pre' code' w' msg' (-> & ? & ? & ? & ?).
      rewrite length_take.
      destruct (decide (k ≤ length pre')%nat) as [|Hgt]; [lia|].
      specialize (Hlt (length pre') ltac:(lia)). rewrite drop_app_length in Hlt.
      assert (statusHere (code' ++ w' :: msg') = true) as Hk'
        by (apply statusHere_iff; by exists code', w', msg').
      congruence.
    + assert (drop (k + 4) l = msg) as ->.
      { replace (k + 4)%nat with (k + (3 + 1))%nat by lia.
        rewrite <- drop_drop, Hd, <- drop_drop, drop_app_length' by done. done. }
      rewrite Hd, take_app_length' by done. done.
  - left. split; [done|]. intros pre code w msg (-> & ? & ? & ? & ?).
    pose proof (firstStatus_None _ (length pre) Ek) as Hk.
    rewrite drop_app_length in Hk.
    assert (statusHere (code ++ w :: msg) = true) as Hk'
      by (apply statusHere_iff; by exists code, w, msg).
    congruence.
Qed.
End status_line.

(** C4, counterexample: the line [HTTP/1.1 200<TAB>OK] has nowhere
    three digits followed by a space, yet the loop sends the record
    [code = 200] for it and does not try the pair pattern. *)
Lemma status_code_before_tab :
  ¬ (∃ pre code msg,
       tabStatusLine = pre ++ code ++ SP :: msg ∧ length code = 3%nat ∧
       Forall (λ c, regexp.digit c = true) code ∧ msg ≠ []) ∧
  @createSenders noCaseTables runtime64 (NewHttpHeaderConverter (tabStatusLine ++ [LF]) 4)
     (bufio.NewReader (tabStatusLine ++ [LF]))
    = Done ([[bytes "code"; bytes "200"]], [], None).
Proof.
  split; [|vm_compute; reflexivity].
  intros (pre & code & msg & Heq & Hlen & Hd & Hmsg).
  assert (tabStatusLine !! (3 + length pre)%nat = Some SP) as Hidx.
  { rewrite Heq, lookup_app_r by lia. rewrite lookup_app_r by lia.
    replace (3 + length pre - length pre - length code)%nat with 0%nat by lia. done. }
  assert (drop (length pre) tabStatusLine = code ++ SP :: msg) as Hdrop
    by (by rewrite Heq, drop_app_length).
  destruct (length pre) as [|[|[|[|[|[|[|[|[|[|[|[|n]]]]]]]]]]]];
    vm_compute in Hidx; try discriminate.
  vm_compute in Hdrop.
  destruct code as [|c1 [|c2 [|c3 [|]]]]; try discriminate.
  injection Hdrop as <- <- <- _.
  apply Forall_cons in Hd as [_ Hd]. apply Forall_cons in Hd as [Hd _].
  vm_compute in Hd. discriminate.
Qed.

(** C4, amended. The loop tries the status pattern on the first
    retained line only, and the pair pattern on that line if the status
    pattern fails, then the pair pattern alone on every later line.  The
    status pattern finds three digits, one white space character (space,
    tab, line feed, form feed or carriage return) and a non-empty rest:
    if the line has them, [parseStatus] sends the record of key [code]
    whose value is the three digits of their leftmost occurrence, and
    otherwise it returns an error. *)
Theorem status_first_line_only `{CaseTables} `{Runtime} (conv : HttpHeaderConverter) :
  outputFormat conv = JsonFormat →
  makechan (numWorker conv) = None →
  createSenders conv (bufio.NewReader (rawHeader conv)) =
    Done (match retainedLines (rawHeader conv) with
          | [] => ([], [])
          | l :: ls => foldl (pairStep conv) (firstStep conv l) ls
          end, None) ∧
  ∀ l stream, l ∈ retainedLines (rawHeader conv) →
    ((∀ pre code w msg, ¬ statusSplit l pre code w msg) →
     parseStatus conv l stream = Done (stream, Some (errors.New "cannot parse"))) ∧
    ((∃ pre code w msg, statusSplit l pre code w msg) →
     ∃ pre code w msg,
       statusSplit l pre code w msg ∧
       (∀ pre' code' w' msg', statusSplit l pre' code' w' msg' →
                               (length pre ≤ length pre')%nat) ∧
       parseStatus conv l stream = Done (send stream [bytes "code"; code], None)).
Proof.
  intros Hfmt Hn. split.
  - rewrite createSenders_streams by done. unfold bufio.NewReader.
    rewrite streams_steps by apply retainedLines_nonempty.
    by destruct (match retainedLines (rawHeader conv) with [] => _ | _ => _ end).
  - intros l stream (_ & Hlf & _)%retainedLines_elem.
    rewrite !parseStatus_record. unfold statusRecord. rewrite Hfmt.
    destruct (statusPattern_line l Hlf)
      as [[Hnil Hno]|(pre & code & w & msg & Hsplit & Hmin & Hfind)].
    + rewrite Hnil. split; [done|]. intros (pre & code & w & msg & Hsplit).
      by destruct (Hno pre code w msg).
    + rewrite Hfind. split.
      * intros Hno. by destruct (Hno pre code w msg).
      * intros _. by exists pre, code, w, msg.
Qed.

Lemma status_first_line_only_witness :
  @createSenders noCaseTables runtime64 (NewHttpHeaderConverter scenarioInput 4)
     (bufio.NewReader scenarioInput) =
    Done ([[bytes "code"; bytes "200"];
           [bytes "contentType"; bytes "text/html"];
           [bytes "xCache"; bytes "HIT"]], [], None) ∧
  ∃ pre code w msg,
    statusSplit (bytes "HTTP/1.1 200 OK") pre code w msg ∧
    @parseStatus (NewHttpHeaderConverter scenarioInput 4) (bytes "HTTP/1.1 200 OK") []
      = Done ([[bytes "code"; code]], None).
Proof.
  destruct (@status_first_line_only noCaseTables runtime64 (NewHttpHeaderConverter scenarioInput 4))
    as [Hloop Hstatus]; [reflexivity | reflexivity |].
  split; [refine (eq_trans Hloop _); vm_compute; reflexivity|].
  destruct (Hstatus (bytes "HTTP/1.1 200 OK") []) as [_ Hsome].
  { apply (bool_decide_eq_true_1 _). vm_compute. reflexivity. }
  destruct Hsome as (pre & code & w & msg & Hsplit & _ & Hparse).
  - exists (bytes "HTTP/1.1 "), (bytes "200"), " "%char, (bytes "OK").
    split_and!; try done. by repeat constructor.
  - by exists pre, code, w, msg.
Defined.

(** ** Pair lines *)
Section pair_line.
Context `{CaseTables} `{Runtime}.

Lemma pairSplit_sepAt line key ws value :
  pairSplit line key ws value → (1 ≤ length key)%nat ∧ sepAt line (length key).
Proof.
  intros (-> & Hkey & Hws & Hall & Hvalue). split.
  - destruct key; [done | simpl; lia].
  - split.
    + by rewrite lookup_app_r, Nat.sub_diag by lia.
    + replace (S (length key)) with (length key + 1)%nat by lia.
      rewrite <- drop_drop, drop_app_length. simpl. rewrite drop_0.
      pose proof (prefixLen_app_ge regexp.perlSpace ws value Hall).
      destruct ws; [done | simpl in *; lia].
Qed.

Lemma sepAt_pairSplit line j :
  (1 ≤ j)%nat → sepAt line j →
  (j + 1 + regexp.prefixLen regexp.perlSpace (drop (S j) line) < length line)%nat →
  pairSplit line (take j line)
    (take (regexp.prefixLen regexp.perlSpace (drop (S j) line)) (drop (S j) line))
    (drop (j + 1 + regexp.prefixLen regexp.perlSpace (drop (S j) line)) line).
Proof.
  intros Hj [Hc Hm] Hlt. set (m := regexp.prefixLen _ _) in *.
  assert (j < length line)%nat as Hjl by (by apply lookup_lt_Some in Hc).
  split_and!.
  - rewrite <- (take_drop j line) at 1. f_equal.
    rewrite (drop_S _ _ _ Hc). f_equal.
    replace (j + 1 + m)%nat with (S j + m)%nat by lia.
    by rewrite <- drop_drop, take_drop.
  - intros E. apply (f_equal length) in E. rewrite length_take in E. simpl in E. lia.
  - intros E. apply (f_equal length) in E. rewrite length_take, length_drop in E.
    simpl in E. lia.
  - apply prefixLen_Forall.
  - intros E. apply (f_equal length) in E. rewrite length_drop in E. simpl in E. lia.
Qed.

(** The pair pattern on a retained line. *)
Lemma pairPattern_retained line :
  LF ∉ line →
  (∀ c, last line = Some c → regexp.perlSpace c = false) →
  (regexp.FindStringSubmatch pairPattern line = [] ∧
   ∀ key ws value, ¬ pairSplit line key ws value) ∨
  (∃ key ws value,
     pairSplit line key ws value ∧
     (∀ key' ws' value', pairSplit line key' ws' value' →
                         (length key ≤ length key')%nat) ∧
     (∀ c, head value = Some c → regexp.perlSpace c = false) ∧
     regexp.FindStringSubmatch pairPattern line = [line; key; value]).
Proof.
  intros Hlf Hlast.
  destruct (FindStringSubmatch_pairPattern line Hlf Hlast)
    as [[Hnil Hno]|(j & Hj & Hsep & Hmin & Hlt & Hfind)].
  - left. split; [done|]. intros key ws value Hsplit.
    apply pairSplit_sepAt in Hsplit as [Hk Hs]. by apply (Hno _ Hk).
  - right. set (m := regexp.prefixLen regexp.perlSpace (drop (S j) line)) in *.
    exists (take j line), (take m (drop (S j) line)), (drop (j + 1 + m) line).
    split_and!.
    + by apply sepAt_pairSplit.
    + intros key' ws' value' Hsplit'.
      apply pairSplit_sepAt in Hsplit' as [Hk Hs].
      rewrite length_take.
      destruct (decide (j ≤ length key')%nat) as [|Hgt]; [lia|].
      exfalso. apply (Hmin (length key')); [lia|done].
    + intros c Hc. rewrite head_lookup, lookup_drop in Hc.
      apply (prefixLen_stop regexp.perlSpace (drop (S j) line)).
      rewrite lookup_drop. fold m. rewrite <- Hc. f_equal. lia.
    + done.
Qed.
End pair_line.



(** ** The key normalizer *)

Lemma lowerByte_idemp c : strings.lowerByte (strings.lowerByte c) = strings.lowerByte c.
Proof. each_byte c. Qed.

Lemma lowerByte_upperByte c : strings.lowerByte (strings.upperByte c) = strings.lowerByte c.
Proof. each_byte c. Qed.

Lemma lowerByte_ascii c :
  (byteval (strings.lowerByte c) <? utf8.RuneSelf) = (byteval c <? utf8.RuneSelf).
Proof. each_byte c. Qed.

Lemma upperByte_ascii c :
  (byteval (strings.upperByte c) <? utf8.RuneSelf) = (byteval c <? utf8.RuneSelf).
Proof. each_byte c. Qed.

Lemma lowerByte_separator c :
  strings.lowerByte c = "-"%char ∨ strings.lowerByte c = "/"%char ∨
  strings.lowerByte c = " "%char → strings.lowerByte c = c.
Proof. each_byte c; intros [?|[?|?]]; done. Qed.

Section normalizer.
Context `{CaseTables} `{Runtime}.

Lemma titleFrom_lower a b s :
  map strings.lowerByte (cases.titleFrom a b s) = map strings.lowerByte s.
Proof.
  revert a b. induction s as [|c s IH]; intros a b; simpl; [done|].
  repeat case_match; simpl; rewrite IH, ?lowerByte_upperByte, ?lowerByte_idemp; done.
Qed.

Lemma isASCII_lower s : strings.isASCII (map strings.lowerByte s) = strings.isASCII s.
Proof.
  unfold strings.isASCII. induction s as [|c s IH]; simpl; [done|].
  by rewrite lowerByte_ascii, IH.
Qed.

Lemma titleFrom_ascii a b s :
  strings.isASCII (cases.titleFrom a b s) = strings.isASCII s.
Proof. by rewrite <- isASCII_lower, titleFrom_lower, isASCII_lower. Qed.

Lemma lower_separator sep s :
  sep = "-"%char ∨ sep = "/"%char ∨ sep = " "%char →
  sep ∈ map strings.lowerByte s → sep ∈ s.
Proof.
  intros Hsep Hin. apply list_elem_of_fmap in Hin as (c & -> & Hc).
  by rewrite lowerByte_separator.
Qed.

Lemma titleFrom_separator sep a b s :
  sep = "-"%char ∨ sep = "/"%char ∨ sep = " "%char →
  sep ∈ cases.titleFrom a b s → sep ∈ s.
Proof.
  intros Hsep Hin. apply (lower_separator sep); [done|].
  rewrite <- (titleFrom_lower a b). apply list_elem_of_fmap.
  exists sep. split; [|done]. destruct Hsep as [-> | [-> | ->]]; done.
Qed.

Lemma Replace_none s :
  "-"%char ∉ s → "/"%char ∉ s → strings.Replace keyReplacer s = s.
Proof.
  unfold strings.Replace. induction s as [|c s IH]; intros H1 H2; [done|].
  cbn [map]. rewrite IH by (intros ?; first [by apply H1; right | by apply H2; right]). f_equal.
  unfold keyReplacer, strings.NewReplacer. cbn [strings.replaceByte].
  destruct (Ascii.eqb_spec c "-"%char) as [->|_]; [exfalso; apply H1; by left|].
  destruct (Ascii.eqb_spec c "/"%char) as [->|_]; [exfalso; apply H2; by left|].
  done.
Qed.

Lemma Split_none s sep : sep ∉ s → strings.Split s sep = [s].
Proof.
  induction s as [|c s IH]; intros Hs; simpl; [done|].
  rewrite IH by (intros ?; apply Hs; by right).
  destruct (Ascii.eqb_spec c sep) as [->|_]; [exfalso; apply Hs; by left | done].
Qed.

(** The normalized key of a single word is the word in lower case. *)
Lemma jsonKey_singleWord key :
  singleWord key → jsonKey key = map strings.lowerByte key.
Proof.
  intros (Hascii & Hh & Hs & Hsp). unfold jsonKey.
  rewrite Replace_none by done. unfold cases.Title_String. rewrite Hascii.
  rewrite Split_none.
  2:{ intros Hin. apply Hsp. by eapply titleFrom_separator; [auto|]. }
  simpl. unfold strings.ToLower. rewrite titleFrom_ascii, Hascii.
  by rewrite titleFrom_lower.
Qed.

Lemma singleWord_lower key : singleWord key → singleWord (map strings.lowerByte key).
Proof.
  intros (Hascii & Hh & Hs & Hsp). split_and!.
  - by rewrite isASCII_lower.
  - intros Hin. apply Hh. by eapply lower_separator; [auto|].
  - intros Hin. apply Hs. by eapply lower_separator; [auto|].
  - intros Hin. apply Hsp. by eapply lower_separator; [auto|].
Qed.
End normalizer.

(** C2, counterexample: [contentType] is the normalized key of
    [Content-Type], and normalizing it again yields [contenttype]. *)
Lemma contentType_not_fixed :
  @createJsonKey noCaseTables (NewHttpHeaderConverter [] 4) (bytes "Content-Type")
    = Done (bytes "contentType", None) ∧
  @createJsonKey noCaseTables (NewHttpHeaderConverter [] 4) (bytes "contentType")
    = Done (bytes "contenttype", None) ∧
  bytes "contenttype" ≠ bytes "contentType".
Proof. split_and!; [vm_compute; reflexivity..|discriminate]. Qed.

(** C2, amended. For every key of a single ASCII word (no hyphen, slash
    or space), the normalizer returns the word in lower case, and
    applied to that result it returns it unchanged. *)
Theorem createJsonKey_single_word `{CaseTables} (conv : HttpHeaderConverter)
    (key : gostring) :
  singleWord key →
  createJsonKey conv key = Done (map strings.lowerByte key, None) ∧
  createJsonKey conv (map strings.lowerByte key) = Done (map strings.lowerByte key, None).
Proof.
  intros Hkey. rewrite !createJsonKey_jsonKey.
  rewrite (jsonKey_singleWord key Hkey).
  rewrite (jsonKey_singleWord _ (singleWord_lower key Hkey)).
  rewrite map_map. split; [done|]. do 2 f_equal.
  apply map_ext. intros c. apply lowerByte_idemp.
Qed.

Lemma createJsonKey_single_word_witness :
  @createJsonKey noCaseTables (NewHttpHeaderConverter [] 4) (bytes "Server")
    = Done (bytes "server", None) ∧
  @createJsonKey noCaseTables (NewHttpHeaderConverter [] 4) (bytes "server")
    = Done (bytes "server", None).
Proof.
  apply (@createJsonKey_single_word noCaseTables (NewHttpHeaderConverter [] 4) (bytes "Server")).
  split_and!; [reflexivity|apply (bool_decide_eq_true_1 _); vm_compute; reflexivity..].
Defined.

(** * Further properties of the converter *)

(** ** The channel capacity *)
Section config.
Context `{CaseTables} `{Runtime}.

Lemma classOf_format c1 c2 f l :
  outputFormat c1 = outputFormat c2 → classOf c1 f l = classOf c2 f l.
Proof.
  intros Hf. unfold classOf, statusRecord, pairRecord, recordKey. by rewrite Hf.
Qed.

Lemma streams_format c1 c2 f ls :
  outputFormat c1 = outputFormat c2 → streams c1 f ls = streams c2 f ls.
Proof.
  intros Hf. revert f. induction ls as [|l ls IH]; intros f; simpl; [done|].
  by rewrite IH, (classOf_format c1 c2).
Qed.

Lemma finalMapping_format c1 c2 :
  outputFormat c1 = outputFormat c2 →
  retainedLines (rawHeader c1) = retainedLines (rawHeader c2) →
  finalMapping c1 = finalMapping c2.
Proof.
  intros Hf Hl. unfold finalMapping, convertedOf, rawLinesOf, recordsOf.
  by rewrite Hl, (streams_format c1 c2), Hf.
Qed.
End config.

(** X1. A negative channel capacity makes [createSenders] panic, and with it
    [convert] and [Output]: [SetNumWorker] accepts any integer. *)
Theorem negative_numWorker_panics `{CaseTables} `{Runtime} (conv : HttpHeaderConverter) (n : Z) :
  (n < 0)%Z →
  createSenders (SetNumWorker conv n) (bufio.NewReader (rawHeader conv))
    = Panic (bytes "makechan: size out of range") ∧
  convert (SetNumWorker conv n) = Panic (bytes "makechan: size out of range") ∧
  Output (SetNumWorker conv n) = Panic (bytes "makechan: size out of range").
Proof.
  intros Hn.
  assert (∀ r, createSenders (SetNumWorker conv n) r
               = Panic (bytes "makechan: size out of range")) as Hc.
  { intros r. unfold createSenders. cbn [numWorker SetNumWorker].
    by rewrite makechan_negative. }
  split_and!; [apply Hc| |].
  - unfold convert. by rewrite Hc.
  - unfold Output, OutputWith, convert. by rewrite Hc.
Qed.

Lemma negative_numWorker_panics_witness :
  @Output noCaseTables runtime64 (SetNumWorker (NewHttpHeaderConverter scenarioInput 4) (-1))
    = Panic (bytes "makechan: size out of range").
Proof.
  apply (@negative_numWorker_panics noCaseTables runtime64 (NewHttpHeaderConverter scenarioInput 4) (-1)).
  lia.
Defined.

(** X2. The channel capacity has no effect on the result: for any two
    capacities for which the runtime makes the channels, [convert] and
    [Output] return the same. *)
Theorem numWorker_irrelevant `{CaseTables} `{Runtime} (conv : HttpHeaderConverter) (n m : Z) :
  makechan n = None → makechan m = None →
  convert (SetNumWorker conv n) = convert (SetNumWorker conv m) ∧
  Output (SetNumWorker conv n) = Output (SetNumWorker conv m).
Proof.
  intros Hn Hm. unfold Output.
  rewrite !convert_eq, !OutputWith_eq by done.
  unfold convertedOf, rawLinesOf, recordsOf.
  rewrite (finalMapping_format (SetNumWorker conv n) (SetNumWorker conv m)) by done.
  by rewrite (streams_format (SetNumWorker conv n) (SetNumWorker conv m)).
Qed.

Lemma numWorker_irrelevant_witness :
  @Output noCaseTables runtime64 (SetNumWorker (NewHttpHeaderConverter scenarioInput 4) 0)
  = @Output noCaseTables runtime64 (SetNumWorker (NewHttpHeaderConverter scenarioInput 4) 64).
Proof.
  apply (@numWorker_irrelevant noCaseTables runtime64 (NewHttpHeaderConverter scenarioInput 4) 0 64);
    reflexivity.
Defined.

(** ** The goroutines *)

(** X3. However the sender and the two receivers are scheduled, and
    whatever the capacity of the channels among those for which the
    runtime makes them, zero included: a state in which a receiver has not
    returned has a next step (there is no deadlock), every step lowers
    the number of steps left, so every run ends, and when both receivers
    have returned they hold the mapping and the lines that [convert]
    returns. *)
Theorem convert_any_schedule `{CaseTables} `{Runtime} (conv : HttpHeaderConverter) :
  makechan (numWorker conv) = None →
  let cap := Z.to_nat (numWorker conv) in
  let tr := sendsOf conv true (retainedLines (rawHeader conv)) in
  (∀ s, rtc (step cap) (start tr) s → ¬ finished s → ∃ s', step cap s s') ∧
  (∀ s s', step cap s s' → (measure s' < measure s)%nat) ∧
  (∃ s, rtc (step cap) (start tr) s ∧ finished s) ∧
  (∀ s, rtc (step cap) (start tr) s → finished s →
        convert conv = Done (accC s, accN s, None)).
Proof.
  intros Hn cap tr. split_and!.
  - intros s Hrun. apply (step_progress cap tr). by apply (invariant_reachable cap).
  - intros s s'. apply (step_measure cap).
  - apply (run_completes cap tr), invariant_start.
  - intros s Hrun Hfin.
    destruct (invariant_finished tr s (invariant_reachable cap tr s Hrun) Hfin)
      as [-> ->].
    subst tr.
    destruct (sendsOf_streams conv true (retainedLines (rawHeader conv))) as [-> ->].
    destruct (streams_shape conv true (retainedLines (rawHeader conv))) as [_ Hshape].
    rewrite foldl_appendRaw by done. by apply convert_eq.
Qed.

Lemma convert_any_schedule_witness :
  ∃ s, rtc (step 0)
           (start (@sendsOf noCaseTables (NewHttpHeaderConverter scenarioInput 0) true
                     (retainedLines scenarioInput))) s ∧
       finished s.
Proof.
  apply (@convert_any_schedule noCaseTables runtime64 (NewHttpHeaderConverter scenarioInput 0)).
  reflexivity.
Defined.

(** ** What the two parsers do *)
Section outcomes.
Context `{CaseTables} `{Runtime}.

Lemma pairRecord_shape conv line r :
  pairRecord conv line = Some r → head line ≠ Some " "%char ∧ ∃ k v, r = [k; v].
Proof.
  unfold pairRecord. destruct (decide (head line = Some " "%char)); [done|].
  destruct (regexp.FindStringSubmatch pairPattern line) as [|? [|? [|? [|]]]]; try done.
  intros [= <-]. eauto.
Qed.

Lemma pairRecord_space conv line :
  head line = Some " "%char → pairRecord conv line = None.
Proof. intros Hl. unfold pairRecord. by destruct (decide (head line = Some " "%char)). Qed.

Lemma streams_raw_elem conv f ls (i : nat) l :
  ls !! i = Some l →
  classOf conv (match i with O => f | S _ => false end) l = None →
  l ∈ concat (streams conv f ls).2.
Proof.
  revert f i. induction ls as [|x ls IH]; intros f i Hi Hc; [done|].
  cbn [streams]. destruct (streams conv false ls) as [cs ncs] eqn:Es.
  destruct i as [|i].
  - injection Hi as ->. rewrite Hc. cbn. by left.
  - cbn in Hi. specialize (IH false i Hi).
    rewrite Es in IH. cbn [snd] in IH.
    assert (l ∈ concat ncs) as Hin by (apply IH; by destruct i).
    destruct (classOf conv f x); cbn; [done|by right].
Qed.

Lemma streams_count conv f ls :
  (length (streams conv f ls).1 + length (streams conv f ls).2)%nat = length ls.
Proof.
  revert f. induction ls as [|x ls IH]; intros f; [done|].
  cbn [streams]. specialize (IH false).
  destruct (streams conv false ls) as [cs ncs]. cbn [fst snd] in IH.
  destruct (classOf conv f x); cbn [fst snd length]; lia.
Qed.

Lemma streams_raw_sublist conv f ls :
  (streams conv f ls).2 = map (λ l, [l]) (concat (streams conv f ls).2) ∧
  concat (streams conv f ls).2 `sublist_of` ls.
Proof.
  revert f. induction ls as [|x ls IH]; intros f; [done|].
  cbn [streams]. destruct (IH false) as [IH1 IH2].
  destruct (streams conv false ls) as [cs ncs]. cbn [fst snd] in *.
  destruct (classOf conv f x); cbn [fst snd concat app map].
  - split; [done|]. by apply sublist_cons.
  - split; [by rewrite <- IH1|]. by apply sublist_skip.
Qed.
End outcomes.

(** X4. What [parsePair] and [parseStatus] can do.  [parsePair] panics on
    the empty line; on any other line it either sends one record of two
    strings and returns [nil], or sends nothing and returns one of the
    errors [not pair string] (the line begins with a space) and
    [cannot parse]: the error [cannot convert JSON key] is never
    returned.  [parseStatus] sends one record whose key is [code] (or
    [Code]) and returns [nil], or sends nothing and returns
    [cannot parse]. *)
Theorem parse_outcomes `{CaseTables} (conv : HttpHeaderConverter) (line : gostring)
    (stream : chan) :
  parsePair conv [] stream = Panic (bytes "slice bounds out of range") ∧
  (line ≠ [] →
   (head line = Some " "%char ∧
    parsePair conv line stream = Done (stream, Some (errors.New "not pair string"))) ∨
   (head line ≠ Some " "%char ∧
    parsePair conv line stream = Done (stream, Some (errors.New "cannot parse"))) ∨
   (head line ≠ Some " "%char ∧
    ∃ k v, parsePair conv line stream = Done (stream ++ [[k; v]], None))) ∧
  (parseStatus conv line stream = Done (stream, Some (errors.New "cannot parse")) ∨
   ∃ code, parseStatus conv line stream =
             Done (stream ++ [[if (outputFormat conv =? JsonFormat)%Z
                               then bytes "code" else bytes "Code"; code]], None)).
Proof.
  split_and!.
  - done.
  - intros Hl. rewrite parsePair_record by done.
    destruct (pairRecord conv line) as [r|] eqn:Er.
    + apply pairRecord_shape in Er as (Hh & k & v & ->). right. right. eauto.
    + unfold pairError. destruct (decide (head line = Some " "%char)); [by left|by right; left].
  - rewrite parseStatus_record. unfold statusRecord.
    destruct (regexp.FindStringSubmatch statusPattern line) as [|? [|c [|? [|]]]]; eauto.
Qed.

(** X5. A retained line that begins with a space is never read as a header:
    unless it is the first retained line and matches the status pattern,
    it is among the lines [convert] returns unconverted. *)
Theorem leading_space_line_unconverted `{CaseTables} `{Runtime} (conv : HttpHeaderConverter) :
  makechan (numWorker conv) = None →
  ∃ converted notConverted,
    convert conv = Done (converted, notConverted, None) ∧
    ∀ (i : nat) l,
      retainedLines (rawHeader conv) !! i = Some l →
      head l = Some " "%char →
      (i = 0%nat → rejects (parseStatus conv l []) = true) →
      l ∈ notConverted.
Proof.
  intros Hn. do 2 eexists. split; [by apply convert_eq|].
  intros i l Hi Hsp Hst. unfold rawLinesOf.
  apply (streams_raw_elem conv true _ i l Hi).
  unfold classOf. rewrite pairRecord_space by done.
  destruct i as [|i]; [|done].
  specialize (Hst eq_refl). rewrite rejects_parseStatus in Hst.
  by destruct (statusRecord conv l).
Qed.

Lemma leading_space_line_unconverted_witness :
  ∃ converted notConverted,
    @convert noCaseTables runtime64
       (NewHttpHeaderConverter (ln "Server: nginx" ++ ln " Folded: value") 4)
      = Done (converted, notConverted, None) ∧
    bytes " Folded: value" ∈ notConverted.
Proof.
  destruct (@leading_space_line_unconverted noCaseTables runtime64
              (NewHttpHeaderConverter (ln "Server: nginx" ++ ln " Folded: value") 4))
    as (converted & notConverted & Hc & Hl); [reflexivity|].
  exists converted, notConverted. split; [exact Hc|].
  apply (Hl 1%nat); [vm_compute; reflexivity|reflexivity|discriminate].
Defined.



(** ** Values and keys of the records *)
Lemma digit_not_space c :
  regexp.digit c = true →
  regexp.perlSpace c = false ∧ unicode.IsSpace (byteval c) = false.
Proof. each_byte c. Qed.

(** The last byte of a trimmed line, if it is ASCII, is no white space
    for [unicode.IsSpace]. *)
Lemma trimLine_last_IsSpace l c :
  last (trimLine l) = Some c → byteval c < 0x80 → unicode.IsSpace (byteval c) = false.
Proof.
  unfold trimLine.
  destruct (TrimRightFunc_spec (l ++ [LF]) unicode.IsSpace) as (n & Hn & -> & Hlast).
  intros Hl. destruct (decide (n = 0%nat)) as [->|Hn0]; [done|].
  rewrite last_lookup, length_take, Nat.min_l in Hl by lia.
  destruct Hlast as [->|(c' & Hc' & Hf)]; [done|].
  rewrite lookup_take_lt in Hl by lia.
  replace (pred n) with (n - 1)%nat in Hl by lia.
  rewrite Hc' in Hl. by injection Hl as ->.
Qed.

Lemma retainedLines_last_IsSpace input l c :
  l ∈ retainedLines input → last l = Some c →
  byteval c < 0x80 → unicode.IsSpace (byteval c) = false.
Proof.
  unfold retainedLines. intros [_ Hin]%list_elem_of_filter.
  apply list_elem_of_fmap in Hin as (l0 & -> & _). apply trimLine_last_IsSpace.
Qed.

Section values.
Context `{CaseTables} `{Runtime}.

(** The value of a record is a part of its line, not empty; it begins
    with no character of the class of white space of the patterns, and
    ends as the line does or with a digit. *)
Lemma classOf_value conv f line r :
  LF ∉ line → (∀ c, last line = Some c → regexp.perlSpace c = false) →
  classOf conv f line = Some r →
  ∃ k v pre post,
    r = [k; v] ∧ line = pre ++ v ++ post ∧ v ≠ [] ∧
    (∀ c, head v = Some c → regexp.perlSpace c = false) ∧
    (∀ c, last v = Some c → regexp.digit c = true ∨ last line = Some c).
Proof.
  intros Hlf Hlast Hc. unfold classOf in Hc.
  destruct (if f then statusRecord conv line else None) as [r'|] eqn:Es.
  - injection Hc as ->. destruct f; [|done]. unfold statusRecord in Es.
    destruct (statusPattern_line line Hlf)
      as [[E _]|(pre & code & w & msg & (Hl & Hlen & Hd & _) & _ & E)];
      rewrite E in Es; [done|].
    injection Es as <-. eexists _, code, pre, (w :: msg). split_and!; [done..| | |].
    + by destruct code.
    + intros c Hh. destruct code as [|c0 code]; [done|]. injection Hh as ->.
      apply Forall_cons in Hd as [Hd _]. by apply digit_not_space.
    + intros c Hl'. left. rewrite Forall_forall in Hd. apply Hd.
      rewrite last_lookup in Hl'. by eapply list_elem_of_lookup_2.
  - unfold pairRecord in Hc. destruct (decide (head line = Some " "%char)); [done|].
    destruct (pairPattern_retained line Hlf Hlast)
      as [[E _]|(key & ws & value & (Hl & _ & _ & _ & Hv) & _ & Hhead & E)];
      rewrite E in Hc; [done|].
    injection Hc as <-. eexists _, value, (key ++ ":"%char :: ws), []. split_and!; [done| |done..|].
    + rewrite app_nil_r, <- app_assoc. done.
    + intros c Hl'. right. rewrite Hl.
      replace (key ++ ":"%char :: ws ++ value) with ((key ++ ":"%char :: ws) ++ value)
        by (by rewrite <- app_assoc).
      by rewrite last_app, Hl'.
Qed.

Lemma streams_classOf conv f ls r :
  r ∈ (streams conv f ls).1 → ∃ f' l, l ∈ ls ∧ classOf conv f' l = Some r.
Proof.
  revert f. induction ls as [|l ls IH]; intros f; [by intros ?%elem_of_nil|].
  cbn [streams]. specialize (IH false).
  destruct (streams conv false ls) as [cs ncs]. cbn [fst] in IH.
  destruct (classOf conv f l) as [r'|] eqn:Ec; cbn [fst].
  - intros [->|Hin]%elem_of_cons; [exists f, l; split; [by left|done]|].
    destruct (IH Hin) as (f' & l' & Hl' & Hc). exists f', l'. split; [by right|done].
  - intros Hin. destruct (IH Hin) as (f' & l' & Hl' & Hc). exists f', l'. split; [by right|done].
Qed.
End values.

(** X7. Every value of the mapping [convert] returns is a string taken
    from a retained line: a part of the line that is not empty, that
    does not begin with one of the five characters of the class [\s] of
    the two patterns (space, tab, line feed, form feed, carriage
    return), and that does not end with one of them nor with any other
    ASCII white space character of [unicode.IsSpace] (the vertical
    tab).  Other white space is kept at the beginning of a value: a
    vertical tab, a no-break space. *)
Theorem converted_values_from_lines `{CaseTables} `{Runtime} (conv : HttpHeaderConverter) :
  makechan (numWorker conv) = None →
  ∃ converted notConverted,
    convert conv = Done (converted, notConverted, None) ∧
    ∀ k x, converted !! k = Some x →
      ∃ v line pre post,
        x = json.IString v ∧
        line ∈ retainedLines (rawHeader conv) ∧ line = pre ++ v ++ post ∧
        v ≠ [] ∧
        (∀ c, head v = Some c → regexp.perlSpace c = false) ∧
        (∀ c, last v = Some c →
              regexp.perlSpace c = false ∧
              (byteval c < 0x80 → unicode.IsSpace (byteval c) = false)).
Proof.
  intros Hn. do 2 eexists. split; [by apply convert_eq|].
  intros k x Hk. unfold convertedOf, recordsOf in Hk.
  destruct (streams_shape conv true (retainedLines (rawHeader conv))) as [Hshape _].
  apply foldl_insertRecord_entry in Hk as [Hk|(v & -> & Hin)]; [done| |done].
  apply streams_classOf in Hin as (f & line & Hline & Hc).
  destruct (retainedLines_elem _ _ Hline) as (_ & Hlf & Hlast).
  destruct (classOf_value conv f line _ Hlf Hlast Hc)
    as (k' & v' & pre & post & [= <- <-] & Hl & Hv & Hh & Hl').
  exists v, line, pre, post. split_and!; [done..|].
  intros c Hc'. destruct (Hl' c Hc') as [Hd|Hll].
  - split; [by apply digit_not_space|]. intros _. by apply digit_not_space.
  - split; [by apply Hlast|]. by apply (retainedLines_last_IsSpace _ _ _ Hline).
Qed.

Lemma converted_values_from_lines_witness :
  ∃ converted notConverted,
    @convert noCaseTables runtime64
       (NewHttpHeaderConverter (bytes "Server:   nginx  " ++ [LF]) 4)
      = Done (converted, notConverted, None) ∧
    converted !! bytes "server" = Some (json.IString (bytes "nginx")).
Proof.
  destruct (@converted_values_from_lines noCaseTables runtime64
              (NewHttpHeaderConverter (bytes "Server:   nginx  " ++ [LF]) 4))
    as (converted & notConverted & Hc & _); [reflexivity|].
  exists converted, notConverted. split; [exact Hc|].
  vm_compute in Hc. injection Hc as <- _. vm_compute. reflexivity.
Defined.

(** A vertical tab after the colon and the space is no white space for
    the pattern: it stays at the beginning of the value. *)
Example value_begins_with_vertical_tab :
  @convert noCaseTables runtime64
     (NewHttpHeaderConverter (bytes "Server: " ++ [VT] ++ bytes "c d" ++ [LF]) 4)
  = Done ({[ bytes "server" := json.IString (VT :: bytes "c d") ]}, [], None).
Proof. vm_compute. reflexivity. Qed.

(** X8. With an output format other than [JsonFormat], which
    [SetOutputFormat] accepts, the keys are not normalized: the status
    code is sent under [Code], a pair under the text before its colon,
    and the unconverted lines are stored under [Raw]; [Output] still
    returns JSON text. *)
Theorem other_format_keys `{CaseTables} `{Runtime} (conv : HttpHeaderConverter) :
  outputFormat conv ≠ JsonFormat →
  makechan (numWorker conv) = None →
  (∀ line stream stream',
     parseStatus conv line stream = Done (stream', None) →
     ∃ code, stream' = stream ++ [[bytes "Code"; code]]) ∧
  (∀ line stream stream',
     line ∈ retainedLines (rawHeader conv) →
     parsePair conv line stream = Done (stream', None) →
     ∃ key ws value, pairSplit line key ws value ∧ stream' = stream ++ [[key; value]]) ∧
  (∃ converted notConverted,
     convert conv = Done (converted, notConverted, None) ∧
     Output conv =
       Done ((json.Marshal (if (0 <? length notConverted)%nat
                            then <[bytes "Raw" := json.IStrings notConverted]> converted
                            else converted)).1, None)).
Proof.
  intros Hf Hn.
  assert ((outputFormat conv =? JsonFormat)%Z = false) as Hfb by (by apply Z.eqb_neq).
  split_and!.
  - intros line stream stream' Hs. rewrite parseStatus_record in Hs.
    unfold statusRecord in Hs. rewrite Hfb in Hs.
    destruct (regexp.FindStringSubmatch statusPattern line) as [|? [|c [|? [|]]]];
      try done. injection Hs as <-. by exists c.
  - intros line stream stream' Hl Hp.
    destruct (retainedLines_elem _ _ Hl) as (H4 & Hlf & Hlast).
    rewrite parsePair_record in Hp by (by intros ->).
    unfold pairRecord, recordKey in Hp. rewrite Hfb in Hp.
    destruct (decide (head line = Some " "%char)); [done|].
    destruct (pairPattern_retained line Hlf Hlast)
      as [[E _]|(key & ws & value & Hsplit & _ & _ & E)]; rewrite E in Hp; [done|].
    injection Hp as <-. by exists key, ws, value.
  - do 2 eexists. split; [by apply convert_eq|].
    unfold Output. rewrite OutputWith_eq by done. unfold finalMapping. by rewrite Hfb.
Qed.

Lemma other_format_keys_witness :
  ∃ converted notConverted,
    @convert noCaseTables runtime64 (SetOutputFormat (NewHttpHeaderConverter malformedInput 4) 1%Z)
      = Done (converted, notConverted, None) ∧
    @Output noCaseTables runtime64 (SetOutputFormat (NewHttpHeaderConverter malformedInput 4) 1%Z) =
      Done ((json.Marshal (if (0 <? length notConverted)%nat
                           then <[bytes "Raw" := json.IStrings notConverted]> converted
                           else converted)).1, None).
Proof.
  apply (@other_format_keys noCaseTables runtime64
           (SetOutputFormat (NewHttpHeaderConverter malformedInput 4) 1%Z)).
  - discriminate.
  - reflexivity.
Defined.

Section code.
Context `{CaseTables} `{Runtime}.

Lemma streams_pairRecord conv ls r :
  r ∈ (streams conv false ls).1 → ∃ l, l ∈ ls ∧ pairRecord conv l = Some r.
Proof.
  induction ls as [|l ls IH]; [by intros ?%elem_of_nil|].
  cbn [streams]. destruct (streams conv false ls) as [cs ncs]. cbn [fst] in IH.
  unfold classOf. destruct (pairRecord conv l) as [r'|] eqn:Ec; cbn [fst].
  - intros [->|Hin]%elem_of_cons; [exists l; split; [by left|done]|].
    destruct (IH Hin) as (l' & Hl' & Hc). exists l'. split; [by right|done].
  - intros Hin. destruct (IH Hin) as (l' & Hl' & Hc). exists l'. split; [by right|done].
Qed.

Lemma foldl_insertRecord_size cs m :
  (size (foldl insertRecord m cs) ≤ size m + length cs)%nat.
Proof.
  revert m. induction cs as [|r cs IH]; intros m; cbn [foldl length]; [lia|].
  etrans; [apply IH|].
  assert (size (insertRecord m r) ≤ S (size m))%nat; [|lia].
  destruct r as [|k [|v r]]; cbn; try lia.
  destruct (m !! k) as [x|] eqn:Ek.
  - rewrite map_size_insert_Some by done. lia.
  - by rewrite map_size_insert_None.
Qed.
End code.

(** X9. The key [code].  When the first retained line is read as a status
    line and no later line is a pair whose key is normalized to [code],
    the mapping holds the status code under [code]; when the first
    retained line is no status line and no line is such a pair, the
    mapping has no key [code]. *)
Theorem status_code_entry `{CaseTables} `{Runtime} (conv : HttpHeaderConverter)
    (l : gostring) (ls : list gostring) :
  outputFormat conv = JsonFormat →
  makechan (numWorker conv) = None →
  retainedLines (rawHeader conv) = l :: ls →
  ∃ converted notConverted,
    convert conv = Done (converted, notConverted, None) ∧
    (∀ code,
       parseStatus conv l [] = Done ([[bytes "code"; code]], None) →
       (∀ l' k v, l' ∈ ls → parsePair conv l' [] = Done ([[k; v]], None) → k ≠ bytes "code") →
       converted !! bytes "code" = Some (json.IString code)) ∧
    (rejects (parseStatus conv l []) = true →
     (∀ l' k v, l' ∈ l :: ls → parsePair conv l' [] = Done ([[k; v]], None) →
                k ≠ bytes "code") →
     converted !! bytes "code" = None).
Proof.
  intros Hf Hn Hls. do 2 eexists. split; [by apply convert_eq|].
  unfold convertedOf, recordsOf. rewrite Hls.
  pose proof (retainedLines_nonempty (rawHeader conv)) as Hne. rewrite Hls in Hne.
  assert (∀ l', l' ∈ l :: ls →
            (∀ k v, parsePair conv l' [] = Done ([[k; v]], None) → k ≠ bytes "code") →
            ∀ r, pairRecord conv l' = Some r → head r ≠ Some (bytes "code")) as Hpair.
  { intros l' Hl' Hk r Hr. rewrite Forall_forall in Hne.
    pose proof (parsePair_record conv l' [] (Hne _ Hl')) as Hp. rewrite Hr in Hp.
    destruct (pairRecord_shape _ _ _ Hr) as (_ & k & v & ->).
    intros [= ->]. by apply (Hk _ _ Hp). }
  assert (∀ r, (∀ l' k v, l' ∈ ls → parsePair conv l' [] = Done ([[k; v]], None) →
                          k ≠ bytes "code") →
               r ∈ (streams conv false ls).1 → head r ≠ Some (bytes "code")) as Hrest.
  { intros r Hk Hr. apply streams_pairRecord in Hr as (l' & Hl' & Hr).
    apply (Hpair l'); [by right| |done]. intros k v. by apply Hk. }
  cbn [streams]. destruct (streams conv false ls) as [cs ncs] eqn:Es. cbn [fst] in Hrest.
  split.
  - intros code Hs Hk. rewrite parseStatus_record in Hs. unfold classOf.
    destruct (statusRecord conv l) as [r|]; [|done]. injection Hs as ->.
    cbn [fst foldl insertRecord].
    rewrite foldl_insertRecord_ne by (intros r Hr; by apply Hrest).
    apply lookup_insert_eq.
  - intros Hs Hk. rewrite rejects_parseStatus in Hs. unfold classOf.
    destruct (statusRecord conv l) as [r|]; [done|].
    assert (∀ r, r ∈ cs → head r ≠ Some (bytes "code")) as Hcs.
    { intros r Hr. apply Hrest; [|done]. intros l' k v Hl'. apply Hk. by right. }
    destruct (pairRecord conv l) as [r|] eqn:Er; cbn [fst foldl].
    + assert (head r ≠ Some (bytes "code")) as Hr.
      { apply (Hpair l); [by left| |done]. intros k v. apply Hk. by left. }
      destruct (pairRecord_shape _ _ _ Er) as (_ & k & v & ->). cbn [insertRecord].
      rewrite foldl_insertRecord_ne by done.
      rewrite lookup_insert_ne; [done|]. intros ->. by apply Hr.
    + by rewrite foldl_insertRecord_ne.
Qed.

Lemma status_code_entry_witness :
  ∃ converted notConverted,
    @convert noCaseTables runtime64 (NewHttpHeaderConverter scenarioInput 4)
      = Done (converted, notConverted, None) ∧
    converted !! bytes "code" = Some (json.IString (bytes "200")).
Proof.
  destruct (@status_code_entry noCaseTables runtime64 (NewHttpHeaderConverter scenarioInput 4)
              (bytes "HTTP/1.1 200 OK")
              [bytes "Content-Type: text/html"; bytes "X-Cache: HIT"])
    as (converted & notConverted & Hc & Hcode & _).
  - reflexivity.
  - reflexivity.
  - vm_compute. reflexivity.
  - exists converted, notConverted. split; [exact Hc|]. apply Hcode.
    + vm_compute. reflexivity.
    + intros l' k v Hl' Hp.
      apply elem_of_cons in Hl' as [->|Hl'];
        [|apply elem_of_cons in Hl' as [->|Hl']; [|by apply elem_of_nil in Hl']];
        vm_compute in Hp; injection Hp as <- _; discriminate.
Defined.

(** X10. The mapping and the unconverted lines together have at most as
    many entries as there are retained lines: a line gives one entry,
    one unconverted line, or overwrites an entry. *)
Theorem convert_size `{CaseTables} `{Runtime} (conv : HttpHeaderConverter) :
  makechan (numWorker conv) = None →
  ∃ converted notConverted,
    convert conv = Done (converted, notConverted, None) ∧
    (size converted + length notConverted ≤ length (retainedLines (rawHeader conv)))%nat.
Proof.
  intros Hn. do 2 eexists. split; [by apply convert_eq|].
  unfold convertedOf, rawLinesOf, recordsOf.
  pose proof (streams_count conv true (retainedLines (rawHeader conv))) as Hcount.
  destruct (streams_raw_sublist conv true (retainedLines (rawHeader conv))) as [Hraw _].
  pose proof (foldl_insertRecord_size
                (streams conv true (retainedLines (rawHeader conv))).1 ∅) as Hsize.
  rewrite map_size_empty in Hsize.
  rewrite Hraw, length_map in Hcount. lia.
Qed.

Lemma convert_size_witness :
  ∃ converted notConverted,
    @convert noCaseTables runtime64 (NewHttpHeaderConverter twiceInput 4)
      = Done (converted, notConverted, None) ∧
    (size converted + length notConverted ≤ 3)%nat.
Proof.
  destruct (@convert_size noCaseTables runtime64 (NewHttpHeaderConverter twiceInput 4))
    as (converted & notConverted & Hc & Hs); [reflexivity|].
  exists converted, notConverted. split; [exact Hc|].
  etrans; [exact Hs|]. vm_compute. lia.
Defined.

(** ** Keys: case, separators, camel case *)

Lemma isCased_lowerByte c : cases.isCased (strings.lowerByte c) = cases.isCased c.
Proof. each_byte c. Qed.

Lemma isMid_lowerByte c : cases.isMid (strings.lowerByte c) = cases.isMid c.
Proof. each_byte c. Qed.

Lemma isBreak_lowerByte c : cases.isBreak (strings.lowerByte c) = cases.isBreak c.
Proof. each_byte c. Qed.

Lemma lowerByte_uncased c : cases.isCased c = false → strings.lowerByte c = c.
Proof. each_byte c. Qed.

Lemma upperByte_lowerByte c : strings.upperByte (strings.lowerByte c) = strings.upperByte c.
Proof. each_byte c. Qed.

Lemma replaceByte_lowerByte c :
  strings.replaceByte keyReplacer (strings.lowerByte c)
  = strings.lowerByte (strings.replaceByte keyReplacer c).
Proof. each_byte c. Qed.

Lemma replaceByte_ascii c :
  (byteval (strings.replaceByte keyReplacer c) <? utf8.RuneSelf) = (byteval c <? utf8.RuneSelf).
Proof. each_byte c. Qed.

Lemma replaceByte_separator c :
  if isKeySeparator (strings.lowerByte c)
  then strings.lowerByte (strings.replaceByte keyReplacer c) = " "%char
  else strings.lowerByte (strings.replaceByte keyReplacer c) = strings.lowerByte c ∧
       strings.lowerByte c ≠ " "%char.
Proof. each_byte c. Qed.

Lemma lowerByte_space c : strings.lowerByte c = " "%char ↔ c = " "%char.
Proof. each_byte c. Qed.

Lemma isCased_letter c :
  cases.isCased c = true →
  cases.isMid c = false ∧ isKeySeparator c = false ∧
  strings.replaceByte keyReplacer c = c ∧ (byteval c <? utf8.RuneSelf) = true ∧
  cases.isCased (strings.upperByte c) = true ∧ cases.isCased (strings.lowerByte c) = true.
Proof. each_byte c. Qed.

Lemma isKeySeparator_space c :
  isKeySeparator c = true →
  strings.replaceByte keyReplacer c = " "%char ∧ (byteval c <? utf8.RuneSelf) = true.
Proof. each_byte c. Qed.

Section keys.
Context `{CaseTables} `{Runtime}.

Lemma titleFrom_case a b s :
  cases.titleFrom a b (map strings.lowerByte s) = cases.titleFrom a b s.
Proof.
  revert a b. induction s as [|c s IH]; intros a b; [done|].
  cbn [map cases.titleFrom].
  rewrite isMid_lowerByte, isCased_lowerByte, isBreak_lowerByte,
          upperByte_lowerByte, lowerByte_idemp, !IH.
  destruct (cases.isCased c) eqn:Hc; [done|]. by rewrite lowerByte_uncased.
Qed.

Lemma isASCII_Replace s :
  strings.isASCII (strings.Replace keyReplacer s) = strings.isASCII s.
Proof.
  unfold strings.isASCII, strings.Replace. induction s as [|c s IH]; [done|].
  cbn [map forallb]. by rewrite replaceByte_ascii, IH.
Qed.

Lemma Replace_lower s :
  strings.Replace keyReplacer (map strings.lowerByte s)
  = map strings.lowerByte (strings.Replace keyReplacer s).
Proof.
  unfold strings.Replace. rewrite !map_map. apply map_ext. intros c.
  apply replaceByte_lowerByte.
Qed.

Lemma jsonKey_lower key :
  strings.isASCII key = true → jsonKey (map strings.lowerByte key) = jsonKey key.
Proof.
  intros Hk. unfold jsonKey, cases.Title_String.
  by rewrite Replace_lower, isASCII_lower, isASCII_Replace, Hk, titleFrom_case.
Qed.

Lemma Join_nil l : strings.Join l [] = concat l.
Proof.
  induction l as [|e [|e' l] IH]; [done|by cbn; rewrite app_nil_r|].
  change (strings.Join (e :: e' :: l) []) with (e ++ [] ++ strings.Join (e' :: l) []).
  by rewrite IH.
Qed.

Lemma concat_Split s sep :
  concat (strings.Split s sep) = filter (λ c, c ≠ sep) s.
Proof.
  induction s as [|c s IH]; [done|]. cbn [strings.Split].
  destruct (Ascii.eqb_spec c sep) as [->|Hne].
  - rewrite filter_cons_False by naive_solver. by rewrite <- IH.
  - rewrite filter_cons_True by done. rewrite <- IH.
    by destruct (Split_cons s sep) as (p & ps & ->).
Qed.

Lemma isASCII_app a b :
  strings.isASCII (a ++ b) = strings.isASCII a && strings.isASCII b.
Proof. apply forallb_app. Qed.

Lemma Split_ASCII s sep :
  strings.isASCII s = true → Forall (λ p, strings.isASCII p = true) (strings.Split s sep).
Proof.
  induction s as [|c s IH]; intros Hs; [by repeat constructor|].
  cbn [strings.Split]. unfold strings.isASCII in Hs. cbn [forallb] in Hs.
  apply andb_prop in Hs as [Hc Hs]. specialize (IH Hs).
  destruct (Ascii.eqb c sep); [by constructor|].
  destruct (strings.Split s sep) as [|p ps]; [by repeat constructor; cbn; rewrite Hc|].
  apply Forall_cons in IH as [Hp Hps]. constructor; [|done].
  unfold strings.isASCII. cbn [forallb]. by rewrite Hc.
Qed.

Lemma lower_filter_space s :
  map strings.lowerByte (filter (λ c, c ≠ " "%char) s)
  = filter (λ c, c ≠ " "%char) (map strings.lowerByte s).
Proof.
  induction s as [|c s IH]; [done|]. cbn [map].
  destruct (decide (c = " "%char)) as [->|Hc].
  - rewrite filter_cons_False by naive_solver.
    rewrite filter_cons_False; [done|]. intros Hne. by apply Hne.
  - rewrite !filter_cons_True; [by cbn; rewrite IH| |done].
    intros Heq. by apply Hc, lowerByte_space.
Qed.

Lemma filter_space_Replace s :
  filter (λ c, c ≠ " "%char) (map strings.lowerByte (strings.Replace keyReplacer s))
  = filter (λ c, isKeySeparator c = false) (map strings.lowerByte s).
Proof.
  unfold strings.Replace. induction s as [|c s IH]; [done|]. cbn [map].
  pose proof (replaceByte_separator c) as Hc.
  destruct (isKeySeparator (strings.lowerByte c)) eqn:Hs.
  - rewrite filter_cons_False by naive_solver.
    rewrite filter_cons_False; [done|]. by rewrite Hs.
  - destruct Hc as [Hc Hne]. rewrite !filter_cons_True; [|done|by rewrite Hc].
    by rewrite IH, Hc.
Qed.

(** The key without regard to case: the key without its separators. *)
Lemma jsonKey_letters key :
  strings.isASCII key = true →
  map strings.lowerByte (jsonKey key)
  = filter (λ c, isKeySeparator c = false) (map strings.lowerByte key).
Proof.
  intros Hk. unfold jsonKey, cases.Title_String. rewrite isASCII_Replace, Hk.
  set (t := cases.titleFrom false false (strings.Replace keyReplacer key)).
  assert (strings.isASCII t = true) as Ht
    by (unfold t; by rewrite titleFrom_ascii, isASCII_Replace).
  pose proof (Split_ASCII t " "%char Ht) as Hsp.
  pose proof (concat_Split t " "%char) as Hcat.
  destruct (strings.Split t " "%char) as [|p ps] eqn:Es;
    [by destruct (Split_cons t " "%char) as (? & ? & ?); congruence|].
  apply Forall_cons in Hsp as [Hp _].
  change (default [] (head (p :: ps))) with p.
  change (<[0%nat:=?x]> (p :: ps)) with (x :: ps).
  rewrite Join_nil. unfold strings.ToLower. rewrite Hp. cbn [concat].
  rewrite map_app, map_map.
  rewrite (map_ext _ strings.lowerByte) by (intros c; apply lowerByte_idemp).
  rewrite <- map_app. change (p ++ concat ps) with (concat (p :: ps)).
  rewrite Hcat, lower_filter_space. unfold t.
  by rewrite titleFrom_lower, filter_space_Replace.
Qed.

Lemma isASCII_concat l :
  Forall (λ p, strings.isASCII p = true) l → strings.isASCII (concat l) = true.
Proof.
  induction 1 as [|p l Hp _ IH]; [done|]. cbn [concat]. by rewrite isASCII_app, Hp, IH.
Qed.

Lemma jsonKey_ASCII key :
  strings.isASCII key = true → strings.isASCII (jsonKey key) = true.
Proof.
  intros Hk. unfold jsonKey, cases.Title_String. rewrite isASCII_Replace, Hk.
  set (t := cases.titleFrom false false (strings.Replace keyReplacer key)).
  assert (strings.isASCII t = true) as Ht
    by (unfold t; by rewrite titleFrom_ascii, isASCII_Replace).
  pose proof (Split_ASCII t " "%char Ht) as Hsp.
  destruct (strings.Split t " "%char) as [|p ps] eqn:Es; [done|].
  apply Forall_cons in Hsp as [Hp Hps].
  change (default [] (head (p :: ps))) with p.
  change (<[0%nat:=?x]> (p :: ps)) with (x :: ps).
  rewrite Join_nil. apply isASCII_concat. constructor; [|done].
  unfold strings.ToLower. by rewrite Hp, isASCII_lower.
Qed.

(** The title caser on words of letters. *)
Lemma titleFrom_word_inside w s :
  letters w →
  cases.titleFrom true false (w ++ s) = map strings.lowerByte w ++ cases.titleFrom true false s.
Proof.
  induction 1 as [|c w Hc _ IH]; [done|].
  destruct (isCased_letter c Hc) as (Hmid & _).
  cbn [app map cases.titleFrom]. rewrite Hc, Hmid. cbn [andb negb]. by rewrite IH.
Qed.

Lemma titleFrom_word w s :
  letters w →
  cases.titleFrom false false (w ++ " "%char :: s)
  = capitalize w ++ " "%char :: cases.titleFrom false false s.
Proof.
  intros Hw. destruct Hw as [|c w Hc Hw]; [done|].
  destruct (isCased_letter c Hc) as (Hmid & _).
  cbn [app capitalize cases.titleFrom]. rewrite Hc, Hmid. cbn [andb negb].
  by rewrite (titleFrom_word_inside w _ Hw).
Qed.

Lemma titleFrom_last_word w :
  letters w → cases.titleFrom false false w = capitalize w.
Proof.
  intros Hw. destruct Hw as [|c w Hc Hw]; [done|].
  destruct (isCased_letter c Hc) as (Hmid & _).
  cbn [capitalize cases.titleFrom]. rewrite Hc, Hmid. cbn [andb negb].
  rewrite <- (app_nil_r w) at 1. rewrite (titleFrom_word_inside w [] Hw).
  by rewrite app_nil_r.
Qed.

Lemma letters_no_space w : letters w → " "%char ∉ w.
Proof.
  intros Hw Hin. unfold letters in Hw. rewrite Forall_forall in Hw.
  by specialize (Hw _ Hin).
Qed.

Lemma letters_capitalize w : letters w → letters (capitalize w).
Proof.
  intros Hw. destruct Hw as [|c w Hc Hw]; [constructor|].
  constructor; [by apply isCased_letter|].
  apply Forall_fmap. eapply Forall_impl; [exact Hw|]. intros x Hx. by apply isCased_letter.
Qed.

Lemma Split_app_sep p s sep :
  sep ∉ p → strings.Split (p ++ sep :: s) sep = p :: strings.Split s sep.
Proof.
  induction p as [|c p IH]; intros Hp.
  - cbn. by rewrite Ascii.eqb_refl.
  - cbn [app strings.Split]. rewrite IH by (intros ?; apply Hp; by right).
    destruct (Ascii.eqb_spec c sep) as [->|_]; [exfalso; apply Hp; by left|done].
Qed.

Lemma isASCII_letters w : letters w → strings.isASCII w = true.
Proof.
  unfold strings.isASCII. induction 1 as [|c w Hc _ IH]; [done|].
  cbn [forallb]. rewrite IH. by destruct (isCased_letter c Hc) as (_ & _ & _ & -> & _).
Qed.

Lemma Replace_joinWords w ws :
  letters w → Forall (λ sw, isKeySeparator sw.1 = true ∧ letters sw.2) ws →
  strings.Replace keyReplacer (joinWords w ws)
  = joinWords w (map (λ sw, (" "%char, sw.2)) ws).
Proof.
  intros Hw Hws.
  assert (∀ v, letters v → strings.Replace keyReplacer v = v) as Hword.
  { intros v Hv. unfold strings.Replace. induction Hv as [|c v Hc _ IH]; [done|].
    cbn [map]. rewrite IH. by destruct (isCased_letter c Hc) as (_ & _ & -> & _). }
  unfold joinWords, strings.Replace in *. rewrite map_app, Hword by done. f_equal.
  induction Hws as [|[s v] ws [Hs Hv] _ IH]; [done|].
  cbn [map concat fst snd] in *. rewrite map_app. cbn [map]. rewrite IH, Hword by done.
  by destruct (isKeySeparator_space s Hs) as [-> _].
Qed.

Lemma titleFrom_joinWords w (ws : list gostring) :
  letters w → Forall letters ws →
  cases.titleFrom false false (joinWords w (map (λ v, (" "%char, v)) ws))
  = joinWords (capitalize w) (map (λ v, (" "%char, capitalize v)) ws).
Proof.
  intros Hw Hws. revert w Hw. unfold joinWords.
  induction Hws as [|v ws Hv _ IH]; intros w Hw.
  - cbn. rewrite !app_nil_r. by apply titleFrom_last_word.
  - cbn [map concat fst snd]. rewrite <- !app_comm_cons.
    rewrite titleFrom_word by done. by rewrite IH.
Qed.

Lemma Split_joinWords w (ws : list gostring) :
  " "%char ∉ w → Forall (λ v, " "%char ∉ v) ws →
  strings.Split (joinWords w (map (λ v, (" "%char, v)) ws)) " "%char = w :: ws.
Proof.
  intros Hw Hws. revert w Hw. unfold joinWords.
  induction Hws as [|v ws Hv _ IH]; intros w Hw.
  - cbn. rewrite app_nil_r. by apply Split_none.
  - cbn [map concat fst snd]. rewrite <- app_comm_cons.
    rewrite Split_app_sep by done. by rewrite IH.
Qed.

Lemma isASCII_joinWords w ws :
  letters w → Forall (λ sw, isKeySeparator sw.1 = true ∧ letters sw.2) ws →
  strings.isASCII (joinWords w ws) = true.
Proof.
  intros Hw Hws. unfold joinWords. rewrite isASCII_app, isASCII_letters by done.
  induction Hws as [|[s v] ws [Hs Hv] _ IH]; [done|].
  cbn [map concat fst snd andb] in *. rewrite isASCII_app.
  unfold strings.isASCII at 1. cbn [forallb].
  destruct (isKeySeparator_space s Hs) as [_ ->].
  fold (strings.isASCII v). by rewrite isASCII_letters.
Qed.

(** The normalized key of words of letters: camel case. *)
Lemma jsonKey_joinWords w ws :
  letters w → Forall (λ sw, isKeySeparator sw.1 = true ∧ letters sw.2) ws →
  jsonKey (joinWords w ws)
  = map strings.lowerByte w ++ concat (map (λ sw, capitalize sw.2) ws).
Proof.
  intros Hw Hws. unfold jsonKey, cases.Title_String.
  rewrite isASCII_Replace, isASCII_joinWords by done.
  rewrite Replace_joinWords by done.
  assert (Forall letters ws.*2) as Hws2.
  { apply Forall_fmap. eapply Forall_impl; [exact Hws|]. by intros ? [_ ?]. }
  replace (map (λ sw : ascii * gostring, (" "%char, sw.2)) ws)
    with (map (λ v, (" "%char, v)) ws.*2) by (by rewrite map_map).
  rewrite titleFrom_joinWords by done. rewrite map_map.
  replace (map (λ x : ascii * gostring, (" "%char, capitalize x.2)) ws)
    with (map (λ v, (" "%char, v)) (map (λ sw, capitalize sw.2) ws))
    by (by rewrite map_map).
  rewrite Split_joinWords.
  - change (default [] (head (?p :: ?ps))) with p.
    change (<[0%nat:=?x]> (?p :: ?ps)) with (x :: ps).
    rewrite Join_nil. cbn [concat]. f_equal.
    unfold strings.ToLower.
    rewrite isASCII_letters by (by apply letters_capitalize).
    destruct w as [|c w]; [done|]. cbn [capitalize map].
    rewrite lowerByte_upperByte, map_map. f_equal.
    apply map_ext. intros x. apply lowerByte_idemp.
  - by apply letters_no_space, letters_capitalize.
  - apply Forall_fmap. eapply Forall_impl; [exact Hws|]. intros [s v] [_ Hv].
    by apply letters_no_space, letters_capitalize.
Qed.
End keys.

(** X11. Keys that differ in the case of their letters only are normalized
    to the same key. *)
Theorem createJsonKey_ignores_case `{CaseTables} (conv : HttpHeaderConverter)
    (key1 key2 : gostring) :
  strings.isASCII key1 = true →
  map strings.lowerByte key1 = map strings.lowerByte key2 →
  createJsonKey conv key1 = createJsonKey conv key2.
Proof.
  intros H1 Heq.
  assert (strings.isASCII key2 = true) as H2
    by (by rewrite <- isASCII_lower, <- Heq, isASCII_lower).
  rewrite !createJsonKey_jsonKey.
  by rewrite <- (jsonKey_lower key1), <- (jsonKey_lower key2), Heq.
Qed.

Lemma createJsonKey_ignores_case_witness :
  @createJsonKey noCaseTables (NewHttpHeaderConverter [] 4) (bytes "CONTENT-type")
  = @createJsonKey noCaseTables (NewHttpHeaderConverter [] 4) (bytes "content-Type").
Proof.
  apply (@createJsonKey_ignores_case noCaseTables (NewHttpHeaderConverter [] 4)
           (bytes "CONTENT-type") (bytes "content-Type")); reflexivity.
Defined.

(** X12. The normalized key of an ASCII key is the key without its hyphens,
    slashes and spaces, up to the case of its letters. *)
Theorem createJsonKey_removes_separators `{CaseTables} (conv : HttpHeaderConverter)
    (key : gostring) :
  strings.isASCII key = true →
  ∃ k, createJsonKey conv key = Done (k, None) ∧
       map strings.lowerByte k
       = filter (λ c, isKeySeparator c = false) (map strings.lowerByte key) ∧
       Forall (λ c, isKeySeparator c = false) k ∧
       strings.isASCII k = true.
Proof.
  intros Hk. exists (jsonKey key). split_and!.
  - apply createJsonKey_jsonKey.
  - by apply jsonKey_letters.
  - pose proof (jsonKey_letters key Hk) as Heq.
    apply Forall_forall. intros c Hc.
    destruct (isKeySeparator c) eqn:Hs; [exfalso|done].
    assert (c ∈ map strings.lowerByte (jsonKey key)) as Hin.
    { apply list_elem_of_fmap. exists c. split; [|done]. revert Hs. each_byte c. }
    rewrite Heq in Hin. apply list_elem_of_filter in Hin as [Hn _]. congruence.
  - by apply jsonKey_ASCII.
Qed.

Lemma createJsonKey_removes_separators_witness :
  ∃ k, @createJsonKey noCaseTables (NewHttpHeaderConverter [] 4) (bytes "X-Content/type options")
         = Done (k, None) ∧
       map strings.lowerByte k = bytes "xcontenttypeoptions".
Proof.
  destruct (@createJsonKey_removes_separators noCaseTables (NewHttpHeaderConverter [] 4)
              (bytes "X-Content/type options")) as (k & Hk & Hl & _); [reflexivity|].
  exists k. split; [exact Hk|]. rewrite Hl. reflexivity.
Defined.

(** X13. Camel case: for a key made of words of ASCII letters separated by
    hyphens, slashes or spaces, the normalized key is the first word in
    lower case followed by the other words, each with its first letter
    in upper case and the others in lower case. *)
Theorem createJsonKey_camel_case `{CaseTables} (conv : HttpHeaderConverter)
    (w : gostring) (ws : list (ascii * gostring)) :
  letters w →
  Forall (λ sw, isKeySeparator sw.1 = true ∧ letters sw.2) ws →
  createJsonKey conv (joinWords w ws)
  = Done (map strings.lowerByte w ++ concat (map (λ sw, capitalize sw.2) ws), None).
Proof.
  intros Hw Hws. rewrite createJsonKey_jsonKey. by rewrite jsonKey_joinWords.
Qed.

Lemma createJsonKey_camel_case_witness :
  @createJsonKey noCaseTables (NewHttpHeaderConverter [] 4) (bytes "WWW-authenticate/NOW")
  = Done (bytes "wwwAuthenticateNow", None).
Proof.
  apply (@createJsonKey_camel_case noCaseTables (NewHttpHeaderConverter [] 4)
           (bytes "WWW") [("-"%char, bytes "authenticate"); ("/"%char, bytes "NOW")]).
  - unfold letters. repeat constructor.
  - repeat constructor.
Defined.

(** ** Trailing white space *)

Lemma DecodeRune_app_ascii s c :
  s ≠ [] → byteval c < 0x80 →
  utf8.DecodeRuneInString (s ++ [c]) = utf8.DecodeRuneInString s.
Proof.
  intros Hs Hc. destruct s as [|c0 t0]; [done|].
  unfold utf8.DecodeRuneInString. cbn [app].
  destruct (utf8.first (byteval c0)) as [| |sz lo hi] eqn:Ef; [done..|].
  apply first_Lead in Ef as (_ & Hlo & Hsz).
  assert ((byteval c <? lo) = true) as Hclo by (apply N.ltb_lt; lia).
  assert ((byteval c <? utf8.locb) = true) as Hcl by (apply N.ltb_lt; unfold utf8.locb; lia).
  destruct sz as [|[|[|[|[|sz]]]]]; try lia;
  destruct t0 as [|c1 [|c2 [|c3 t]]]; cbn [length app Nat.ltb Nat.leb];
    rewrite ?Hclo, ?Hcl; cbn [orb];
    repeat (case_match; try done); done.
Qed.

Lemma lastIndexFrom_app fuel s t f truth i :
  (i ≤ length s)%nat →
  strings.lastIndexFrom fuel (s ++ t) f truth i = strings.lastIndexFrom fuel s f truth i.
Proof.
  revert i. induction fuel as [|fuel IH]; intros i Hi; [done|].
  cbn [strings.lastIndexFrom]. rewrite take_app_le by done.
  destruct (i =? 0)%nat; [done|].
  destruct (utf8.DecodeLastRuneInString (take i s)) as [r size].
  rewrite IH by lia. done.
Qed.

Lemma lastIndexFunc_snoc s c f :
  byteval c < 0x80 → f (byteval c) = true →
  strings.lastIndexFunc (s ++ [c]) f false = strings.lastIndexFunc s f false.
Proof.
  intros Hc Hf. unfold strings.lastIndexFunc.
  rewrite length_app. cbn [length]. replace (length s + 1)%nat with (S (length s)) by lia.
  cbn [strings.lastIndexFrom Nat.eqb].
  rewrite (take_ge (s ++ [c]) (S (length s))) by (rewrite length_app; cbn [length]; lia).
  assert (utf8.DecodeLastRuneInString (s ++ [c]) = (byteval c, 1%nat)) as ->.
  { unfold utf8.DecodeLastRuneInString. rewrite last_snoc.
    unfold utf8.RuneSelf. by destruct (N.ltb_spec (byteval c) 128); [|lia]. }
  rewrite Hf. cbn [Bool.eqb]. replace (S (length s) - 1)%nat with (length s) by lia.
  by rewrite lastIndexFrom_app.
Qed.

Lemma TrimRightFunc_snoc s c f :
  byteval c < 0x80 → f (byteval c) = true →
  strings.TrimRightFunc (s ++ [c]) f = strings.TrimRightFunc s f.
Proof.
  intros Hc Hf. unfold strings.TrimRightFunc. rewrite lastIndexFunc_snoc by done.
  unfold strings.lastIndexFunc.
  destruct (lastIndexFrom_spec (length s) s f (length s) ltac:(lia))
    as [->|(idx & c' & -> & Hidx & Hc' & _)]; [done|].
  replace (0 <=? Z.of_nat idx)%Z with true by (symmetry; apply Z.leb_le; lia).
  rewrite Nat2Z.id, lookup_app_l, Hc' by done.
  cbn [andb fmap option_fmap option_map default from_option id].
  assert (drop idx s ≠ []) as Hne.
  { intros E. apply (f_equal length) in E. rewrite length_drop in E. cbn in E. lia. }
  rewrite drop_app_le by lia. rewrite DecodeRune_app_ascii by done.
  destruct (DecodeRune_width (drop idx s) Hne) as [[_ Hw] _]. rewrite length_drop in Hw.
  destruct (utf8.RuneSelf <=? byteval c'); rewrite take_app_le; try done; lia.
Qed.

Lemma TrimRightFunc_app s ws f :
  Forall (λ c, byteval c < 0x80 ∧ f (byteval c) = true) ws →
  strings.TrimRightFunc (s ++ ws) f = strings.TrimRightFunc s f.
Proof.
  induction ws as [|c ws IH] using rev_ind; intros Hws; [by rewrite app_nil_r|].
  apply Forall_app in Hws as [Hws Hc]. apply Forall_cons in Hc as [[Hc Hf] _].
  rewrite app_assoc, TrimRightFunc_snoc by done. by apply IH.
Qed.

Lemma trimLine_blanks l ws :
  Forall (λ c, isBlank c = true) ws → trimLine (l ++ ws) = trimLine l.
Proof.
  intros Hws. unfold trimLine.
  rewrite <- app_assoc, !(TrimRightFunc_app l); [done|by repeat constructor|].
  apply Forall_app. split; [|by repeat constructor].
  eapply Forall_impl; [exact Hws|]. intros c Hc. unfold isBlank, utf8.RuneSelf in Hc.
  apply andb_prop in Hc as [Hc1 Hc2]. by apply N.ltb_lt in Hc1.
Qed.

Lemma retainedLines_app a b :
  a = [] ∨ last a = Some LF →
  retainedLines (a ++ b) = retainedLines a ++ retainedLines b.
Proof.
  intros [->|(a0 & ->)%last_Some]; [done|].
  unfold retainedLines. rewrite <- app_assoc. cbn [app].
  rewrite !splitLines_app_LF. cbn [fst splitLines].
  rewrite !fmap_app, !fmap_cons, !filter_app, !filter_cons, <- app_assoc.
  by destruct (decide (4 ≤ length (trimLine (splitLines a0).2))%nat).
Qed.

Lemma retainedLines_line l :
  LF ∉ l →
  retainedLines (l ++ [LF]) = if decide (4 ≤ length (trimLine l))%nat then [trimLine l] else [].
Proof.
  intros Hl. unfold retainedLines. rewrite splitLines_app_LF, splitLines_no_LF by done.
  cbn [fst snd splitLines app fmap list_fmap]. rewrite filter_cons, filter_nil. done.
Qed.

Section composition.
Context `{CaseTables} `{Runtime}.

Lemma streams_app conv f la lb :
  streams conv f (la ++ lb) =
    ((streams conv f la).1 ++ (streams conv (match la with [] => f | _ => false end) lb).1,
     (streams conv f la).2 ++ (streams conv (match la with [] => f | _ => false end) lb).2).
Proof.
  revert f. induction la as [|l la IH]; intros f.
  - cbn. by destruct (streams conv f lb).
  - cbn [app streams]. rewrite (IH false).
    assert (streams conv (match la with [] => false | _ => false end) lb
            = streams conv false lb) as -> by (by destruct la).
    destruct (streams conv false la) as [c1 n1], (streams conv false lb) as [c2 n2].
    by destruct (classOf conv f l).
Qed.

Lemma streams_first_not_status conv ls :
  (∀ l, head ls = Some l → statusRecord conv l = None) →
  streams conv true ls = streams conv false ls.
Proof.
  destruct ls as [|l ls]; [done|]. intros Hl. cbn [streams].
  unfold classOf. by rewrite (Hl l eq_refl).
Qed.

Lemma insertRecord_union m r : insertRecord m r = insertRecord ∅ r ∪ m.
Proof.
  destruct r as [|k [|v r]]; cbn; rewrite ?(left_id_L ∅ (∪)); try done.
  by rewrite insert_union_singleton_l, insert_empty.
Qed.

Lemma foldl_insertRecord_union cs m :
  foldl insertRecord m cs = foldl insertRecord ∅ cs ∪ m.
Proof.
  revert m. induction cs as [|r cs IH]; intros m; cbn [foldl].
  - by rewrite (left_id_L ∅ (∪)).
  - rewrite IH, (IH (insertRecord ∅ r)), (insertRecord_union m r).
    by rewrite (assoc_L (∪)).
Qed.

Lemma pairRecord_classOf conv l stream k v :
  parsePair conv l stream = Done (stream ++ [[k; v]], None) →
  classOf conv false l = Some [k; v] ∧ l ≠ [].
Proof.
  intros Hp. assert (l ≠ []) as Hl by (by intros ->).
  split; [|done]. rewrite parsePair_record in Hp by done. unfold classOf.
  destruct (pairRecord conv l) as [r|]; [|done].
  injection Hp as Hp. unfold send in Hp. apply app_inv_head in Hp. by injection Hp as ->.
Qed.
End composition.

(** X14. White space at the end of a line is ignored: in particular a
    carriage return before the line feed, so that lines ending in CR LF
    are read as lines ending in LF. *)
Theorem trailing_blanks_ignored `{CaseTables} `{Runtime} (conv : HttpHeaderConverter)
    (pre line ws post : gostring) :
  pre = [] ∨ last pre = Some LF →
  LF ∉ line → LF ∉ ws →
  Forall (λ c, isBlank c = true) ws →
  convert (SetRawHeader conv (pre ++ line ++ ws ++ [LF] ++ post))
    = convert (SetRawHeader conv (pre ++ line ++ [LF] ++ post)) ∧
  Output (SetRawHeader conv (pre ++ line ++ ws ++ [LF] ++ post))
    = Output (SetRawHeader conv (pre ++ line ++ [LF] ++ post)).
Proof.
  intros Hpre Hl Hws Hb.
  assert (retainedLines (pre ++ line ++ ws ++ [LF] ++ post)
          = retainedLines (pre ++ line ++ [LF] ++ post)) as Hlines.
  { rewrite !(retainedLines_app pre) by done. f_equal.
    rewrite !(app_assoc line), (app_assoc (line ++ ws)).
    rewrite !(retainedLines_app (_ ++ [LF])) by (right; apply last_snoc).
    rewrite !retainedLines_line; [|done|].
    - by rewrite trimLine_blanks.
    - intros [?|?]%elem_of_app; done. }
  split; [by apply convert_lines|by apply OutputWith_lines].
Qed.

Lemma trailing_blanks_ignored_witness :
  @Output noCaseTables runtime64
     (SetRawHeader (NewHttpHeaderConverter [] 4)
        (ln "HTTP/1.1 200 OK" ++ bytes "Server: nginx" ++ [CR] ++ [LF] ++ ln "X-Cache: HIT"))
  = @Output noCaseTables runtime64
     (SetRawHeader (NewHttpHeaderConverter [] 4)
        (ln "HTTP/1.1 200 OK" ++ bytes "Server: nginx" ++ [LF] ++ ln "X-Cache: HIT")).
Proof.
  apply (@trailing_blanks_ignored noCaseTables runtime64 (NewHttpHeaderConverter [] 4)
           (ln "HTTP/1.1 200 OK") (bytes "Server: nginx") [CR] (ln "X-Cache: HIT")).
  - right. reflexivity.
  - apply notin_dec. vm_compute. reflexivity.
  - apply notin_dec. vm_compute. reflexivity.
  - repeat constructor.
Defined.

(** X15. Reading one input after another.  When the first input ends with a
    line feed, and the first retained line of the second is no status
    line (or the first input has no retained line), [convert] on their
    concatenation returns the union of the two mappings, the entries of
    the second input winning, and the unconverted lines of the first
    followed by those of the second. *)
Theorem convert_concatenation `{CaseTables} `{Runtime} (conv : HttpHeaderConverter) (a b : gostring) :
  makechan (numWorker conv) = None →
  a = [] ∨ last a = Some LF →
  retainedLines a = [] ∨
    (∀ l, head (retainedLines b) = Some l → rejects (parseStatus conv l []) = true) →
  ∃ ca na cb nb,
    convert (SetRawHeader conv a) = Done (ca, na, None) ∧
    convert (SetRawHeader conv b) = Done (cb, nb, None) ∧
    convert (SetRawHeader conv (a ++ b)) = Done (cb ∪ ca, na ++ nb, None).
Proof.
  intros Hn Ha Hb. do 4 eexists.
  split; [by apply convert_eq|]. split; [by apply convert_eq|].
  rewrite convert_eq by done. unfold convertedOf, rawLinesOf, recordsOf.
  cbn [rawHeader SetRawHeader].
  rewrite (streams_format (SetRawHeader conv (a ++ b)) conv) by done.
  rewrite (streams_format (SetRawHeader conv a) conv) by done.
  rewrite (streams_format (SetRawHeader conv b) conv) by done.
  rewrite retainedLines_app, streams_app by done. cbn [fst snd].
  assert (streams conv (match retainedLines a with [] => true | _ => false end)
            (retainedLines b) = streams conv true (retainedLines b)) as ->.
  { destruct Hb as [->|Hb]; [done|].
    destruct (retainedLines a) as [|a0 la]; [done|]. symmetry.
    apply streams_first_not_status.
    intros l Hl. specialize (Hb l Hl). rewrite rejects_parseStatus in Hb.
    by destruct (statusRecord conv l). }
  rewrite foldl_app, foldl_insertRecord_union, concat_app. done.
Qed.

Lemma convert_concatenation_witness :
  ∃ ca na cb nb,
    @convert noCaseTables runtime64
       (SetRawHeader (NewHttpHeaderConverter [] 4)
          (ln "HTTP/1.1 200 OK" ++ ln "X-Cache: MISS")) = Done (ca, na, None) ∧
    @convert noCaseTables runtime64
       (SetRawHeader (NewHttpHeaderConverter [] 4)
          (ln "X-Cache: HIT" ++ ln "no header here")) = Done (cb, nb, None) ∧
    @convert noCaseTables runtime64
       (SetRawHeader (NewHttpHeaderConverter [] 4)
          ((ln "HTTP/1.1 200 OK" ++ ln "X-Cache: MISS") ++
           (ln "X-Cache: HIT" ++ ln "no header here"))) = Done (cb ∪ ca, na ++ nb, None).
Proof.
  apply (@convert_concatenation noCaseTables runtime64 (NewHttpHeaderConverter [] 4)
           (ln "HTTP/1.1 200 OK" ++ ln "X-Cache: MISS")
           (ln "X-Cache: HIT" ++ ln "no header here")).
  - reflexivity.
  - right. reflexivity.
  - right. intros l Hl. vm_compute in Hl. injection Hl as <-. vm_compute. reflexivity.
Defined.

(** X16. The order of two header lines with different keys does not matter:
    exchanging two neighbouring lines that are both read as pairs,
    after the first retained line, leaves [Output] unchanged. *)
Theorem header_order_irrelevant `{CaseTables} `{Runtime} (conv : HttpHeaderConverter)
    (pre l1 l2 post k1 v1 k2 v2 : gostring) :
  makechan (numWorker conv) = None →
  last pre = Some LF → retainedLines pre ≠ [] →
  LF ∉ l1 → LF ∉ l2 →
  (4 ≤ length (strings.TrimRightFunc (l1 ++ [LF]) unicode.IsSpace))%nat →
  (4 ≤ length (strings.TrimRightFunc (l2 ++ [LF]) unicode.IsSpace))%nat →
  parsePair conv (strings.TrimRightFunc (l1 ++ [LF]) unicode.IsSpace) []
    = Done ([[k1; v1]], None) →
  parsePair conv (strings.TrimRightFunc (l2 ++ [LF]) unicode.IsSpace) []
    = Done ([[k2; v2]], None) →
  k1 ≠ k2 →
  convert (SetRawHeader conv (pre ++ l1 ++ [LF] ++ l2 ++ [LF] ++ post))
    = convert (SetRawHeader conv (pre ++ l2 ++ [LF] ++ l1 ++ [LF] ++ post)) ∧
  Output (SetRawHeader conv (pre ++ l1 ++ [LF] ++ l2 ++ [LF] ++ post))
    = Output (SetRawHeader conv (pre ++ l2 ++ [LF] ++ l1 ++ [LF] ++ post)).
Proof.
  intros Hn Hpre Hne Hl1 Hl2 H41 H42 Hp1 Hp2 Hk.
  fold (trimLine l1) in *. fold (trimLine l2) in *.
  destruct (pairRecord_classOf conv _ [] _ _ Hp1) as [Hc1 _].
  destruct (pairRecord_classOf conv _ [] _ _ Hp2) as [Hc2 _].
  assert (∀ x y, LF ∉ x → (4 ≤ length (trimLine x))%nat →
                 LF ∉ y → (4 ≤ length (trimLine y))%nat →
            retainedLines (pre ++ x ++ [LF] ++ y ++ [LF] ++ post)
            = retainedLines pre ++ [trimLine x; trimLine y] ++ retainedLines post) as Hlines.
  { intros x y Hx H4x Hy H4y. rewrite (retainedLines_app pre) by (by right). f_equal.
    rewrite (app_assoc x), (retainedLines_app (x ++ [LF])) by (right; apply last_snoc).
    rewrite (app_assoc y), (retainedLines_app (y ++ [LF])) by (right; apply last_snoc).
    rewrite !retainedLines_line by done.
    by destruct (decide (4 ≤ length (trimLine x))%nat),
                (decide (4 ≤ length (trimLine y))%nat). }
  assert (convert (SetRawHeader conv (pre ++ l1 ++ [LF] ++ l2 ++ [LF] ++ post))
          = convert (SetRawHeader conv (pre ++ l2 ++ [LF] ++ l1 ++ [LF] ++ post))) as Hconv.
  { rewrite !convert_eq by done. unfold convertedOf, rawLinesOf, recordsOf.
    cbn [rawHeader SetRawHeader].
    rewrite (streams_format (SetRawHeader conv _) conv) by done.
    rewrite (streams_format (SetRawHeader conv (pre ++ l2 ++ _)) conv) by done.
    rewrite !Hlines by done. rewrite !(streams_app conv true (retainedLines pre)).
    destruct (retainedLines pre) as [|p ps] eqn:Ep; [done|]. cbn [fst snd].
    cbn [app streams]. rewrite Hc1, Hc2.
    destruct (streams conv false (retainedLines post)) as [cs ncs]. cbn [fst snd].
    rewrite !foldl_app. cbn [foldl insertRecord].
    by rewrite (insert_insert_ne _ k1 k2) by done. }
  split; [done|]. unfold Output, OutputWith. by rewrite Hconv.
Qed.

Lemma header_order_irrelevant_witness :
  @Output noCaseTables runtime64
     (SetRawHeader (NewHttpHeaderConverter [] 4)
        (ln "HTTP/1.1 200 OK" ++ bytes "Server: nginx" ++ [LF] ++ bytes "X-Cache: HIT" ++ [LF] ++ []))
  = @Output noCaseTables runtime64
     (SetRawHeader (NewHttpHeaderConverter [] 4)
        (ln "HTTP/1.1 200 OK" ++ bytes "X-Cache: HIT" ++ [LF] ++ bytes "Server: nginx" ++ [LF] ++ [])).
Proof.
  apply (@header_order_irrelevant noCaseTables runtime64 (NewHttpHeaderConverter [] 4)
           (ln "HTTP/1.1 200 OK") (bytes "Server: nginx") (bytes "X-Cache: HIT") []
           (bytes "server") (bytes "nginx") (bytes "xCache") (bytes "HIT")).
  - reflexivity.
  - reflexivity.
  - vm_compute. discriminate.
  - apply notin_dec. vm_compute. reflexivity.
  - apply notin_dec. vm_compute. reflexivity.
  - vm_compute. lia.
  - vm_compute. lia.
  - vm_compute. reflexivity.
  - vm_compute. reflexivity.
  - discriminate.
Defined.

(** ** The serializer *)

Lemma byteval_inj x y : byteval x = byteval y → x = y.
Proof.
  unfold byteval. intros Hxy.
  by rewrite <- (ascii_N_embedding x), <- (ascii_N_embedding y), Hxy.
Qed.

Lemma string_ltb_irrefl a : string_ltb a a = false.
Proof. induction a as [|x a IH]; [done|]. cbn. by rewrite N.ltb_irrefl. Qed.

Lemma string_ltb_trans a b c :
  string_ltb a b = true → string_ltb b c = true → string_ltb a c = true.
Proof.
  revert b c. induction a as [|x a IH]; intros [|y b] [|z c]; cbn; try done.
  destruct (N.ltb_spec (byteval x) (byteval y)), (N.ltb_spec (byteval y) (byteval x)),
    (N.ltb_spec (byteval y) (byteval z)), (N.ltb_spec (byteval z) (byteval y)),
    (N.ltb_spec (byteval x) (byteval z)), (N.ltb_spec (byteval z) (byteval x));
    try done; try lia.
  apply IH.
Qed.

Lemma string_ltb_total a b :
  string_ltb a b = false → string_ltb b a = false → a = b.
Proof.
  revert b. induction a as [|x a IH]; intros [|y b]; cbn; try done.
  destruct (N.ltb_spec (byteval x) (byteval y)), (N.ltb_spec (byteval y) (byteval x));
    try done; try lia.
  intros Hab Hba. f_equal; [apply byteval_inj; lia|by apply IH].
Qed.

Lemma string_ltb_asym a b : string_ltb a b = true → string_ltb b a = false.
Proof.
  intros Hab. destruct (string_ltb b a) eqn:Hba; [|done].
  by rewrite <- (string_ltb_irrefl a), (string_ltb_trans a b a Hab Hba).
Qed.

Lemma insertSorted_perm kv l : json.insertSorted kv l ≡ₚ kv :: l.
Proof.
  induction l as [|kv' l IH]; [done|]. cbn [json.insertSorted].
  destruct (string_ltb kv'.1 kv.1); [|done]. rewrite IH. apply Permutation_swap.
Qed.

Lemma sortedEntries_perm m : json.sortedEntries m ≡ₚ map_to_list m.
Proof.
  unfold json.sortedEntries. induction (map_to_list m) as [|kv l IH]; [done|].
  cbn [foldr]. by rewrite insertSorted_perm, IH.
Qed.

Lemma insertSorted_sorted kv l :
  kv.1 ∉ l.*1 →
  StronglySorted (λ x y, string_ltb x.1 y.1 = true) l →
  StronglySorted (λ x y, string_ltb x.1 y.1 = true) (json.insertSorted kv l).
Proof.
  intros Hnew Hl. induction Hl as [|kv' l Hl IH Hall]; [by repeat constructor|].
  cbn [json.insertSorted]. destruct (string_ltb kv'.1 kv.1) eqn:Hlt.
  - constructor.
    + apply IH. intros Hin. apply Hnew. by right.
    + rewrite insertSorted_perm. by constructor.
  - assert (string_ltb kv.1 kv'.1 = true) as Hkv.
    { destruct (string_ltb kv.1 kv'.1) eqn:Hgt; [done|].
      exfalso. apply Hnew. rewrite (string_ltb_total _ _ Hgt Hlt). by left. }
    constructor; [by constructor|]. constructor; [done|].
    eapply Forall_impl; [exact Hall|]. intros y Hy. by eapply string_ltb_trans.
Qed.

Lemma sortedEntries_sorted m :
  StronglySorted (λ x y, string_ltb x.1 y.1 = true) (json.sortedEntries m).
Proof.
  unfold json.sortedEntries. pose proof (NoDup_fst_map_to_list m) as Hnd.
  induction (map_to_list m) as [|kv l IH]; [constructor|].
  cbn [foldr]. apply NoDup_cons in Hnd as [Hkv Hnd].
  apply insertSorted_sorted; [|by apply IH].
  intros Hin. apply Hkv.
  assert (foldr json.insertSorted [] l ≡ₚ l) as Hp.
  { clear. induction l as [|x l IH]; [done|]. cbn. by rewrite insertSorted_perm, IH. }
  by rewrite Hp in Hin.
Qed.

Lemma Join_cons x xs sep :
  strings.Join (x :: xs) sep = x ++ match xs with [] => [] | _ => sep ++ strings.Join xs sep end.
Proof. destruct xs; [cbn; by rewrite app_nil_r|reflexivity]. Qed.

Lemma Forall_Join (P : ascii → Prop) elems sep :
  Forall P sep → Forall (Forall P) elems → Forall P (strings.Join elems sep).
Proof.
  intros Hsep. induction 1 as [|x xs Hx Hxs IH]; [constructor|].
  rewrite Join_cons. apply Forall_app. split; [done|].
  destruct xs; [constructor|]. apply Forall_app. by split.
Qed.

Lemma Join_elem x elems sep :
  x ∈ elems → ∃ pre post, strings.Join elems sep = pre ++ x ++ post.
Proof.
  induction 1 as [x xs|x y xs Hx IH].
  - rewrite Join_cons. by exists [], (match xs with [] => [] | _ => sep ++ strings.Join xs sep end).
  - rewrite Join_cons. destruct IH as (pre & post & IH).
    destruct xs as [|z xs]; [by apply elem_of_nil in Hx|].
    exists (y ++ sep ++ pre), post. rewrite IH. by rewrite <- !app_assoc.
Qed.

Lemma forallb_Forall (p : ascii → bool) l :
  forallb p l = true → Forall (λ x, p x = true) l.
Proof.
  intros Hl. apply Forall_forall. intros x Hx.
  by apply (proj1 (forallb_forall p l) Hl), list_elem_of_In.
Qed.

Lemma htmlSafe_output c : json.htmlSafe (byteval c) = true → isOutputByte c = true.
Proof. each_byte c. Qed.

Lemma escapeByte_output c : Forall (λ x, isOutputByte x = true) (json.escapeByte c).
Proof. apply forallb_Forall. each_byte c. Qed.

Lemma hex_output n : isOutputByte (json.hex n) = true.
Proof.
  unfold json.hex.
  destruct (N.to_nat n) as [|[|[|[|[|[|[|[|[|[|[|[|[|[|[|[|k]]]]]]]]]]]]]]]]; try done.
  by destruct k.
Qed.

Lemma nonASCII_output c : 0x80 ≤ byteval c → isOutputByte c = true.
Proof. each_byte c; intros Hc; lia. Qed.

Lemma encodeFrom_output fuel s :
  Forall (λ x, isOutputByte x = true) (json.encodeFrom fuel s).
Proof.
  revert s. induction fuel as [|fuel IH]; intros s; [constructor|].
  cbn [json.encodeFrom]. destruct s as [|c s]; [constructor|].
  destruct (N.ltb_spec (byteval c) utf8.RuneSelf) as [Hc|Hc].
  - apply Forall_app. split; [|apply IH].
    destruct (json.htmlSafe (byteval c)) eqn:Hs;
      [by repeat constructor; apply htmlSafe_output|apply escapeByte_output].
  - destruct (utf8.DecodeRuneInString (c :: s)) as [r size] eqn:Ed.
    destruct ((r =? utf8.RuneError) && (size =? 1)%nat);
      [apply Forall_app; split; [by repeat constructor|apply IH]|].
    destruct ((r =? 8232) || (r =? 8233)).
    { apply Forall_app; split; [by repeat constructor|].
      constructor; [apply hex_output|apply IH]. }
    apply Forall_app. split; [|apply IH].
    destruct (DecodeRune_width (c :: s)) as [[Hlo Hhi] Hw]; [done|].
    rewrite Ed in Hlo, Hhi, Hw. cbn [snd] in *.
    destruct (decide (2 ≤ size)%nat) as [H2|H2].
    + eapply Forall_impl; [exact (Hw H2)|]. intros x Hx. by apply nonASCII_output.
    + replace size with 1%nat by lia. cbn. repeat constructor. by apply nonASCII_output.
Qed.

Lemma encodeString_output s : Forall (λ x, isOutputByte x = true) (json.encodeString s).
Proof.
  unfold json.encodeString. constructor; [done|].
  apply Forall_app. split; [apply encodeFrom_output|by repeat constructor].
Qed.

Lemma encodeEntry_output kv : Forall (λ x, isOutputByte x = true) (json.encodeEntry kv).
Proof.
  unfold json.encodeEntry. apply Forall_app. split; [apply encodeString_output|].
  constructor; [done|]. destruct kv.2 as [s|l]; cbn [json.encodeValue].
  - apply encodeString_output.
  - constructor; [done|]. apply Forall_app. split; [|by repeat constructor].
    apply Forall_Join; [by repeat constructor|].
    apply Forall_fmap, Forall_forall. intros x _. apply encodeString_output.
Qed.

Lemma Marshal_output m : Forall (λ x, isOutputByte x = true) (json.Marshal m).1.
Proof.
  unfold json.Marshal. cbn [fst]. constructor; [done|].
  apply Forall_app. split; [|by repeat constructor].
  apply Forall_Join; [by repeat constructor|].
  apply Forall_fmap, Forall_forall. intros x _. apply encodeEntry_output.
Qed.

Lemma Marshal_braces m :
  ∃ body, (json.Marshal m).1 = "{"%char :: body ++ ["}"%char] ∧
          (body = [] ↔ m = ∅).
Proof.
  unfold json.Marshal. cbn [fst]. eexists. split; [reflexivity|].
  pose proof (sortedEntries_perm m) as Hp.
  destruct (json.sortedEntries m) as [|e es] eqn:Es.
  - split; [|done]. intros _. apply Permutation_nil in Hp.
    by apply map_to_list_empty_iff.
  - split.
    + cbn [map]. rewrite Join_cons. unfold json.encodeEntry, json.encodeString. done.
    + intros ->. rewrite map_to_list_empty in Hp. by apply Permutation_nil_r in Hp.
Qed.

(** Plain text is written as it is, between double quotes. *)
Lemma encodeFrom_plain fuel s :
  (length s ≤ fuel)%nat →
  Forall (λ c, json.htmlSafe (byteval c) = true) s → json.encodeFrom fuel s = s.
Proof.
  revert s. induction fuel as [|fuel IH]; intros s Hf Hs.
  - by destruct s; [|cbn in Hf; lia].
  - destruct Hs as [|c s Hc Hs]; [done|]. cbn [json.encodeFrom].
    assert ((byteval c <? utf8.RuneSelf) = true) as -> by (revert Hc; each_byte c).
    rewrite Hc. cbn [app]. f_equal. apply IH; [cbn in Hf; lia|done].
Qed.

Lemma encodeString_plain s :
  Forall (λ c, json.htmlSafe (byteval c) = true) s →
  json.encodeString s = QUOTE :: s ++ [QUOTE].
Proof. intros Hs. unfold json.encodeString. by rewrite encodeFrom_plain. Qed.

(** ** The mapping and its serialization *)
Section mapping.
Context `{CaseTables} `{Runtime}.

Lemma foldl_insertRecord_nonempty cs m :
  Forall (λ s, length s = 2%nat) cs → cs ≠ [] → foldl insertRecord m cs ≠ ∅.
Proof.
  intros Hcs Hne. destruct (exists_last Hne) as (cs' & r & ->).
  apply Forall_app in Hcs as [_ Hr]. apply Forall_cons in Hr as [Hr _].
  destruct r as [|k [|v [|]]]; try done.
  rewrite foldl_app. cbn. apply insert_non_empty.
Qed.

Lemma finalMapping_empty conv :
  finalMapping conv = ∅ ↔ retainedLines (rawHeader conv) = [].
Proof.
  unfold finalMapping, convertedOf, rawLinesOf, recordsOf.
  set (ls := retainedLines (rawHeader conv)).
  pose proof (streams_count conv true ls) as Hcount.
  destruct (streams_shape conv true ls) as [Hshape _].
  destruct (streams_raw_sublist conv true ls) as [Hraw _].
  destruct (streams conv true ls) as [cs ncs] eqn:Es. cbn [fst snd] in *.
  split.
  - intros Hm. destruct (Nat.ltb_spec 0 (length (concat ncs))) as [Hlt|Hge].
    + by apply insert_non_empty in Hm.
    + destruct cs as [|r cs]; [|by apply foldl_insertRecord_nonempty in Hm].
      assert (ncs = []) as -> by (rewrite Hraw; by destruct (concat ncs); [|cbn in Hge; lia]).
      cbn in Hcount. by destruct ls.
  - intros Hls. rewrite Hls in Hcount. by destruct cs, ncs.
Qed.
End mapping.

(** X17. [Output] returns [{}] exactly when no line of the input is retained:
    the empty input, an input without line feed, blank or short lines
    only.  [convert] then returns an empty mapping and no line. *)
Theorem Output_empty_object `{CaseTables} `{Runtime} (conv : HttpHeaderConverter) :
  makechan (numWorker conv) = None →
  (Output conv = Done (bytes "{}", None) ↔ retainedLines (rawHeader conv) = []) ∧
  (retainedLines (rawHeader conv) = [] → convert conv = Done (∅, [], None)).
Proof.
  intros Hn. unfold Output. rewrite OutputWith_eq, convert_eq by done. split.
  - rewrite <- finalMapping_empty.
    destruct (Marshal_braces (finalMapping conv)) as (body & -> & Hbody).
    rewrite <- Hbody. split.
    + intros [= Hb]. by destruct body as [|? [|]].
    + by intros ->.
  - intros Hls. unfold convertedOf, rawLinesOf, recordsOf. by rewrite Hls.
Qed.

Lemma Output_empty_object_witness :
  @Output noCaseTables runtime64 (NewHttpHeaderConverter [] 4) = Done (bytes "{}", None) ∧
  @Output noCaseTables runtime64 (NewHttpHeaderConverter (ln "" ++ ln "a:b" ++ bytes "Server: nginx") 4)
    = Done (bytes "{}", None).
Proof.
  split.
  - apply (@Output_empty_object noCaseTables runtime64 (NewHttpHeaderConverter [] 4)); [reflexivity|].
    reflexivity.
  - apply (@Output_empty_object noCaseTables runtime64
             (NewHttpHeaderConverter (ln "" ++ ln "a:b" ++ bytes "Server: nginx") 4));
      [reflexivity|]. vm_compute. reflexivity.
Defined.

(** X18. What [Output] returns holds no control character, so no line feed,
    and none of [<], [>] and [&]: the serializer escapes them. *)
Theorem Output_bytes `{CaseTables} `{Runtime} (conv : HttpHeaderConverter) :
  makechan (numWorker conv) = None →
  ∃ resp, Output conv = Done (resp, None) ∧
          Forall (λ c, isOutputByte c = true) resp ∧
          (LF ∉ resp) ∧ ("<"%char ∉ resp) ∧ (">"%char ∉ resp) ∧ ("&"%char ∉ resp).
Proof.
  intros Hn. eexists. split; [by apply OutputWith_eq|].
  pose proof (Marshal_output (finalMapping conv)) as Hout.
  split; [done|]. rewrite Forall_forall in Hout.
  split_and!; intros Hin; by specialize (Hout _ Hin).
Qed.

Lemma Output_bytes_witness :
  ∃ resp,
    @Output noCaseTables runtime64 (NewHttpHeaderConverter (ln "Server: <b>&" ++ ln "odd line") 4)
      = Done (resp, None) ∧
    ("<"%char ∉ resp) ∧ (LF ∉ resp).
Proof.
  destruct (@Output_bytes noCaseTables runtime64
              (NewHttpHeaderConverter (ln "Server: <b>&" ++ ln "odd line") 4))
    as (resp & Hr & _ & Hlf & Hlt & _); [reflexivity|].
  exists resp. split; [exact Hr|]. split; [exact Hlt|exact Hlf].
Defined.

(** X19. [main] exits with status 0 and prints one line: an opening brace,
    a text without line feed, a closing brace and a line feed. *)
Theorem main_prints_one_line `{CaseTables} `{Runtime} (stdin : gostring) (numCPU : Z) :
  makechan numCPU = None →
  ∃ body, main stdin numCPU = Done (0%Z, "{"%char :: body ++ ["}"%char; LF]) ∧
          Output (NewHttpHeaderConverter stdin numCPU)
            = Done ("{"%char :: body ++ ["}"%char], None) ∧
          (LF ∉ body).
Proof.
  intros Hn. unfold main, Output.
  rewrite OutputWith_eq by done. cbn [mbind exec_bind].
  destruct (Marshal_braces (finalMapping (NewHttpHeaderConverter stdin numCPU)))
    as (body & Hb & _).
  pose proof (Marshal_output (finalMapping (NewHttpHeaderConverter stdin numCPU))) as Hout.
  rewrite Hb in *. exists body. split_and!.
  - cbn [app]. by rewrite <- app_assoc.
  - done.
  - apply Forall_cons in Hout as [_ Hout]. apply Forall_app in Hout as [Hout _].
    rewrite Forall_forall in Hout. intros Hin. by specialize (Hout _ Hin).
Qed.

Lemma main_prints_one_line_witness :
  ∃ body, @main noCaseTables runtime64 scenarioInput 8
          = Done (0%Z, "{"%char :: body ++ ["}"%char; LF]) ∧ (LF ∉ body).
Proof.
  destruct (@main_prints_one_line noCaseTables runtime64 scenarioInput 8)
    as (body & Hm & _ & Hlf); [reflexivity|].
  exists body. split; [exact Hm|exact Hlf].
Defined.

(** X20. The keys of the object [Output] returns come in strictly increasing
    order of their bytes, one entry for each key of the mapping. *)
Theorem Output_keys_sorted `{CaseTables} `{Runtime} (conv : HttpHeaderConverter) :
  makechan (numWorker conv) = None →
  ∃ converted notConverted entries,
    convert conv = Done (converted, notConverted, None) ∧
    Output conv =
      Done (bytes "{" ++ strings.Join (map json.encodeEntry entries) (bytes ",") ++ bytes "}",
            None) ∧
    entries ≡ₚ map_to_list (if (0 <? length notConverted)%nat
                            then <[(if (outputFormat conv =? JsonFormat)%Z
                                    then bytes "raw" else bytes "Raw")
                                   := json.IStrings notConverted]> converted
                            else converted) ∧
    StronglySorted (λ x y, string_ltb x.1 y.1 = true) entries.
Proof.
  intros Hn. exists (convertedOf conv), (rawLinesOf conv), (json.sortedEntries (finalMapping conv)).
  split_and!.
  - by apply convert_eq.
  - unfold Output. by rewrite OutputWith_eq.
  - apply sortedEntries_perm.
  - apply sortedEntries_sorted.
Qed.

Lemma Output_keys_sorted_witness :
  ∃ entries,
    @Output noCaseTables runtime64 (NewHttpHeaderConverter twiceInput 4) =
      Done (bytes "{" ++ strings.Join (map json.encodeEntry entries) (bytes ",") ++ bytes "}",
            None) ∧
    StronglySorted (λ x y, string_ltb x.1 y.1 = true) entries.
Proof.
  destruct (@Output_keys_sorted noCaseTables runtime64 (NewHttpHeaderConverter twiceInput 4))
    as (converted & notConverted & entries & _ & Ho & _ & Hs); [reflexivity|].
  exists entries. split; [exact Ho|exact Hs].
Defined.

(** X21. An entry of the mapping whose key and value are plain text
    (printable ASCII other than the double quote, the backslash, [<],
    [>] and [&]) is found as it is in what [Output] returns: the key and
    the value between double quotes, a colon between them. *)
Theorem Output_plain_entry `{CaseTables} `{Runtime} (conv : HttpHeaderConverter)
    (converted : gmap gostring json.interface) (notConverted : list gostring)
    (k v : gostring) :
  makechan (numWorker conv) = None →
  convert conv = Done (converted, notConverted, None) →
  converted !! k = Some (json.IString v) →
  notConverted = [] ∨ (k ≠ bytes "raw" ∧ k ≠ bytes "Raw") →
  Forall (λ c, json.htmlSafe (byteval c) = true) k →
  Forall (λ c, json.htmlSafe (byteval c) = true) v →
  ∃ pre post,
    Output conv = Done (pre ++ (QUOTE :: k ++ [QUOTE]) ++ bytes ":" ++
                               (QUOTE :: v ++ [QUOTE]) ++ post, None).
Proof.
  intros Hn Hc Hk Hraw Hpk Hpv. rewrite convert_eq in Hc by done.
  injection Hc as <- <-.
  assert (finalMapping conv !! k = Some (json.IString v)) as Hf.
  { unfold finalMapping. destruct (0 <? length (rawLinesOf conv))%nat eqn:Hlen; [|done].
    destruct Hraw as [Hnil|[Hr1 Hr2]]; [by rewrite Hnil in Hlen|].
    rewrite lookup_insert_ne; [done|]. by destruct (outputFormat conv =? JsonFormat)%Z. }
  apply elem_of_map_to_list in Hf. rewrite <- sortedEntries_perm in Hf.
  apply (list_elem_of_fmap_2 json.encodeEntry) in Hf.
  destruct (Join_elem _ (map json.encodeEntry (json.sortedEntries (finalMapping conv)))
              (bytes ",") Hf) as (pre & post & Hj).
  exists ("{"%char :: pre), (post ++ bytes "}").
  unfold Output. rewrite OutputWith_eq by done. unfold json.Marshal. cbn [fst].
  rewrite Hj. unfold json.encodeEntry. cbn [fst snd json.encodeValue].
  rewrite !encodeString_plain by done. do 2 f_equal.
  cbn. repeat first [rewrite <- app_assoc | progress cbn [app]]. done.
Qed.

Lemma Output_plain_entry_witness :
  ∃ pre post,
    @Output noCaseTables runtime64 (NewHttpHeaderConverter scenarioInput 4)
    = Done (pre ++ quoted "contentType" ++ bytes ":" ++ quoted "text/html" ++ post, None).
Proof.
  apply (@Output_plain_entry noCaseTables runtime64 (NewHttpHeaderConverter scenarioInput 4)
           (@convertedOf noCaseTables (NewHttpHeaderConverter scenarioInput 4))
           (@rawLinesOf noCaseTables (NewHttpHeaderConverter scenarioInput 4))
           (bytes "contentType") (bytes "text/html")).
  - reflexivity.
  - vm_compute. reflexivity.
  - vm_compute. reflexivity.
  - left. vm_compute. reflexivity.
  - apply forallb_Forall. vm_compute. reflexivity.
  - apply forallb_Forall. vm_compute. reflexivity.
Defined.
